(** * Midnight Scavenger Mine batch scripts: a shallow embedding

    The two scripts, [register-all-addresses.py] and
    [consolidate-rewards.py], derive Cardano addresses from a mnemonic,
    sign a message per address in the CIP-30 format and drive the
    rewards service one address at a time.

    Modelling choices, fixed once for the whole development:
    - a Python [str] is a [string]; its characters are the code points
      0..255, and [encode_utf8] gives their UTF-8 bytes;
    - [bytes] is [list byte];
    - a Python [int] is a [Z];
    - [pycardano] (key derivation, hashing, Ed25519) is an interface,
      [PyCardano], whose operations are pure functions;
    - the console, the keyboard, the working directory and the rewards
      service are an explicit [world]; every function that touches them
      lives in the monad [M], which threads the world, collects the
      events of the run in order and propagates Python exceptions;
    - console output is kept as [line] constructors that name the
      [print] statements; banners, blank lines and tracebacks are left
      out, and the text of a line is not modelled beyond its data;
    - the snapshot files hold either text that [json.load] rejects or a
      list of registration entries, the shape the scripts write;
    - writing a file, printing and sleeping do not fail. *)

From Stdlib Require Import Strings.Byte Strings.Ascii Strings.String.
From stdpp Require Import gmap strings list pretty.

Local Open Scope Z_scope.

(** * Bytes, text and hexadecimal *)

Definition byte_of_Z (z : Z) : byte :=
  default x00 (Byte.of_N (Z.to_N (z `mod` 256))).

Definition Z_of_byte (b : byte) : Z := Z.of_N (Byte.to_N b).

(** [str.encode('utf-8')] for one code point below 256. *)
Definition utf8_char (c : ascii) : list byte :=
  let n := Z.of_N (N_of_ascii c) in
  if n <? 128 then [byte_of_Z n]
  else [byte_of_Z (Z.lor 192 (Z.shiftr n 6)); byte_of_Z (Z.lor 128 (Z.land n 63))].

Fixpoint encode_utf8 (s : string) : list byte :=
  match s with
  | EmptyString => []
  | String c rest => utf8_char c ++ encode_utf8 rest
  end.

Definition hex_digit (n : Z) : ascii :=
  default "0"%char (list_ascii_of_string "0123456789abcdef" !! Z.to_nat n).

(** [bytes.hex()]. *)
Fixpoint hex (bs : list byte) : string :=
  match bs with
  | [] => EmptyString
  | b :: rest =>
      String (hex_digit (Z_of_byte b / 16))
        (String (hex_digit (Z_of_byte b `mod` 16)) (hex rest))
  end.

(** [s[:n]] on a string. *)
Fixpoint str_take (n : nat) (s : string) : string :=
  match n, s with
  | S k, String c rest => String c (str_take k rest)
  | _, _ => EmptyString
  end.

(** [s.startswith(p)]. *)
Fixpoint startswith (p s : string) : bool :=
  match p, s with
  | EmptyString, _ => true
  | String a p', String b s' => bool_decide (a = b) && startswith p' s'
  | String _ _, EmptyString => false
  end.

(** [c.isspace()] for a code point below 256. *)
Definition is_space (c : ascii) : bool :=
  let n := Z.of_N (N_of_ascii c) in
  ((9 <=? n) && (n <=? 13)) || ((28 <=? n) && (n <=? 32))
  || (n =? 133) || (n =? 160).

Fixpoint lstrip (s : string) : string :=
  match s with
  | String c rest => if is_space c then lstrip rest else s
  | EmptyString => EmptyString
  end.

(** [s.strip()]. *)
Definition strip (s : string) : string :=
  String.rev (lstrip (String.rev (lstrip s))).

(** [s.split()]: the maximal runs of non-space characters. *)
Fixpoint split_go (cur : option string) (s : string) : list string :=
  match s with
  | EmptyString => option_list (String.rev <$> cur)
  | String c rest =>
      if is_space c
      then option_list (String.rev <$> cur) ++ split_go None rest
      else split_go (Some (String c (default EmptyString cur))) rest
  end.

Definition split (s : string) : list string := split_go None s.

(** [c.lower()] for a code point below 256. *)
Definition lower_char (c : ascii) : ascii :=
  let n := Z.of_N (N_of_ascii c) in
  if ((65 <=? n) && (n <=? 90))
     || ((192 <=? n) && (n <=? 222) && negb (n =? 215))
  then ascii_of_N (Z.to_N (n + 32)) else c.

Fixpoint lower (s : string) : string :=
  match s with
  | EmptyString => EmptyString
  | String c rest => String (lower_char c) (lower rest)
  end.

(** [s * n]. *)
Fixpoint str_repeat (s : string) (n : nat) : string :=
  match n with
  | O => EmptyString
  | S k => s +:+ str_repeat s k
  end.

(** * CBOR, as [cbor2.dumps] writes it *)

(** The Python values the scripts hand to [cbor2.dumps]. A [dict] keeps
    its insertion order, which is the order [cbor2] writes it in. *)
#[warnings="-register-all"]
Inductive pyobj :=
| PInt (n : Z)
| PBytes (b : list byte)
| PStr (s : string)
| PBool (b : bool)
| PList (items : list pyobj)
| PDict (items : list (pyobj * pyobj)).

(** Big-endian bytes of [n], [width] of them. *)
Fixpoint be_bytes (width : nat) (n : Z) : list byte :=
  match width with
  | O => []
  | S k => be_bytes k (n / 256) ++ [byte_of_Z n]
  end.

(** [CBOREncoder.encode_length]: the initial byte and the argument. *)
Definition encode_length (major : Z) (n : Z) : list byte :=
  let tag := Z.shiftl major 5 in
  if n <? 24 then [byte_of_Z (Z.lor tag n)]
  else if n <? 256 then byte_of_Z (Z.lor tag 24) :: be_bytes 1 n
  else if n <? 65536 then byte_of_Z (Z.lor tag 25) :: be_bytes 2 n
  else if n <? 4294967296 then byte_of_Z (Z.lor tag 26) :: be_bytes 4 n
  else byte_of_Z (Z.lor tag 27) :: be_bytes 8 n.

Definition len {A} (l : list A) : Z := Z.of_nat (length l).

(** The shortest big-endian form of a non-negative integer,
    [n.to_bytes((n.bit_length() + 7) // 8, 'big')]. *)
Definition min_be_bytes (n : Z) : list byte :=
  be_bytes (Z.to_nat ((Z.log2 n + 8) / 8)) n.

Definition encode_bytes (b : list byte) : list byte :=
  encode_length 2 (len b) ++ b.

(** [CBOREncoder.encode_int]: integers of 64 bits directly, larger ones
    as a tagged byte string. *)
Definition encode_int (n : Z) : list byte :=
  if (18446744073709551616 <=? n) || (n <? -18446744073709551616) then
    if 0 <=? n then encode_length 6 2 ++ encode_bytes (min_be_bytes n)
    else encode_length 6 3 ++ encode_bytes (min_be_bytes (- n - 1))
  else if 0 <=? n then encode_length 0 n
  else encode_length 1 (- (n + 1)).

Fixpoint cbor2_dumps (v : pyobj) : list byte :=
  match v with
  | PInt n => encode_int n
  | PBytes b => encode_bytes b
  | PStr s => encode_length 3 (len (encode_utf8 s)) ++ encode_utf8 s
  | PBool b => if b then [xf5] else [xf4]
  | PList items =>
      encode_length 4 (len items) ++ concat (map cbor2_dumps items)
  | PDict items =>
      encode_length 5 (len items)
      ++ concat (map (λ kv, cbor2_dumps kv.1 ++ cbor2_dumps kv.2) items)
  end.

(** * JSON values, replies of the service, files *)

(** What [json.load] and [response.json()] return. *)
#[warnings="-register-all"]
Inductive json :=
| JNull
| JBool (b : bool)
| JInt (n : Z)
| JFloat (literal : string)
| JStr (s : string)
| JArr (items : list json)
| JObj (fields : list (string * json)).

(** A [dict] with string keys: [d.get(k)] finds the entry for [k]. *)
Fixpoint dict_get {V} (k : string) (d : list (string * V)) : option V :=
  match d with
  | [] => None
  | (k', v) :: rest => if decide (k' = k) then Some v else dict_get k rest
  end.


(** Python exceptions, with the text [str(e)] gives. All of them are
    subclasses of [Exception]. *)
Inductive exn_type :=
| UnboundLocalError | TypeError | ValueError | IndexError | KeyError
| JSONDecodeError | FileNotFoundError | RequestException | EOFError.

Record exn := Exn { exn_kind : exn_type; exn_str : string }.

(** A [requests.Response], as far as the scripts look at it. *)
Record response := Response {
  status_code : Z;
  retry_after : option string;   (* headers.get('Retry-After') *)
  body_json : option json;       (* None: response.json() raises *)
  text : string
}.

(** [response.ok]: the status is not a 4xx or 5xx one. *)
Definition ok (r : response) : bool :=
  negb ((400 <=? status_code r) && (status_code r <? 600)).

(** What a call to [requests] ends in: a response, or an exception
    (connection refused, timeout) with its text. *)
Inductive reply :=
| Answered (r : response)
| Unreachable (detail : string).

Definition API_BASE : string := "https://scavenger.prod.gd.midnighttge.io".

Inductive request :=
| GetTerms
| Register (address signature pubkey : string)
| DonateTo (destination original signature : string).

(** The URL the scripts build for each request. *)
Definition url (r : request) : string :=
  match r with
  | GetTerms => API_BASE +:+ "/TandC"
  | Register address signature pubkey =>
      API_BASE +:+ "/register/" +:+ address +:+ "/" +:+ signature
        +:+ "/" +:+ pubkey
  | DonateTo destination original signature =>
      API_BASE +:+ "/donate_to/" +:+ destination +:+ "/" +:+ original
        +:+ "/" +:+ signature
  end.

(** An entry of [registrations.json] and [registrations-partial.json]. *)
Record registration := Registration {
  reg_address : string;
  reg_signature : string;
  reg_pubkey : string
}.

(** A snapshot file: text that [json.load] rejects, or a list of
    registration entries. *)
Inductive snapshot :=
| Malformed
| Entries (entries : list registration).

(** The document written to [consolidation-results.json]; each result is
    a [dict]. *)
Record summary := Summary {
  sum_destination : string;
  sum_total : Z;
  sum_successful : Z;
  sum_failed : Z;
  sum_results : list (list (string * json))
}.

(** * The interface of pycardano *)

Inductive Network := MAINNET | TESTNET.
Inductive key_role := Payment | Stake.

Class PyCardano := {
  HDWallet : Type;
  SigningKey : Type;
  VerificationKey : Type;
  KeyHash : Type;
  Address : Type;
  (** [HDWallet.from_mnemonic]; [None] when it raises [ValueError]. *)
  from_mnemonic : string → option HDWallet;
  derive_from_path : HDWallet → string → HDWallet;
  xprivate_key : HDWallet → list byte;
  (** [PaymentSigningKey.from_primitive], [StakeSigningKey.from_primitive]. *)
  skey_from_primitive : key_role → list byte → SigningKey;
  vkey_from_signing_key : SigningKey → VerificationKey;
  vkey_hash : VerificationKey → KeyHash;
  vkey_to_primitive : VerificationKey → list byte;
  (** [Address(payment_part, staking_part, network)]. *)
  make_address : KeyHash → KeyHash → Network → Address;
  address_str : Address → string;
  address_to_primitive : Address → list byte;
  (** [SigningKey.sign]. *)
  sign : SigningKey → list byte → list byte;
  (** [str(v)] of a decoded JSON value that is not a string. *)
  repr_json : json → string
}.

Definition NETWORK : Network := MAINNET.

(** * Console lines, events, the world *)

(** The [print] statements of the two scripts. *)
Inductive line :=
(* derive_addresses_from_mnemonic *)
| Deriving (count : Z)
| DerivedSoFar (done count : Z)
| DerivedAll (count : Z)
(* get_registration_message *)
| FetchingMessage
| GotMessage (head : string)
(* register_all_addresses *)
| RegisteringAll (total : Z)
| FoundPrevious (n : Z)
| RegisteringOne (position total : Z) (head : string)
| AlreadyRegistered
| RegisteredOk
| RegistrationFailed (detail : json)
| RegisteredSummary (successes total : Z)
(* consolidate_all *)
| ConsolidatingAll (total : Z) (destination_head : string)
| MessageToSign (message : string)
| ConsolidatingOne (position total : Z) (head : string)
| NotInDerived
| ConsolidatedOk
| ConsolidationFailed (status : json) (detail : json)
| FailedUrl (tail : string)
| ConsolidatedSummary (successes total : Z)
| SavedResults
(* load_registered_addresses *)
| LoadedRegistrations (n : Z)
| RegistrationsNotFound
| SkippingBackup
(* both loops: the handler of [except Exception as e] *)
| ErrorLine (head : string)
(* main *)
| Banner
| Aborted
| AskSeed
| InvalidMnemonic (word_count : Z)
| GotSeed (word_count : Z)
| CountOutOfRange
| SampleAddresses (first : string) (last : option string)
| FoundExisting
| VerifiedMatches (matches compared : Z)
| SavedRegistrations (n : Z) (file : string)
| Done
| NextSteps
| NoneRegistered
| NoRegisteredAddresses
| TotalToConsolidate (n : Z)
| Sample (position : Z) (head : string)
| AskDestination
| InvalidDestination
| DestinationAccepted (head : string)
| FinalConfirmation (n : Z) (head : string)
| FirstAddressMismatch (derived registered : string)
| VerificationPassed
| ConsolidatedSome (n : Z)
| NoneConsolidated
| FatalError (detail : string)
| SeedCleared.

Inductive prompt :=
| AskReady | AskSeedPhrase | AskCount | AskDestinationAddress.

Section Scripts.
Context {lib : PyCardano}.

(** What a run does, in order. *)
Inductive event :=
| Print (l : line)
| Asked (p : prompt) (answer : string)
| Signed (key : SigningKey) (data : list byte)
| Http (req : request) (ans : reply)
| Sleep (milliseconds : Z)
| WroteSnapshot (file : string) (entries : list registration)
| WroteResults (s : summary)
| Removed (file : string).

(** The surroundings of a run: the snapshot files of the working
    directory by name, the results file, what the user will type, the
    service (the answer to the [k]-th request), and the binding of
    [main]'s local variable [mnemonic]. *)
Record world := World {
  snapshots : gmap string snapshot;
  results_file : option summary;
  keyboard : list string;
  service : nat → request → reply;
  served : nat;
  mnemonic_var : option string
}.

Inductive outcome (A : Type) :=
| Ret (a : A)
| Raise (e : exn).
Global Arguments Ret {A} a.
Global Arguments Raise {A} e.

(** A computation returns or raises, leaves a world and a list of
    events behind. *)
Definition M (A : Type) : Type := world → outcome A * world * list event.

Definition ret {A} (a : A) : M A := λ w, (Ret a, w, []).

Definition bind {A B} (m : M A) (f : A → M B) : M B := λ w,
  match m w with
  | (Ret a, w1, t1) =>
      match f a w1 with
      | (o, w2, t2) => (o, w2, t1 ++ t2)
      end
  | (Raise e, w1, t1) => (Raise e, w1, t1)
  end.

Global Instance M_ret : MRet M := @ret.
Global Instance M_bind : MBind M := λ A B f m, bind m f.

Definition raise {A} (e : exn) : M A := λ w, (Raise e, w, []).

(** [try: m  except Exception as e: h e]. *)
Definition try_except {A} (m : M A) (h : exn → M A) : M A := λ w,
  match m w with
  | (Ret a, w1, t1) => (Ret a, w1, t1)
  | (Raise e, w1, t1) =>
      match h e w1 with
      | (o, w2, t2) => (o, w2, t1 ++ t2)
      end
  end.

(** [try: m  finally: cleanup]. *)
Definition finally {A} (m : M A) (cleanup : M unit) : M A := λ w,
  match m w with
  | (o, w1, t1) =>
      match cleanup w1 with
      | (Ret _, w2, t2) => (o, w2, t1 ++ t2)
      | (Raise e, w2, t2) => (Raise e, w2, t1 ++ t2)
      end
  end.

Definition emit (e : event) : M unit := λ w, (Ret (), w, [e]).
Definition say (l : line) : M unit := emit (Print l).
Definition sleep (milliseconds : Z) : M unit := emit (Sleep milliseconds).

Definition set_snapshots (f : gmap string snapshot → gmap string snapshot)
    (w : world) : world :=
  World (f (snapshots w)) (results_file w) (keyboard w) (service w)
    (served w) (mnemonic_var w).

(** [os.path.exists(file)]. *)
Definition path_exists (file : string) : M bool := λ w,
  (Ret (bool_decide (is_Some (snapshots w !! file))), w, []).

(** [json.load(open(file, 'r'))]. *)
Definition json_load (file : string) : M (list registration) := λ w,
  match snapshots w !! file with
  | None => (Raise (Exn FileNotFoundError file), w, [])
  | Some Malformed => (Raise (Exn JSONDecodeError "Expecting value"), w, [])
  | Some (Entries l) => (Ret l, w, [])
  end.

(** [with open(file, 'w') as f: json.dump(entries, f, indent=2)]. *)
Definition json_dump (file : string) (entries : list registration) : M unit :=
  λ w, (Ret (), set_snapshots <[file := Entries entries]> w,
        [WroteSnapshot file entries]).

(** [os.remove(file)]. *)
Definition os_remove (file : string) : M unit := λ w,
  match snapshots w !! file with
  | None => (Raise (Exn FileNotFoundError file), w, [])
  | Some _ => (Ret (), set_snapshots (delete file) w, [Removed file])
  end.

(** Writing [consolidation-results.json]. *)
Definition dump_results (s : summary) : M unit := λ w,
  (Ret (),
   World (snapshots w) (Some s) (keyboard w) (service w) (served w)
     (mnemonic_var w),
   [WroteResults s]).

(** [input(...)] and [getpass(...)]: the next line the user types. *)
Definition input (p : prompt) : M string := λ w,
  match keyboard w with
  | [] => (Raise (Exn EOFError "EOF when reading a line"), w, [])
  | answer :: rest =>
      (Ret answer,
       World (snapshots w) (results_file w) rest (service w) (served w)
         (mnemonic_var w),
       [Asked p answer])
  end.

(** Assigning to, or deleting, [main]'s local [mnemonic]. *)
Definition set_mnemonic (v : option string) : M unit := λ w,
  (Ret (),
   World (snapshots w) (results_file w) (keyboard w) (service w) (served w) v,
   []).

(** [requests.get] and [requests.post]: the service answers the
    request, or the call raises. *)
Definition requests_call (req : request) : M response := λ w,
  let ans := service w (served w) req in
  let w' := World (snapshots w) (results_file w) (keyboard w) (service w)
              (S (served w)) (mnemonic_var w) in
  match ans with
  | Answered r => (Ret r, w', [Http req ans])
  | Unreachable detail => (Raise (Exn RequestException detail), w', [Http req ans])
  end.

(** [key.sign(data)]. *)
Definition sign_with (key : SigningKey) (data : list byte) : M (list byte) :=
  λ w, (Ret (sign key data), w, [Signed key data]).

(** * Derivation (both scripts) *)

(** One element of the list [derive_addresses_from_mnemonic] returns. *)
Record addr_info := AddrInfo {
  index : Z;
  address : string;
  address_obj : Address;
  payment_skey : SigningKey;
  payment_vkey : VerificationKey
}.

(** The body of [for index in range(count)]: the record appended for
    [index]. *)
Definition derive_record (account_hdwallet : HDWallet)
    (stake_vkey : VerificationKey) (index : Z) : addr_info :=
  let payment_hdwallet :=
    derive_from_path account_hdwallet ("m/0/" +:+ pretty index) in
  let payment_skey :=
    skey_from_primitive Payment (take 32 (xprivate_key payment_hdwallet)) in
  let payment_vkey := vkey_from_signing_key payment_skey in
  let address :=
    make_address (vkey_hash payment_vkey) (vkey_hash stake_vkey) NETWORK in
  AddrInfo index (address_str address) address payment_skey payment_vkey.

Fixpoint derive_loop (account_hdwallet : HDWallet)
    (stake_vkey : VerificationKey) (count : Z) (indices : list Z)
    (addresses : list addr_info) : M (list addr_info) :=
  match indices with
  | [] => mret addresses
  | index :: rest =>
      let addresses :=
        addresses ++ [derive_record account_hdwallet stake_vkey index] in
      (if (index + 1) `mod` 10 =? 0
       then say (DerivedSoFar (index + 1) count) else mret ());;
      derive_loop account_hdwallet stake_vkey count rest addresses
  end.

(** [range(count)]. *)
Definition range (count : Z) : list Z :=
  Z.of_nat <$> seq 0 (Z.to_nat count).

Definition derive_addresses_from_mnemonic (mnemonic : string) (count : Z)
    : M (list addr_info) :=
  say (Deriving count);;
  hdwallet ← match from_mnemonic mnemonic with
             | Some h => mret h
             | None => raise (Exn ValueError "Invalid mnemonic words.")
             end;
  let account_hdwallet := derive_from_path hdwallet "m/1852'/1815'/0'" in
  let stake_hdwallet := derive_from_path account_hdwallet "m/2/0" in
  let stake_skey :=
    skey_from_primitive Stake (take 32 (xprivate_key stake_hdwallet)) in
  let stake_vkey := vkey_from_signing_key stake_skey in
  addresses ← derive_loop account_hdwallet stake_vkey count (range count) [];
  say (DerivedAll count);;
  mret addresses.

(** * The signature envelope (both scripts) *)

Definition sign_cip30_message (message : string) (payment_skey : SigningKey)
    (address : Address) : M string :=
  let address_bytes := address_to_primitive address in
  let protected_map :=
    PDict [(PInt 1, PInt (-8));
           (PInt 4, PBytes address_bytes);
           (PStr "address", PBytes address_bytes)] in
  let protected := cbor2_dumps protected_map in
  let unprotected := PDict [(PStr "hashed", PBool false)] in
  let payload := encode_utf8 message in
  let sig_structure :=
    cbor2_dumps (PList [PStr "Signature1"; PBytes protected; PBytes [];
                        PBytes payload]) in
  signature_bytes ← sign_with payment_skey sig_structure;
  let cose_sign1 :=
    cbor2_dumps (PList [PBytes protected; unprotected; PBytes payload;
                        PBytes signature_bytes]) in
  mret (hex cose_sign1).

(** * Registration: [register-all-addresses.py] *)

(** The [dict] the two API helpers return; an absent key is [None]. *)
Record api_result := ApiResult {
  success : bool;
  data : option json;
  error : option json;
  status : option Z;
  rate_limited : option bool;
  result_url : option string
}.

(** Fetching the message to sign. The model follows a ['message'] that
    is text, the only kind [sign_cip30_message] can encode. For any
    other value the model ends in an error at the slice of the
    [print], where Python fails for every JSON value but an array; an
    array Python would slice and return, to fail at [encode] for every
    address signed. The statements about this function are made for a
    text or leave the other cases open. *)
Definition get_registration_message : M string :=
  say FetchingMessage;;
  response ← requests_call GetTerms;
  data ← match body_json response with
         | Some d => mret d
         | None => raise (Exn JSONDecodeError "Expecting value")
         end;
  message ← match data with
            | JObj fields =>
                match dict_get "message" fields with
                | Some (JStr m) => mret m
                | Some _ => raise (Exn TypeError "message is not a string")
                | None => raise (Exn KeyError "'message'")
                end
            | _ => raise (Exn TypeError "response is not an object")
            end;
  say (GotMessage (str_take 80 message));;
  mret message.

Definition register_address (address signature pubkey : string)
    : M api_result :=
  let req := Register address signature pubkey in
  try_except
    (response ← requests_call req;
     if status_code response =? 429 then
       let retry_after := default "unknown" (retry_after response) in
       mret (ApiResult false None
               (Some (JStr ("Rate limited (retry after: " +:+ retry_after
                            +:+ ")")))
               None (Some true) None)
     else if ok response then
       match body_json response with
       | Some d => mret (ApiResult true (Some d) None None None None)
       | None =>
           mret (ApiResult true
                   (Some (JObj [("message",
                                 JStr "Registered (no JSON response)")]))
                   None None None None)
       end
     else
       match body_json response with
       | Some d =>
           mret (ApiResult false None (Some d)
                   (Some (status_code response)) None None)
       | None =>
           mret (ApiResult false None
                   (Some (JStr ("HTTP " +:+ pretty (status_code response)
                                +:+ ": " +:+ str_take 100 (text response))))
                   (Some (status_code response)) None None)
       end)
    (λ e, mret (ApiResult false None (Some (JStr (exn_str e))) None None None)).

(** [str(v)] of a value found in a result. *)
Definition py_str (v : json) : string :=
  match v with
  | JStr s => s
  | _ => repr_json v
  end.

(** The text both loops take from a failed result:
    [error.get('message', str(error))] for a [dict], [str(error)]
    otherwise. *)
Definition error_message (error : json) : json :=
  match error with
  | JObj fields => default (JStr (py_str error)) (dict_get "message" fields)
  | _ => JStr (py_str error)
  end.

(** [v[:n]]: strings and lists can be sliced, nothing else. *)
Definition slice_head (n : nat) (v : json) : M json :=
  match v with
  | JStr s => mret (JStr (str_take n s))
  | JArr items => mret (JArr (take n items))
  | _ => raise (Exn TypeError "object is not subscriptable")
  end.

(** The locals of [register_all_addresses] that the loop updates;
    [registered_addrs] is [None] while the name is not bound. *)
Record reg_state := RegState {
  registrations : list registration;
  registered_addrs : option (gset string);
  success_count : Z
}.

Definition temp_file : string := "registrations-partial.json".

(** The [try] block of one iteration. Nothing in it can raise after it
    has changed a local, so the handler resumes with the locals the
    iteration started from. *)
Definition register_attempt (message : string) (a : addr_info)
    (registered : gset string) (st : reg_state) : M reg_state :=
  try_except
    (signature ← sign_cip30_message message (payment_skey a) (address_obj a);
     let pubkey := hex (vkey_to_primitive (payment_vkey a)) in
     result ← register_address (address a) signature pubkey;
     if success result then
       say RegisteredOk;;
       let reg_entry := Registration (address a) signature pubkey in
       let registrations := registrations st ++ [reg_entry] in
       let registered := {[address a]} ∪ registered in
       json_dump temp_file registrations;;
       mret (RegState registrations (Some registered) (success_count st + 1))
     else
       let error := default (JStr "Unknown error") (error result) in
       let error_msg := error_message error in
       shown ← slice_head 60 error_msg;
       say (RegistrationFailed shown);;
       mret st)
    (λ e, say (ErrorLine (str_take 60 (exn_str e)));; mret st).

(** One iteration of [for i, addr_info in enumerate(addresses)]. *)
Definition register_step (message : string) (total : Z) (i : Z)
    (a : addr_info) (st : reg_state) : M reg_state :=
  say (RegisteringOne (i + 1) total (str_take 30 (address a)));;
  registered ← match registered_addrs st with
               | Some s => mret s
               | None =>
                   raise (Exn UnboundLocalError
                            "local variable 'registered_addrs' referenced before assignment")
               end;
  if decide (address a ∈ registered) then
    say AlreadyRegistered;; mret st
  else
    st ← register_attempt message a registered st;
    (if i <? total - 1 then sleep 2000 else mret ());;
    mret st.

Fixpoint register_loop (message : string) (total : Z) (i : Z)
    (addresses : list addr_info) (st : reg_state) : M reg_state :=
  match addresses with
  | [] => mret st
  | a :: rest =>
      st ← register_step message total i a st;
      register_loop message total (i + 1) rest st
  end.

(** Loading the partial snapshot. A bare [except: pass] swallows a
    failed load and leaves [registered_addrs] without a binding. *)
Definition load_partial : M reg_state :=
  path_exists temp_file ≫= λ found : bool,
  if found then
    try_except
      (loaded ← json_load temp_file;
       let registered_addrs := list_to_set (reg_address <$> loaded) in
       say (FoundPrevious (len loaded));;
       mret (RegState loaded (Some registered_addrs) (len loaded)))
      (λ _, mret (RegState [] None 0))
  else mret (RegState [] (Some ∅) 0).

Definition register_all_addresses (addresses : list addr_info)
    (message : string) : M (list registration) :=
  say (RegisteringAll (len addresses));;
  st ← load_partial;
  st ← register_loop message (len addresses) 0 addresses st;
  say (RegisteredSummary (success_count st) (len addresses));;
  mret (registrations st).

(** [int(s)] for a decimal literal: an optional sign, then digits, with
    single underscores allowed between digits. *)
Definition digit_value (c : ascii) : option Z :=
  let n := Z.of_N (N_of_ascii c) in
  if (48 <=? n) && (n <=? 57) then Some (n - 48) else None.

Fixpoint parse_digits (acc : Z) (after_digit : bool) (s : string) : option Z :=
  match s with
  | EmptyString => if after_digit then Some acc else None
  | String c rest =>
      match digit_value c with
      | Some d => parse_digits (acc * 10 + d) true rest
      | None =>
          if bool_decide (c = "_"%char) && after_digit
          then parse_digits acc false rest else None
      end
  end.

Definition parse_int (s : string) : option Z :=
  match strip s with
  | String "-" rest => Z.opp <$> parse_digits 0 false rest
  | String "+" rest => parse_digits 0 false rest
  | digits => parse_digits 0 false digits
  end.

Definition py_int (s : string) : M Z :=
  match parse_int s with
  | Some n => mret n
  | None =>
      raise (Exn ValueError
               ("invalid literal for int() with base 10: '" +:+ s +:+ "'"))
  end.

(** [l[i]] with Python's negative indices. *)
Definition py_index {A} (l : list A) (i : Z) : option A :=
  if 0 <=? i then l !! Z.to_nat i
  else if 0 <=? len l + i then l !! Z.to_nat (len l + i) else None.

Definition index_or_raise {A} (l : list A) (i : Z) : M A :=
  match py_index l i with
  | Some x => mret x
  | None => raise (Exn IndexError "list index out of range")
  end.

Definition valid_word_counts : list Z := [12; 15; 18; 21; 24].

(** The [finally] block of both [main]s. *)
Definition clear_seed : M unit :=
  set_mnemonic (Some (str_repeat "0" 1000));;
  set_mnemonic None;;
  say SeedCleared.

Definition old_file : string := "registrations.json".
Definition new_file : string := "registrations-new.json".

(** How many of the first entries of the two lists carry the same
    address, and how many were compared. *)
Definition count_matches (old_registrations registrations : list registration)
    : Z * Z :=
  let compared :=
    Nat.min 3 (Nat.min (length old_registrations) (length registrations)) in
  (len (filter (λ p, reg_address p.1 = reg_address p.2)
          (zip (take compared old_registrations)
               (take compared registrations))),
   Z.of_nat compared).

(** The [try] block of [main] in [register-all-addresses.py]. *)
Definition register_run (mnemonic : string) (count : Z) : M unit :=
  addresses ← derive_addresses_from_mnemonic mnemonic count;
  first ← index_or_raise addresses 0;
  last ← (if 1 <? count
          then last ← index_or_raise addresses (-1);
               mret (Some (str_take 50 (address last)))
          else mret None);
  say (SampleAddresses (str_take 50 (address first)) last);;
  message ← get_registration_message;
  registrations ← register_all_addresses addresses message;
  if 0 <? len registrations then
    (path_exists temp_file ≫= λ found : bool,
       if found then os_remove temp_file else mret ());;
    output_file ←
      (path_exists old_file ≫= λ found : bool,
         if found then
           say FoundExisting;;
           old_registrations ← json_load old_file;
           let '(matches, compared) :=
             count_matches old_registrations registrations in
           say (VerifiedMatches matches compared);;
           mret new_file
         else mret old_file);
    json_dump output_file registrations;;
    say (SavedRegistrations (len registrations) output_file);;
    say Done;;
    if decide (output_file = old_file) then mret () else say NextSteps
  else say NoneRegistered.

(** [main] of [register-all-addresses.py]. *)
Definition register_main : M unit :=
  say Banner;;
  confirm ← input AskReady;
  if decide (lower (strip confirm) = "yes") then
    say AskSeed;;
    typed ← input AskSeedPhrase;
    let mnemonic := strip typed in
    set_mnemonic (Some mnemonic);;
    let word_count := len (split mnemonic) in
    if decide (word_count ∈ valid_word_counts) then
      say (GotSeed word_count);;
      typed ← input AskCount;
      let count_input := strip typed in
      count ← (if decide (count_input = "") then mret 100
               else py_int count_input);
      if (count <? 1) || (1000 <? count) then say CountOutOfRange
      else
        finally
          (try_except (register_run mnemonic count)
             (λ e, say (FatalError (exn_str e))))
          clear_seed
    else say (InvalidMnemonic word_count)
  else say Aborted.

(** * Consolidation: [consolidate-rewards.py] *)

Definition consolidate_address (destination original signature : string)
    : M api_result :=
  let req := DonateTo destination original signature in
  try_except
    (response ← requests_call req;
     if ok response then
       match body_json response with
       | Some d => mret (ApiResult true (Some d) None None None None)
       | None =>
           mret (ApiResult true
                   (Some (JObj [("message",
                                 JStr "Success (no JSON response)")]))
                   None None None None)
       end
     else
       match body_json response with
       | Some error_data =>
           mret (ApiResult false None (Some error_data)
                   (Some (status_code response)) None
                   (Some (str_take 100 (url req))))
       | None =>
           mret (ApiResult false None
                   (Some (JStr ("HTTP " +:+ pretty (status_code response)
                                +:+ ": " +:+ str_take 200 (text response))))
                   (Some (status_code response)) None
                   (Some (str_take 100 (url req))))
       end)
    (λ e, mret (ApiResult false None (Some (JStr (exn_str e))) None None None)).

Definition load_registered_addresses : M (list string) :=
  path_exists old_file ≫= λ found : bool,
  if found then
    main_regs ← json_load old_file;
    say (LoadedRegistrations (len main_regs));;
    say SkippingBackup;;
    mret (reg_address <$> main_regs)
  else
    say RegistrationsNotFound;;
    mret [].

(** [{a['address']: a for a in derived_addresses}]: a later record
    replaces an earlier one with the same address. *)
Definition address_map_of (derived_addresses : list addr_info)
    : gmap string addr_info :=
  foldl (λ m a, <[address a := a]> m) ∅ derived_addresses.

(** [s[-n:]]. *)
Definition str_tail (n : nat) (s : string) : string :=
  String.rev (str_take n (String.rev s)).

(** The locals of [consolidate_all] that the loop updates. *)
Record cons_state := ConsState {
  cons_success_count : Z;
  cons_results : list (list (string * json))
}.

(** The [try] block of one iteration, with its handler. *)
Definition consolidate_attempt (destination consolidation_message : string)
    (original_addr : string) (a : addr_info) (st : cons_state) : M cons_state :=
  try_except
    (signature ← sign_cip30_message consolidation_message (payment_skey a)
                   (address_obj a);
     result ← consolidate_address destination original_addr signature;
     if success result then
       say ConsolidatedOk;;
       mret (ConsState (cons_success_count st + 1)
               (cons_results st
                ++ [[("address", JStr original_addr);
                     ("success", JBool true);
                     ("data", default JNull (data result))]]))
     else
       let error := default (JStr "Unknown error") (error result) in
       let status := from_option JInt (JStr "unknown") (status result) in
       let error_msg := error_message error in
       shown ← slice_head 120 error_msg;
       say (ConsolidationFailed status shown);;
       match result_url result with
       | Some u => say (FailedUrl (str_tail 60 u))
       | None => mret ()
       end;;
       mret (ConsState (cons_success_count st)
               (cons_results st
                ++ [[("address", JStr original_addr);
                     ("success", JBool false);
                     ("error", error_msg);
                     ("status", status)]])))
    (λ e,
       say (ErrorLine (str_take 80 (exn_str e)));;
       mret (ConsState (cons_success_count st)
               (cons_results st
                ++ [[("address", JStr original_addr);
                     ("success", JBool false);
                     ("error", JStr (exn_str e))]]))).

(** One iteration of [for i, original_addr in enumerate(registered_addresses)]. *)
Definition consolidate_step (destination consolidation_message : string)
    (address_map : gmap string addr_info) (total : Z) (i : Z)
    (original_addr : string) (st : cons_state) : M cons_state :=
  say (ConsolidatingOne (i + 1) total (str_take 40 original_addr));;
  match address_map !! original_addr with
  | None =>
      say NotInDerived;;
      mret (ConsState (cons_success_count st)
              (cons_results st
               ++ [[("address", JStr original_addr);
                    ("success", JBool false);
                    ("error", JStr "Not in derived set")]]))
  | Some a =>
      st ← consolidate_attempt destination consolidation_message
             original_addr a st;
      (if i <? total - 1 then sleep 500 else mret ());;
      mret st
  end.

Fixpoint consolidate_loop (destination consolidation_message : string)
    (address_map : gmap string addr_info) (total : Z) (i : Z)
    (registered_addresses : list string) (st : cons_state) : M cons_state :=
  match registered_addresses with
  | [] => mret st
  | original_addr :: rest =>
      st ← consolidate_step destination consolidation_message address_map
             total i original_addr st;
      consolidate_loop destination consolidation_message address_map total
        (i + 1) rest st
  end.

Definition consolidate_all (destination : string)
    (derived_addresses : list addr_info) (registered_addresses : list string)
    : M Z :=
  say (ConsolidatingAll (len registered_addresses) (str_take 50 destination));;
  let address_map := address_map_of derived_addresses in
  let consolidation_message :=
    "Assign accumulated Scavenger rights to: " +:+ destination in
  say (MessageToSign consolidation_message);;
  st ← consolidate_loop destination consolidation_message address_map
         (len registered_addresses) 0 registered_addresses
         (ConsState 0 []);
  let success_count := cons_success_count st in
  say (ConsolidatedSummary success_count (len registered_addresses));;
  dump_results
    (Summary destination (len registered_addresses) success_count
       (len registered_addresses - success_count) (cons_results st));;
  say SavedResults;;
  mret success_count.

(** The sample lines [main] prints: positions 0, 1, -2 and -1 where
    the list is long enough. *)
Definition sample_lines (registered_addresses : list string) : list line :=
  omap (λ i : Z,
          if Z.abs i <? len registered_addresses then
            addr ← py_index registered_addresses i;
            Some (Sample (if 0 <=? i then i else len registered_addresses + i)
                    (str_take 50 addr))
          else None)
       [0; 1; -2; -1].

Fixpoint say_all (lines : list line) : M unit :=
  match lines with
  | [] => mret ()
  | l :: rest => say l;; say_all rest
  end.

(** The [try] block of [main] in [consolidate-rewards.py]. *)
Definition consolidate_run (mnemonic destination : string)
    (registered_addresses : list string) : M unit :=
  let max_count := len registered_addresses in
  derived_addresses ← derive_addresses_from_mnemonic mnemonic max_count;
  first_derived ← index_or_raise derived_addresses 0;
  first_registered ← index_or_raise registered_addresses 0;
  if decide (address first_derived ≠ first_registered) then
    say (FirstAddressMismatch (str_take 60 (address first_derived))
           (str_take 60 first_registered))
  else
    say VerificationPassed;;
    success_count ← consolidate_all destination derived_addresses
                      registered_addresses;
    if 0 <? success_count then say (ConsolidatedSome success_count)
    else say NoneConsolidated.

(** [main] of [consolidate-rewards.py]. *)
Definition consolidate_main : M unit :=
  say Banner;;
  registered_addresses ← load_registered_addresses;
  match registered_addresses with
  | [] => say NoRegisteredAddresses
  | _ :: _ =>
      say (TotalToConsolidate (len registered_addresses));;
      say_all (sample_lines registered_addresses);;
      say AskDestination;;
      typed ← input AskDestinationAddress;
      let destination := strip typed in
      if startswith "addr1" destination then
        say (DestinationAccepted (str_take 50 destination));;
        say (FinalConfirmation (len registered_addresses)
               (str_take 40 destination));;
        sleep 3000;;
        say AskSeed;;
        typed ← input AskSeedPhrase;
        let mnemonic := strip typed in
        set_mnemonic (Some mnemonic);;
        let word_count := len (split mnemonic) in
        if decide (word_count ∈ valid_word_counts) then
          say (GotSeed word_count);;
          finally
            (try_except
               (consolidate_run mnemonic destination registered_addresses)
               (λ e, say (FatalError (exn_str e))))
            clear_seed
        else say (InvalidMnemonic word_count)
      else say InvalidDestination
  end.

End Scripts.

(** * Vocabulary of the statements *)

Section Vocabulary.
Context {lib : PyCardano}.

(** The three components of what a computation leaves behind. *)
Definition result_of {A} (r : outcome A * world * list event) : outcome A := r.1.1.
Definition world_of {A} (r : outcome A * world * list event) : world := r.1.2.
Definition events_of {A} (r : outcome A * world * list event) : list event := r.2.

(** The world after one more request has been served. *)
Definition bump (w : world) : world :=
  World (snapshots w) (results_file w) (keyboard w) (service w)
    (S (served w)) (mnemonic_var w).

(** ** The signed envelope, in the words of the specification *)

(** [{protectedHeaderBytes, unprotectedHeaders, payloadBytes,
    signatureBytes}]. *)
Record SignedEnvelope := Envelope {
  protectedHeaderBytes : list byte;
  unprotectedHeaders : pyobj;
  payloadBytes : list byte;
  signatureBytes : list byte
}.

(** The map [{1: -8, 4: addressBytes, "address": addressBytes}]. *)
Definition protected_header_map (addressBytes : list byte) : pyobj :=
  PDict [(PInt 1, PInt (-8)); (PInt 4, PBytes addressBytes);
         (PStr "address", PBytes addressBytes)].

(** The array [["Signature1", protectedHeaderBytes, empty, payload]]. *)
Definition signing_structure (protected payload : list byte) : pyobj :=
  PList [PStr "Signature1"; PBytes protected; PBytes []; PBytes payload].

(** The array [[protectedHeaderBytes, unprotectedHeaders, payload,
    signatureBytes]]. *)
Definition envelope_array (e : SignedEnvelope) : pyobj :=
  PList [PBytes (protectedHeaderBytes e); unprotectedHeaders e;
         PBytes (payloadBytes e); PBytes (signatureBytes e)].

(** The envelope the specification describes for a message, a key and
    an address. *)
Definition specified_envelope (message : string) (key : SigningKey)
    (address : Address) : SignedEnvelope :=
  let protected :=
    cbor2_dumps (protected_header_map (address_to_primitive address)) in
  let payload := encode_utf8 message in
  Envelope protected (PDict [(PStr "hashed", PBool false)]) payload
    (sign key (cbor2_dumps (signing_structure protected payload))).

(** The bytes handed to the signing key. *)
Definition signed_bytes (message : string) (address : Address) : list byte :=
  cbor2_dumps
    (signing_structure
       (cbor2_dumps (protected_header_map (address_to_primitive address)))
       (encode_utf8 message)).

(** The hex string [sign_cip30_message] returns. *)
Definition cip30 (message : string) (key : SigningKey) (address : Address)
    : string :=
  hex (cbor2_dumps (envelope_array (specified_envelope message key address))).

(** A byte string in CBOR: its head, then the bytes. *)
Definition bstr (b : list byte) : list byte := encode_length 2 (len b) ++ b.

(** ** Derivation *)

(** The record of [index] for a seed, as the body of the loop computes
    it from the account wallet and the shared stake key. *)
Definition seed_record (hdwallet : HDWallet) (index : Z) : addr_info :=
  let account_hdwallet := derive_from_path hdwallet "m/1852'/1815'/0'" in
  let stake_hdwallet := derive_from_path account_hdwallet "m/2/0" in
  let stake_skey :=
    skey_from_primitive Stake (take 32 (xprivate_key stake_hdwallet)) in
  derive_record account_hdwallet (vkey_from_signing_key stake_skey) index.

(** ** The two loops *)

(** Whether the registration helper reports success for an answer:
    the status is neither 429 nor another 4xx or 5xx one. *)
Definition registration_succeeds (ans : reply) : bool :=
  match ans with
  | Answered r => negb (status_code r =? 429) && ok r
  | Unreachable _ => false
  end.

(** Whether the consolidation helper reports success for an answer. *)
Definition consolidation_succeeds (ans : reply) : bool :=
  match ans with
  | Answered r => ok r
  | Unreachable _ => false
  end.

Definition pubkey_of (a : addr_info) : string :=
  hex (vkey_to_primitive (payment_vkey a)).

(** The request and the ledger entry of a record, for a message. *)
Definition register_request (message : string) (a : addr_info) : request :=
  Register (address a) (cip30 message (payment_skey a) (address_obj a))
    (pubkey_of a).

Definition entry_of (message : string) (a : addr_info) : registration :=
  Registration (address a) (cip30 message (payment_skey a) (address_obj a))
    (pubkey_of a).

Definition consolidation_message (destination : string) : string :=
  "Assign accumulated Scavenger rights to: " +:+ destination.

Definition donate_request (destination : string) (a : addr_info) : request :=
  DonateTo destination (address a)
    (cip30 (consolidation_message destination) (payment_skey a)
       (address_obj a)).

(** The exception of reading [registered_addrs] before it is bound. *)
Definition unbound_registered_addrs : exn :=
  Exn UnboundLocalError
    "local variable 'registered_addrs' referenced before assignment".

(** The result recorded for a registered address that has no derived
    record. *)
Definition not_in_derived (original : string) : list (string * json) :=
  [("address", JStr original); ("success", JBool false);
   ("error", JStr "Not in derived set")].

(** The result recorded for a successful consolidation. *)
Definition success_entry (original : string) (d : json)
    : list (string * json) :=
  [("address", JStr original); ("success", JBool true); ("data", d)].

(** The results recorded for a failed one: with the status of the
    answer, or, when the handler of the [try] block wrote it, without. *)
Definition failure_entry (original : string) (entry : list (string * json))
    : Prop :=
  ∃ detail,
    entry = [("address", JStr original); ("success", JBool false);
             ("error", detail)]
    ∨ ∃ status,
        entry = [("address", JStr original); ("success", JBool false);
                 ("error", detail); ("status", status)].

(** The pause after an address that is not the last one. *)
Definition pause (milliseconds : Z) (i total : Z) : list event :=
  if i <? total - 1 then [Sleep milliseconds] else [].

(** The requests, the delays and the file writes of a run. *)
Definition requests_of (t : list event) : list request :=
  omap (λ e, match e with Http req _ => Some req | _ => None end) t.

Definition delays_of (t : list event) : list Z :=
  omap (λ e, match e with Sleep d => Some d | _ => None end) t.

Definition is_print (e : event) : bool :=
  match e with Print _ => true | _ => false end.

Definition is_signing (e : event) : bool :=
  match e with Signed _ _ => true | _ => false end.

Definition is_request (e : event) : bool :=
  match e with Http _ _ => true | _ => false end.

Definition is_write (e : event) : bool :=
  match e with
  | WroteSnapshot _ _ | WroteResults _ | Removed _ => true
  | _ => false
  end.

(** The lines [derive_addresses_from_mnemonic] prints. *)
Definition is_derivation_line (e : event) : bool :=
  match e with
  | Print (Deriving _) | Print (DerivedSoFar _ _) | Print (DerivedAll _) => true
  | _ => false
  end.

(** An event that signs, calls the service or writes a file. *)
Definition acts (e : event) : bool :=
  is_signing e || is_request e || is_write e.

(** ** The two [main]s *)

(** What [main] of the consolidation script has done when it reaches
    its [try] statement. *)
Definition consolidate_prelude (registered : list string)
    (typed_destination typed_seed : string) : list event :=
  [Print Banner;
   Print (LoadedRegistrations (len registered));
   Print SkippingBackup;
   Print (TotalToConsolidate (len registered))]
  ++ (Print <$> sample_lines registered)
  ++ [Print AskDestination;
      Asked AskDestinationAddress typed_destination;
      Print (DestinationAccepted (str_take 50 (strip typed_destination)));
      Print (FinalConfirmation (len registered)
               (str_take 40 (strip typed_destination)));
      Sleep 3000; Print AskSeed; Asked AskSeedPhrase typed_seed].

(** The handler of [except Exception as e] in both [main]s. *)
Definition report_fatal (e : exn) : M () := say (FatalError (exn_str e)).

(** ** The ledger and the traces of the registration loop *)

(** The entries of the partial snapshot, none when there is no file or
    it does not parse. *)
Definition ledger_of (w : world) : list registration :=
  match snapshots w !! temp_file with
  | Some (Entries l) => l
  | _ => []
  end.

(** The shape of what the registration batch does, from a ledger [l]
    to a ledger [l']: lines, pauses of two seconds, and attempts. An
    attempt is made for a record of the list whose address is not in
    the ledger; it signs, sends the request, and, when the answer is a
    success, prints so and writes the ledger with the new entry at its
    end before anything else happens. *)
Inductive registration_trace (message : string) (all : list addr_info)
    : list registration → list event → list registration → Prop :=
| rt_done l :
    registration_trace message all l [] l
| rt_print l line t l' :
    registration_trace message all l t l' →
    registration_trace message all l (Print line :: t) l'
| rt_pause l t l' :
    registration_trace message all l t l' →
    registration_trace message all l (Sleep 2000 :: t) l'
| rt_failed l a ans t l' :
    a ∈ all →
    address a ∉ reg_address <$> l →
    registration_succeeds ans = false →
    registration_trace message all l t l' →
    registration_trace message all l
      (Signed (payment_skey a) (signed_bytes message (address_obj a))
       :: Http (register_request message a) ans :: t) l'
| rt_recorded l a ans t l' :
    a ∈ all →
    address a ∉ reg_address <$> l →
    registration_succeeds ans = true →
    registration_trace message all (l ++ [entry_of message a]) t l' →
    registration_trace message all l
      (Signed (payment_skey a) (signed_bytes message (address_obj a))
       :: Http (register_request message a) ans
       :: Print RegisteredOk
       :: WroteSnapshot temp_file (l ++ [entry_of message a]) :: t) l'.

(** The ledger on disk after the events [t], from the ledger [l]. *)
Fixpoint ledger_after (l : list registration) (t : list event)
    : list registration :=
  match t with
  | [] => l
  | WroteSnapshot file entries :: rest =>
      if decide (file = temp_file) then ledger_after entries rest
      else ledger_after l rest
  | _ :: rest => ledger_after l rest
  end.

(** The addresses the service accepted during the events [t]. *)
Fixpoint accepted (t : list event) : list string :=
  match t with
  | [] => []
  | Http (Register a _ _) ans :: rest =>
      if registration_succeeds ans then a :: accepted rest else accepted rest
  | _ :: rest => accepted rest
  end.

(** The addresses accepted during [t] that the ledger on disk does not
    hold after [t]: those a second run would register again. *)
Definition unrecorded (l : list registration) (t : list event) : list string :=
  filter (λ a, a ∉ reg_address <$> ledger_after l t) (accepted t).

(** The invariant of the loop once [registered_addrs] is bound: the
    events so far have the shape above, the set holds the addresses of
    the list, and the list is what the file holds. *)
Definition registration_invariant (message : string) (all : list addr_info)
    (l0 : list registration) (st : reg_state) (w : world) (t : list event)
    : Prop :=
  registration_trace message all l0 t (registrations st)
  ∧ registered_addrs st = Some (list_to_set (reg_address <$> registrations st))
  ∧ ledger_of w = registrations st.

(** ** What the consolidation loop may do *)

(** A request hands over the destination, a registered address that has
    a derived record, and the envelope signed with that record's key;
    a signature is made with the key of a derived record; every pause
    is half a second; the loop writes no file. *)
Definition consolidation_event_ok (destination : string)
    (derived : list addr_info) (registered : list string) (e : event) : Prop :=
  match e with
  | Http req _ =>
      ∃ a, a ∈ derived ∧ address a ∈ registered
           ∧ req = donate_request destination a
  | Signed key bytes =>
      ∃ a, a ∈ derived ∧ address a ∈ registered
           ∧ key = payment_skey a
           ∧ bytes = signed_bytes (consolidation_message destination)
                       (address_obj a)
  | Sleep d => d = 500
  | WroteSnapshot _ _ | Removed _ | WroteResults _ => False
  | _ => True
  end.

(** The result [consolidate_address] returns for an answer. *)
Definition consolidation_result (req : request) (ans : reply) : api_result :=
  match ans with
  | Unreachable detail =>
      ApiResult false None (Some (JStr detail)) None None None
  | Answered r =>
      if ok r then
        ApiResult true
          (Some (default (JObj [("message", JStr "Success (no JSON response)")])
                   (body_json r)))
          None None None None
      else
        ApiResult false None
          (Some (match body_json r with
                 | Some error_data => error_data
                 | None =>
                     JStr ("HTTP " +:+ pretty (status_code r) +:+ ": "
                           +:+ str_take 200 (text r))
                 end))
          (Some (status_code r)) None (Some (str_take 100 (url req)))
  end.

(** The result [register_address] returns for an answer. *)
Definition registration_result (ans : reply) : api_result :=
  match ans with
  | Unreachable detail =>
      ApiResult false None (Some (JStr detail)) None None None
  | Answered r =>
      if status_code r =? 429 then
        ApiResult false None
          (Some (JStr ("Rate limited (retry after: "
                       +:+ default "unknown" (retry_after r) +:+ ")")))
          None (Some true) None
      else if ok r then
        ApiResult true
          (Some (default (JObj [("message",
                                 JStr "Registered (no JSON response)")])
                   (body_json r)))
          None None None None
      else
        ApiResult false None
          (Some (match body_json r with
                 | Some error_data => error_data
                 | None =>
                     JStr ("HTTP " +:+ pretty (status_code r) +:+ ": "
                           +:+ str_take 100 (text r))
                 end))
          (Some (status_code r)) None None
  end.

(** The detail the loop takes from an answer that is not [ok]: the
    body, or a line with the status and the start of the text, passed
    through [error_message]. *)
Definition answer_detail (r : response) : json :=
  error_message
    (match body_json r with
     | Some error_data => error_data
     | None =>
         JStr ("HTTP " +:+ pretty (status_code r) +:+ ": "
               +:+ str_take 200 (text r))
     end).

(** The result the consolidation loop records for an address, given
    the answer to its request. *)
Definition consolidation_entry (original : string) (ans : reply)
    : list (string * json) :=
  match ans with
  | Unreachable detail =>
      [("address", JStr original); ("success", JBool false);
       ("error", JStr detail); ("status", JStr "unknown")]
  | Answered r =>
      if ok r then
        success_entry original
          (default (JObj [("message", JStr "Success (no JSON response)")])
             (body_json r))
      else
        match answer_detail r with
        | JStr _ | JArr _ =>
            [("address", JStr original); ("success", JBool false);
             ("error", answer_detail r); ("status", JInt (status_code r))]
        | _ =>
            [("address", JStr original); ("success", JBool false);
             ("error", JStr "object is not subscriptable")]
        end
  end.

(** A result of the loop is the record of an address without a derived
    record, or the record of an answer of the service. *)
Definition result_entry_ok (registered : list string)
    (entry : list (string * json)) : Prop :=
  ∃ original,
    original ∈ registered
    ∧ (entry = not_in_derived original
       ∨ ∃ ans, entry = consolidation_entry original ans).

Definition consolidation_invariant (destination : string)
    (derived : list addr_info) (done : list string) (st : cons_state)
    (t : list event) : Prop :=
  Forall (consolidation_event_ok destination derived done) t
  ∧ Forall (result_entry_ok done) (cons_results st).

(** ** Statements about every run *)

(** [keeps_files J m]: when the snapshot files and the results file
    are in [J] before [m] runs, they are in [J] after, however [m]
    ends. *)
Definition keeps_files {A} (J : gmap string snapshot → option summary → Prop)
    (m : M A) : Prop :=
  ∀ w, J (snapshots w) (results_file w) →
    J (snapshots (world_of (m w))) (results_file (world_of (m w))).

(** [returns Q m]: whenever [m] returns, the value is in [Q]. *)
Definition returns {A} (Q : A → Prop) (m : M A) : Prop :=
  ∀ w, match result_of (m w) with Ret a => Q a | Raise _ => True end.

(** [always Φ m]: every event of every run of [m] is in [Φ]. *)
Definition always {A} (Φ : event → Prop) (m : M A) : Prop :=
  ∀ w, Forall Φ (events_of (m w)).

(** A result of the consolidation loop that says [success: True]. *)
Definition succeeded (entry : list (string * json)) : bool :=
  match dict_get "success" entry with
  | Some (JBool true) => true
  | _ => false
  end.

(** An answer to a consolidation request that the helper reports as
    a success, and the number of them among the events [t]. *)
Definition is_accepted_consolidation (e : event) : bool :=
  match e with
  | Http (DonateTo _ _ _) ans => consolidation_succeeds ans
  | _ => false
  end.

Definition consolidations_accepted (t : list event) : Z :=
  len (filter (λ e, is_accepted_consolidation e = true) t).

(** The request the consolidation loop makes for a registered address:
    none when the address has no derived record. *)
Definition consolidation_request_for (destination : string)
    (derived : list addr_info) (original : string) : option request :=
  a ← address_map_of derived !! original;
  Some (DonateTo destination original
          (cip30 (consolidation_message destination) (payment_skey a)
             (address_obj a))).

(** What [main] of the consolidation script may do: print, ask, sign,
    wait three seconds or half a second, call [donate_to] with a
    destination that starts with "addr1", write the results file. *)
Definition consolidation_footprint (e : event) : Prop :=
  match e with
  | Http (DonateTo destination _ _) _ => startswith "addr1" destination = true
  | Http _ _ => False
  | WroteSnapshot _ _ | Removed _ => False
  | Sleep d => d = 3000 ∨ d = 500
  | _ => True
  end.

(** What [main] of the registration script may do: print, ask, sign,
    fetch the terms, call [register], wait two seconds, write the
    three snapshot files and remove the partial one. *)
Definition registration_footprint (e : event) : Prop :=
  match e with
  | Http (DonateTo _ _ _) _ => False
  | Http _ _ => True
  | WroteSnapshot file _ => file ∈ [temp_file; old_file; new_file]
  | Removed file => file = temp_file
  | WroteResults _ => False
  | Sleep d => d = 2000
  | _ => True
  end.

(** What [main] of the registration script has done when it reaches
    its [try] statement, and the count it has read: 100 when nothing
    was typed. *)
Definition register_prelude (typed_ready typed_seed typed_count : string)
    : list event :=
  [Print Banner; Asked AskReady typed_ready; Print AskSeed;
   Asked AskSeedPhrase typed_seed;
   Print (GotSeed (len (split (strip typed_seed))));
   Asked AskCount typed_count].

Definition chosen_count (typed_count : string) : option Z :=
  if decide (strip typed_count = "") then Some 100
  else parse_int (strip typed_count).

(** The handler and the [finally] block around the [try] block [m] of
    either [main]. *)
Definition guarded (m : M ()) : M () :=
  finally (try_except m (λ e, say (FatalError (exn_str e)))) clear_seed.

(** The world in which [main] enters its [try] statement: the lines
    typed so far are consumed and [mnemonic] is bound. *)
Definition at_try (w : world) (more_typed : list string) (mnemonic : string)
    : world :=
  World (snapshots w) (results_file w) more_typed (service w) (served w)
    (Some mnemonic).

(** The world once the [finally] block has run. *)
Definition cleared (w : world) : world :=
  World (snapshots w) (results_file w) (keyboard w) (service w) (served w)
    None.

(** The digits of [bytes.hex()]. *)
Definition hex_digits : list ascii :=
  list_ascii_of_string "0123456789abcdef".

(** ** What a run exchanged with the service, what it paused for *)



(** The line that says an address is passed over, in either loop. *)
Definition is_passed_over (e : event) : bool :=
  match e with
  | Print AlreadyRegistered | Print NotInDerived => true
  | _ => false
  end.

Definition is_sleep (e : event) : bool :=
  match e with Sleep _ => true | _ => false end.

(** An event of an attempt: neither the line of an address that is
    passed over, nor a pause. *)
Definition quiet (e : event) : Prop :=
  is_passed_over e = false ∧ is_sleep e = false.

(** The events of a loop that works through its list from position
    [i], with pauses of [d] milliseconds: for each address its line
    [ann], then either the line [skip] that says it is passed over and
    nothing more, or the events of an attempt followed by the pause of
    the position. *)
Inductive paced (d total : Z) (skip : line)
    : Z → list line → list event → Prop :=
| paced_done i :
    paced d total skip i [] []
| paced_passed i ann anns t :
    paced d total skip (i + 1) anns t →
    paced d total skip i (ann :: anns) (Print ann :: Print skip :: t)
| paced_tried i ann anns body t :
    Forall quiet body →
    paced d total skip (i + 1) anns t →
    paced d total skip i (ann :: anns)
      (Print ann :: body ++ pause d i total ++ t).

(** The lines that announce the addresses of the two loops. *)
Fixpoint registering_lines (total i : Z) (addresses : list addr_info)
    : list line :=
  match addresses with
  | [] => []
  | a :: rest =>
      RegisteringOne (i + 1) total (str_take 30 (address a))
      :: registering_lines total (i + 1) rest
  end.

Fixpoint consolidating_lines (total i : Z) (registered : list string)
    : list line :=
  match registered with
  | [] => []
  | original :: rest =>
      ConsolidatingOne (i + 1) total (str_take 40 original)
      :: consolidating_lines total (i + 1) rest
  end.

(** The number of addresses passed over among the events [t]. *)
Definition passed_over (t : list event) : nat :=
  length (filter (λ e, is_passed_over e = true) t).

(** In the events [t], what follows the line of an address that is
    passed over is a line of output, unless [t] ends there. *)
Definition line_follows (t : list event) : Prop :=
  ∀ k e, t !! k = Some e → is_passed_over e = true →
    S k = length t ∨ ∃ l, t !! S k = Some (Print l).

End Vocabulary.
(** * A small instance of the interface, to run the scripts on *)

Module Toy.

(** A wallet is the text of its path after the mnemonic; a key is the
    text of its wallet; the address of index [i] under mnemonic [m] is
    ["addr1"] followed by the last digit of [i] and the first letter of
    [m]. A mnemonic that starts with "invalid" is refused. *)
Definition last_digit (path : string) : string :=
  match str_tail 1 path with
  | String c EmptyString =>
      match digit_value c with Some _ => String c "" | None => "" end
  | _ => ""
  end.

#[export] Instance toy : PyCardano := {|
  HDWallet := string;
  SigningKey := string;
  VerificationKey := string;
  KeyHash := string;
  Address := string;
  from_mnemonic m := if startswith "invalid" m then None else Some m;
  derive_from_path h p := last_digit p +:+ h;
  xprivate_key h := encode_utf8 h;
  skey_from_primitive role b := string_of_list_byte b;
  vkey_from_signing_key sk := str_take 2 sk;
  vkey_hash vk := vk;
  vkey_to_primitive vk := encode_utf8 vk;
  make_address payment_part staking_part network := payment_part;
  address_str a := "addr1" +:+ a;
  address_to_primitive a := encode_utf8 a;
  sign sk data := encode_utf8 (str_take 1 sk);
  repr_json v := "<value>"
|}.

(** Answers of the service. *)
Definition accepted : reply :=
  Answered (Response 200 None (Some (JObj [("status", JStr "ok")])) "").

Definition limited_response : response :=
  Response 429 (Some "120") None "Too Many Requests".

Definition rate_limited_reply : reply := Answered limited_response.

Definition server_error : reply :=
  Answered (Response 500 None None "Internal Server Error").

(** A world with the given snapshot files and keyboard input, a
    service that answers the [k]-th request with [answers !! k] and
    accepts every later one. *)
Definition world_with (files : list (string * snapshot))
    (typed : list string) (answers : list reply) : world :=
  World (list_to_map files) None typed
    (λ k _, default accepted (answers !! k)) 0 None.

(** The records of the mnemonic "abc": addresses "addr10a", "addr11a",
    and so on. *)
Definition records (count : Z) : list addr_info :=
  seed_record "abc" <$> range count.

(** A registration file with one entry, for the address [a]. *)
Definition registered_file (a : string) : list (string * snapshot) :=
  [(old_file, Entries [Registration a "" ""])].

Definition twelve_words : string := "a b c d e f g h i j k l".

Definition is_seed_cleared (e : event) : bool :=
  match e with Print SeedCleared => true | _ => false end.

(** The first record of "abc", and a world whose service answers the
    first request with 429 and a hint of 120 seconds. *)
Definition first_record : addr_info := seed_record "abc" 0.

Definition limited_world : world := world_with [] [] [rate_limited_reply].

Definition two_targets : list string := ["addr10a"; "addr11a"].

(** The answer with the terms, and the same under a status of failure. *)
Definition terms_response (status : Z) : response :=
  Response status None (Some (JObj [("message", JStr "terms")])) "".

Definition terms_reply : reply := Answered (terms_response 200).

(** A mnemonic of twelve words that the toy wallet refuses. *)
Definition refused_words : string := "invalid b c d e f g h i j k l".

(** The requests, pauses and writes of a run, in order, by name. *)
Definition outline (t : list event) : list string :=
  omap (λ e, match e with
             | Http (Register a _ _) _ => Some ("request " +:+ a)
             | Http (DonateTo _ original _) _ => Some ("request " +:+ original)
             | Http GetTerms _ => Some "request terms"
             | Sleep d => Some ("sleep " +:+ pretty d)
             | WroteSnapshot file _ => Some ("write " +:+ file)
             | WroteResults _ => Some "write consolidation-results.json"
             | Removed file => Some ("remove " +:+ file)
             | _ => None
             end) t.

End Toy.

(** * Proofs *)

Section Proofs.
Context {lib : PyCardano}.

(** ** Running computations *)

Lemma run_bind {A B} (m : M A) (f : A → M B) w a w1 t1 :
  m w = (Ret a, w1, t1) →
  (m ≫= f) w = (result_of (f a w1), world_of (f a w1), t1 ++ events_of (f a w1)).
Proof.
  intros Hm. unfold mbind, M_bind, bind, result_of, world_of, events_of.
  rewrite Hm. by destruct (f a w1) as [[o w2] t2].
Qed.

Lemma run_bind_raise {A B} (m : M A) (f : A → M B) w e w1 t1 :
  m w = (Raise e, w1, t1) → (m ≫= f) w = (Raise e, w1, t1).
Proof. intros Hm. unfold mbind, M_bind, bind. by rewrite Hm. Qed.

(** The same, with the run of the continuation named: the form that
    long sequences are stepped through with. *)
Lemma run_bind_eq {A B} (m : M A) (f : A → M B) w a w1 t1 o w2 t2 :
  m w = (Ret a, w1, t1) →
  f a w1 = (o, w2, t2) →
  (m ≫= f) w = (o, w2, t1 ++ t2).
Proof.
  intros Hm Hf. unfold mbind, M_bind, bind. by rewrite Hm, Hf.
Qed.

(** And with the continuation left in place, once. *)
Lemma run_bind_match {A B} (m : M A) (f : A → M B) w a w1 t1 :
  m w = (Ret a, w1, t1) →
  (m ≫= f) w = match f a w1 with (o, w2, t2) => (o, w2, t1 ++ t2) end.
Proof. intros Hm. unfold mbind, M_bind, bind. by rewrite Hm. Qed.

Lemma triple_eta {A} (r : outcome A * world * list event) :
  (result_of r, world_of r, events_of r) = r.
Proof. by destruct r as [[o w] t]. Qed.

(** ** The signature envelope *)

Lemma sign_cip30_message_run message key addr w :
  sign_cip30_message message key addr w
  = (Ret (cip30 message key addr), w, [Signed key (signed_bytes message addr)]).
Proof. reflexivity. Qed.

Lemma hex_app a b : hex (a ++ b) = hex a +:+ hex b.
Proof. induction a as [|x a IH]; simpl; [done|]. by rewrite IH. Qed.

Lemma hex_length b : String.length (hex b) = (2 * length b)%nat.
Proof. induction b as [|x b IH]; simpl; [done|]. rewrite IH. lia. Qed.

(** The protected header, byte for byte: a map of three pairs,
    [1 -> -8], [4 -> address], ["address" -> address]. *)
Lemma protected_header_bytes addressBytes :
  cbor2_dumps (protected_header_map addressBytes)
  = [xa3; x01; x27; x04] ++ bstr addressBytes
    ++ [x67; x61; x64; x64; x72; x65; x73; x73] ++ bstr addressBytes.
Proof.
  unfold protected_header_map, bstr. simpl. unfold encode_bytes.
  rewrite app_nil_r, <- !app_assoc. reflexivity.
Qed.

(** The bytes that are signed: an array of four items, the text
    "Signature1", the protected header as a byte string, the empty
    byte string, the payload as a byte string. *)
Lemma signing_structure_bytes protected payload :
  cbor2_dumps (signing_structure protected payload)
  = [x84; x6a; x53; x69; x67; x6e; x61; x74; x75; x72; x65; x31]
    ++ bstr protected ++ [x40] ++ bstr payload.
Proof.
  unfold signing_structure, bstr. simpl. unfold encode_bytes.
  rewrite app_nil_r, <- !app_assoc. reflexivity.
Qed.

(** The envelope: an array of four items, with the unprotected header
    [{"hashed": false}] in second place. *)
Lemma envelope_bytes protected payload signature :
  cbor2_dumps
    (envelope_array
       (Envelope protected (PDict [(PStr "hashed", PBool false)]) payload
          signature))
  = [x84] ++ bstr protected
    ++ [xa1; x66; x68; x61; x73; x68; x65; x64; xf4]
    ++ bstr payload ++ bstr signature.
Proof.
  unfold envelope_array, bstr. simpl. unfold encode_bytes.
  rewrite app_nil_r, <- !app_assoc. reflexivity.
Qed.

(** C1. For every message, signing key and address,
    [sign_cip30_message] returns the hex encoding of the CBOR
    serialization of [[protectedHeaderBytes, unprotectedHeaders,
    payloadBytes, signatureBytes]], where [protectedHeaderBytes] is the
    serialization of [{1: -8, 4: addressBytes, "address":
    addressBytes}], [unprotectedHeaders] is [{"hashed": false}],
    [payloadBytes] is the UTF-8 encoding of the message and
    [signatureBytes] is the signature, by the given key, of the
    serialization of [["Signature1", protectedHeaderBytes, empty,
    payloadBytes]]; the key signs once, exactly those bytes, and
    nothing else happens. *)
Theorem sign_cip30_message_envelope (message : string) (key : SigningKey)
    (address : Address) (w : world) :
  let protectedHeaderBytes :=
    cbor2_dumps (protected_header_map (address_to_primitive address)) in
  let unprotectedHeaders := PDict [(PStr "hashed", PBool false)] in
  let payloadBytes := encode_utf8 message in
  let toBeSigned :=
    cbor2_dumps (signing_structure protectedHeaderBytes payloadBytes) in
  let signatureBytes := sign key toBeSigned in
  sign_cip30_message message key address w
  = (Ret (hex (cbor2_dumps
                 (envelope_array
                    (Envelope protectedHeaderBytes unprotectedHeaders
                       payloadBytes signatureBytes)))),
     w,
     [Signed key toBeSigned]).
Proof. intros. reflexivity. Qed.

(** ** Derivation *)

(** The loop returns the records of its indices, in order, after the
    ones it started with; it changes nothing in the world. *)
Lemma derive_loop_run account stake_vkey count indices acc w :
  ∃ t,
    derive_loop account stake_vkey count indices acc w
    = (Ret (acc ++ (derive_record account stake_vkey <$> indices)), w, t)
    ∧ Forall (λ e, is_derivation_line e = true) t.
Proof.
  revert acc. induction indices as [|i rest IH]; intros acc; simpl.
  - exists []. by rewrite app_nil_r.
  - destruct (IH (acc ++ [derive_record account stake_vkey i])) as (t & Ht & Hp).
    rewrite <- app_assoc in Ht. simpl in Ht.
    destruct ((i + 1) `mod` 10 =? 0).
    + exists (Print (DerivedSoFar (i + 1) count) :: t). split.
      * erewrite run_bind by reflexivity. rewrite Ht. reflexivity.
      * by constructor.
    + exists t. split; [|done].
      erewrite run_bind by reflexivity. rewrite Ht. reflexivity.
Qed.

(** With a mnemonic the library accepts, derivation returns the record
    of each index below [count], whatever the world. *)
Lemma derive_addresses_run mnemonic hdwallet count w :
  from_mnemonic mnemonic = Some hdwallet →
  ∃ t,
    derive_addresses_from_mnemonic mnemonic count w
    = (Ret (seed_record hdwallet <$> range count), w, t)
    ∧ Forall (λ e, is_derivation_line e = true) t.
Proof.
  intros Hm. unfold derive_addresses_from_mnemonic. rewrite Hm.
  set (account := derive_from_path hdwallet "m/1852'/1815'/0'").
  set (stake_vkey :=
    vkey_from_signing_key
      (skey_from_primitive Stake
         (take 32 (xprivate_key (derive_from_path account "m/2/0"))))).
  destruct (derive_loop_run account stake_vkey count (range count) [] w)
    as (t & Ht & Hp).
  exists (Print (Deriving count) :: t ++ [Print (DerivedAll count)]). split.
  - erewrite run_bind by reflexivity.
    erewrite run_bind by reflexivity.
    erewrite run_bind by exact Ht.
    reflexivity.
  - constructor; [done|]. apply Forall_app. split; [done|].
    by constructor.
Qed.

Lemma derive_addresses_invalid mnemonic count w :
  from_mnemonic mnemonic = None →
  derive_addresses_from_mnemonic mnemonic count w
  = (Raise (Exn ValueError "Invalid mnemonic words."), w,
     [Print (Deriving count)]).
Proof.
  intros Hm. unfold derive_addresses_from_mnemonic. rewrite Hm. reflexivity.
Qed.

Lemma range_lookup count i :
  0 ≤ i < count → range count !! Z.to_nat i = Some i.
Proof.
  intros Hi. unfold range. rewrite list_lookup_fmap.
  rewrite lookup_seq_lt by lia. simpl. f_equal. lia.
Qed.

Lemma range_take m n :
  m ≤ n → take (Z.to_nat m) (range n) = range m.
Proof.
  intros Hmn. unfold range. rewrite <- fmap_take. f_equal.
  rewrite take_seq. f_equal. lia.
Qed.

(** C6. For every seed the library accepts and all positive [m ≤ n],
    the first [m] records of [derive(seed, n)] are [derive(seed, m)]:
    both calls return, and the record at each index is a function of
    the seed and the index alone. *)
Theorem derive_prefix_stable (mnemonic : string) (hdwallet : HDWallet)
    (m n : Z) (w w' : world) :
  from_mnemonic mnemonic = Some hdwallet →
  0 < m → m ≤ n →
  ∃ records_n records_m,
    result_of (derive_addresses_from_mnemonic mnemonic n w) = Ret records_n
    ∧ result_of (derive_addresses_from_mnemonic mnemonic m w') = Ret records_m
    ∧ take (Z.to_nat m) records_n = records_m
    ∧ length records_n = Z.to_nat n
    ∧ ∀ i, 0 ≤ i < n →
        records_n !! Z.to_nat i = Some (seed_record hdwallet i).
Proof.
  intros Hm Hpos Hmn.
  destruct (derive_addresses_run mnemonic hdwallet n w Hm) as (tn & Hn & _).
  destruct (derive_addresses_run mnemonic hdwallet m w' Hm) as (tm & Hm' & _).
  exists (seed_record hdwallet <$> range n), (seed_record hdwallet <$> range m).
  rewrite Hn, Hm'. repeat split.
  - rewrite <- fmap_take. by rewrite range_take.
  - unfold range. rewrite !length_fmap. by rewrite length_seq.
  - intros i Hi. rewrite list_lookup_fmap. by rewrite range_lookup.
Qed.

(** ** The API helpers *)

(** [register_address] never raises: it issues one request and
    classifies the answer. *)
Lemma register_address_exact address signature pubkey w :
  let req := Register address signature pubkey in
  let ans := service w (served w) req in
  register_address address signature pubkey w
  = (Ret (registration_result ans), bump w, [Http req ans]).
Proof.
  intros req ans. unfold register_address, try_except.
  unfold mbind, M_bind, bind, requests_call. fold req. fold ans. fold (bump w).
  unfold registration_result.
  destruct ans as [r|detail] eqn:Hans; [|reflexivity].
  destruct (status_code r =? 429); [reflexivity|].
  destruct (ok r); destruct (body_json r); reflexivity.
Qed.

Lemma registration_result_success ans :
  success (registration_result ans) = registration_succeeds ans.
Proof.
  unfold registration_result, registration_succeeds.
  destruct ans as [r|detail]; [|done].
  destruct (status_code r =? 429); [done|]. by destruct (ok r).
Qed.

Lemma register_address_run address signature pubkey w :
  let req := Register address signature pubkey in
  let ans := service w (served w) req in
  ∃ res,
    register_address address signature pubkey w
    = (Ret res, bump w, [Http req ans])
    ∧ success res = registration_succeeds ans.
Proof.
  intros req ans. exists (registration_result ans). split.
  - apply register_address_exact.
  - apply registration_result_success.
Qed.

(** A 429 answer becomes a failure that carries the hint of the
    Retry-After header in its text and the [rate_limited] marker. *)
Lemma registration_result_rate_limited r :
  status_code r = 429 →
  registration_result (Answered r)
  = ApiResult false None
      (Some (JStr ("Rate limited (retry after: "
                   +:+ default "unknown" (retry_after r) +:+ ")")))
      None (Some true) None.
Proof. intros H. unfold registration_result. by rewrite H. Qed.

(** [consolidate_address] never raises either; a 429 answer is one
    more status that is not [ok]. *)
Lemma consolidate_address_exact destination original signature w :
  let req := DonateTo destination original signature in
  let ans := service w (served w) req in
  consolidate_address destination original signature w
  = (Ret (consolidation_result req ans), bump w, [Http req ans]).
Proof.
  intros req ans. unfold consolidate_address, try_except.
  unfold mbind, M_bind, bind, requests_call. fold req. fold ans. fold (bump w).
  unfold consolidation_result.
  destruct ans as [r|detail] eqn:Hans; [|reflexivity].
  destruct (ok r); destruct (body_json r); reflexivity.
Qed.

Lemma consolidation_result_rate_limited req r :
  status_code r = 429 →
  ∃ detail,
    consolidation_result req (Answered r)
    = ApiResult false None (Some detail) (Some 429) None
        (Some (str_take 100 (url req))).
Proof.
  intros H. unfold consolidation_result, ok. rewrite H. simpl. eauto.
Qed.

Lemma register_attempt_run message a registered st w :
  let req := register_request message a in
  let ans := service w (served w) req in
  let signing := Signed (payment_skey a) (signed_bytes message (address_obj a)) in
  if registration_succeeds ans then
    let ledger := registrations st ++ [entry_of message a] in
    register_attempt message a registered st w
    = (Ret (RegState ledger (Some ({[address a]} ∪ registered))
              (success_count st + 1)),
       set_snapshots <[temp_file := Entries ledger]> (bump w),
       [signing; Http req ans; Print RegisteredOk;
        WroteSnapshot temp_file ledger])
  else
    ∃ l, register_attempt message a registered st w
         = (Ret st, bump w, [signing; Http req ans; Print l]).
Proof.
  cbv zeta. unfold register_attempt, try_except.
  erewrite run_bind by apply sign_cip30_message_run.
  destruct (register_address_run (address a)
              (cip30 message (payment_skey a) (address_obj a))
              (pubkey_of a) w) as (res & Hrun & Hsucc).
  unfold register_request, entry_of, pubkey_of in *.
  erewrite run_bind by exact Hrun.
  rewrite Hsucc. destruct (registration_succeeds _).
  - reflexivity.
  - unfold result_of, world_of, events_of.
    destruct (error_message (default (JStr "Unknown error") (error res)));
      simpl; eexists; reflexivity.
Qed.

(** ** The registration loop, one address at a time *)


(** What one iteration does, case by case: the name is not bound; the
    address is in the ledger; the registration succeeds; it fails. *)
Lemma register_step_run message total i a st w :
  let req := register_request message a in
  let ans := service w (served w) req in
  let announce := Print (RegisteringOne (i + 1) total (str_take 30 (address a))) in
  let signing := Signed (payment_skey a) (signed_bytes message (address_obj a)) in
  match registered_addrs st with
  | None =>
      register_step message total i a st w
      = (Raise unbound_registered_addrs, w, [announce])
  | Some registered =>
      if decide (address a ∈ registered) then
        register_step message total i a st w
        = (Ret st, w, [announce; Print AlreadyRegistered])
      else if registration_succeeds ans then
        let ledger := registrations st ++ [entry_of message a] in
        register_step message total i a st w
        = (Ret (RegState ledger (Some ({[address a]} ∪ registered))
                  (success_count st + 1)),
           set_snapshots <[temp_file := Entries ledger]> (bump w),
           [announce; signing; Http req ans; Print RegisteredOk;
            WroteSnapshot temp_file ledger] ++ pause 2000 i total)
      else
        ∃ l, register_step message total i a st w
             = (Ret st, bump w,
                [announce; signing; Http req ans; Print l]
                ++ pause 2000 i total)
  end.
Proof.
  cbv zeta. unfold register_step.
  erewrite run_bind by reflexivity.
  destruct (registered_addrs st) as [registered|]; [|reflexivity].
  erewrite run_bind by reflexivity.
  destruct (decide (address a ∈ registered)); [reflexivity|].
  pose proof (register_attempt_run message a registered st w) as Hrun.
  cbv zeta in Hrun. unfold pause.
  destruct (registration_succeeds _).
  - erewrite run_bind by exact Hrun.
    destruct (i <? total - 1); reflexivity.
  - destruct Hrun as (l & Hrun). exists l.
    erewrite run_bind by exact Hrun.
    destruct (i <? total - 1); reflexivity.
Qed.

(** An invariant of the locals, the world and the events so far is
    carried through the loop; [R] collects what holds if an iteration
    raises. *)
Lemma register_loop_rule
    (I : reg_state → world → list event → Prop)
    (R : exn → world → list event → Prop)
    (message : string) (total : Z) (all : list addr_info) :
  (∀ i a st w t, a ∈ all → I st w t →
     match register_step message total i a st w with
     | (Ret st', w', t') => I st' w' (t ++ t')
     | (Raise e, w', t') => R e w' (t ++ t')
     end) →
  ∀ addresses i st w t, addresses ⊆ all → I st w t →
    match register_loop message total i addresses st w with
    | (Ret st', w', t') => I st' w' (t ++ t')
    | (Raise e, w', t') => R e w' (t ++ t')
    end.
Proof.
  intros Hstep addresses.
  induction addresses as [|a rest IH]; intros i st w t Hsub HI; simpl.
  - by rewrite app_nil_r.
  - assert (a ∈ all) as Ha by (apply Hsub; left).
    assert (rest ⊆ all) as Hrest by (intros x Hx; apply Hsub; by right).
    specialize (Hstep i a st w t Ha HI).
    destruct (register_step message total i a st w) as [[[st1|e] w1] t1] eqn:Hs.
    + erewrite run_bind by exact Hs.
      specialize (IH (i + 1) st1 w1 (t ++ t1) Hrest Hstep).
      destruct (register_loop message total (i + 1) rest st1 w1)
        as [[[st2|e] w2] t2]; simpl; by rewrite app_assoc.
    + erewrite run_bind_raise by exact Hs. done.
Qed.

(** Loading the ledger: no file, a snapshot, or text that does not
    parse. *)
Lemma load_partial_run w :
  load_partial w
  = match snapshots w !! temp_file with
    | None => (Ret (RegState [] (Some ∅) 0), w, [])
    | Some (Entries loaded) =>
        (Ret (RegState loaded (Some (list_to_set (reg_address <$> loaded)))
                (len loaded)),
         w, [Print (FoundPrevious (len loaded))])
    | Some Malformed => (Ret (RegState [] None 0), w, [])
    end.
Proof.
  unfold load_partial, mbind, M_bind, bind, path_exists, try_except, json_load.
  destruct (snapshots w !! temp_file) as [[|loaded]|] eqn:Hf; simpl.
  all: try rewrite Hf; reflexivity.
Qed.

(** The whole function: the header line, the load, the loop, the
    tally. *)
Lemma register_all_addresses_run addresses message w :
  ∃ st0 t0,
    load_partial w = (Ret st0, w, t0)
    ∧ register_all_addresses addresses message w
      = match register_loop message (len addresses) 0 addresses st0 w with
        | (Ret st, w', t) =>
            (Ret (registrations st), w',
             Print (RegisteringAll (len addresses)) :: t0 ++ t
             ++ [Print (RegisteredSummary (success_count st) (len addresses))])
        | (Raise e, w', t) =>
            (Raise e, w', Print (RegisteringAll (len addresses)) :: t0 ++ t)
        end.
Proof.
  assert (∃ st0 t0, load_partial w = (Ret st0, w, t0)) as (st0 & t0 & Hload).
  { rewrite load_partial_run.
    destruct (snapshots w !! temp_file) as [[|loaded]|]; eauto. }
  exists st0, t0. split; [done|].
  unfold register_all_addresses.
  erewrite run_bind by reflexivity.
  erewrite run_bind by exact Hload.
  destruct (register_loop message (len addresses) 0 addresses st0 w)
    as [[[st|e] w'] t] eqn:Hloop.
  - erewrite run_bind by exact Hloop. reflexivity.
  - erewrite run_bind_raise by exact Hloop. reflexivity.
Qed.

(** C10. When [registrations-partial.json] exists and does not parse,
    the registration batch does not go on with an empty ledger: at the
    first address the test [address in registered_addrs] reads a name
    that was never bound, and the batch ends in that error after two
    lines of output, with no signature made, no request sent and the
    world as it was. *)
Theorem malformed_ledger_aborts (a : addr_info) (rest : list addr_info)
    (message : string) (w : world) :
  snapshots w !! temp_file = Some Malformed →
  register_all_addresses (a :: rest) message w
  = (Raise unbound_registered_addrs, w,
     [Print (RegisteringAll (len (a :: rest)));
      Print (RegisteringOne 1 (len (a :: rest)) (str_take 30 (address a)))]).
Proof.
  intros Hfile.
  destruct (register_all_addresses_run (a :: rest) message w)
    as (st0 & t0 & Hload & ->).
  rewrite load_partial_run, Hfile in Hload. injection Hload as <- <-.
  cbn [register_loop].
  pose proof (register_step_run message (len (a :: rest)) 0 a
                (RegState [] None 0) w) as Hstep.
  cbv zeta in Hstep. cbn [registered_addrs] in Hstep.
  erewrite run_bind_raise by exact Hstep. reflexivity.
Qed.

(** ** The consolidation loop, one address at a time *)

Lemma consolidate_attempt_run destination original a st w :
  let message := consolidation_message destination in
  let req :=
    DonateTo destination original
      (cip30 message (payment_skey a) (address_obj a)) in
  let ans := service w (served w) req in
  let signing := Signed (payment_skey a) (signed_bytes message (address_obj a)) in
  ∃ said,
    consolidate_attempt destination message original a st w
    = (Ret (ConsState
              (cons_success_count st
               + (if consolidation_succeeds ans then 1 else 0))
              (cons_results st ++ [consolidation_entry original ans])),
       bump w, signing :: Http req ans :: said)
    ∧ Forall (λ e, ∃ l, e = Print l) said.
Proof.
  cbv zeta. unfold consolidate_attempt, try_except.
  erewrite run_bind by apply sign_cip30_message_run.
  erewrite run_bind by apply consolidate_address_exact.
  destruct (service w (served w) _) as [r|detail] eqn:Hans;
    unfold consolidation_result, consolidation_entry, consolidation_succeeds,
      answer_detail.
  - destruct (ok r) eqn:Hok.
    + exists [Print ConsolidatedOk]. split; [reflexivity|].
      repeat constructor; eauto.
    + rewrite Z.add_0_r. cbn [success error status result_url default from_option].
      destruct (error_message _); unfold result_of, world_of, events_of; simpl;
        (eexists; split; [reflexivity|]); repeat constructor; eauto.
  - rewrite Z.add_0_r. simpl. unfold result_of, world_of, events_of. simpl.
    eexists; split; [reflexivity|]; repeat constructor; eauto.
Qed.

Lemma consolidate_step_run destination address_map total i original st w :
  let message := consolidation_message destination in
  let announce :=
    Print (ConsolidatingOne (i + 1) total (str_take 40 original)) in
  match address_map !! original with
  | None =>
      consolidate_step destination message address_map total i original st w
      = (Ret (ConsState (cons_success_count st)
                (cons_results st ++ [not_in_derived original])),
         w, [announce; Print NotInDerived])
  | Some a =>
      let req :=
        DonateTo destination original
          (cip30 message (payment_skey a) (address_obj a)) in
      let ans := service w (served w) req in
      let signing :=
        Signed (payment_skey a) (signed_bytes message (address_obj a)) in
      ∃ said,
        consolidate_step destination message address_map total i original
          st w
        = (Ret (ConsState
                  (cons_success_count st
                   + (if consolidation_succeeds ans then 1 else 0))
                  (cons_results st ++ [consolidation_entry original ans])),
           bump w,
           announce :: signing :: Http req ans :: said ++ pause 500 i total)
        ∧ Forall (λ e, ∃ l, e = Print l) said
  end.
Proof.
  cbv zeta. unfold consolidate_step.
  erewrite run_bind by reflexivity.
  destruct (address_map !! original) as [a|]; [|reflexivity].
  destruct (consolidate_attempt_run destination original a st w)
    as (said & Hrun & Hsaid).
  exists said. split; [|done].
  erewrite run_bind by exact Hrun.
  unfold pause.
  destruct (i <? total - 1); unfold result_of, world_of, events_of; simpl;
    [reflexivity|by rewrite app_nil_r].
Qed.

(** The consolidation loop never raises. An invariant of the addresses
    done so far, the locals, the world and the events so far is carried
    through it. *)
Lemma consolidate_loop_rule
    (I : list string → Z → cons_state → world → list event → Prop)
    (destination message : string) (address_map : gmap string addr_info)
    (total : Z) :
  (∀ done i original st w t, I done i st w t →
     match consolidate_step destination message address_map total i
             original st w with
     | (Ret st', w', t') => I (done ++ [original]) (i + 1) st' w' (t ++ t')
     | (Raise e, w', t') => False
     end) →
  ∀ registered done i st w t, I done i st w t →
    match consolidate_loop destination message address_map total i
            registered st w with
    | (Ret st', w', t') => I (done ++ registered) (i + len registered) st' w' (t ++ t')
    | (Raise e, w', t') => False
    end.
Proof.
  intros Hstep registered.
  induction registered as [|a rest IH]; intros done i st w t HI; simpl.
  - rewrite !app_nil_r. unfold len. simpl. by rewrite Z.add_0_r.
  - specialize (Hstep done i a st w t HI).
    destruct (consolidate_step destination message address_map total i a st w)
      as [[[st1|e] w1] t1] eqn:Hs; [|done].
    erewrite run_bind by exact Hs.
    specialize (IH (done ++ [a]) (i + 1) st1 w1 (t ++ t1) Hstep).
    destruct (consolidate_loop destination message address_map total (i + 1)
                rest st1 w1) as [[[st2|e] w2] t2]; simpl; [|done].
    rewrite <- !app_assoc in IH. simpl in IH.
    unfold len in *.
    replace (i + Z.of_nat (length (a :: rest)))
      with (i + 1 + Z.of_nat (length rest)) by (simpl; lia).
    done.
Qed.

(** The whole function: two header lines, the loop, the tally, the
    results file. *)
Lemma consolidate_all_run destination derived registered w :
  ∃ st w1 t,
    consolidate_loop destination (consolidation_message destination)
      (address_map_of derived) (len registered) 0 registered (ConsState 0 []) w
    = (Ret st, w1, t)
    ∧ consolidate_all destination derived registered w
      = (Ret (cons_success_count st),
         World (snapshots w1)
           (Some (Summary destination (len registered) (cons_success_count st)
                    (len registered - cons_success_count st) (cons_results st)))
           (keyboard w1) (service w1) (served w1) (mnemonic_var w1),
         [Print (ConsolidatingAll (len registered) (str_take 50 destination));
          Print (MessageToSign (consolidation_message destination))]
         ++ t
         ++ [Print (ConsolidatedSummary (cons_success_count st) (len registered));
             WroteResults
               (Summary destination (len registered) (cons_success_count st)
                  (len registered - cons_success_count st) (cons_results st));
             Print SavedResults]).
Proof.
  pose proof (consolidate_loop_rule (λ _ _ _ _ _, True) destination
                (consolidation_message destination) (address_map_of derived)
                (len registered)) as Hrule.
  specialize (Hrule
    ltac:(intros done i original st w0 t _;
          pose proof (consolidate_step_run destination (address_map_of derived)
                        (len registered) i original st w0) as H;
          cbv zeta in H;
          destruct (address_map_of derived !! original);
            [destruct H as (? & -> & _)|rewrite H]; exact I)
    registered [] 0 (ConsState 0 []) w [] I).
  destruct (consolidate_loop _ _ _ _ _ _ _ _) as [[[st|e] w1] t] eqn:Hloop;
    [|done].
  exists st, w1, t. split; [done|].
  unfold consolidate_all.
  erewrite run_bind by reflexivity.
  erewrite run_bind by reflexivity.
  unfold consolidation_message in Hloop.
  erewrite run_bind by exact Hloop.
  reflexivity.
Qed.

(** The lookup map knows exactly the addresses of the derived
    records. *)
Lemma address_map_of_None derived original :
  address_map_of derived !! original = None ↔ original ∉ address <$> derived.
Proof.
  unfold address_map_of.
  assert (∀ m : gmap string addr_info,
            foldl (λ m a, <[address a := a]> m) m derived !! original = None
            ↔ m !! original = None ∧ original ∉ address <$> derived) as H.
  { induction derived as [|a rest IH]; intros m; simpl.
    - split; [intros ?; split; [done|by apply not_elem_of_nil]|by intros [? _]].
    - rewrite IH, not_elem_of_cons. rewrite lookup_insert_None.
      intuition congruence. }
  rewrite H. rewrite lookup_empty. tauto.
Qed.

Lemma consolidation_entry_address original ans :
  dict_get "address" (consolidation_entry original ans)
  = Some (JStr original).
Proof.
  unfold consolidation_entry. destruct ans as [r|detail]; [|done].
  destruct (ok r); [done|]. by destruct (answer_detail r).
Qed.

(** The record of an answer is a success with the data of the answer,
    or a failure with a detail and, mostly, a status. *)
Lemma consolidation_entry_shape original ans :
  (∃ d, consolidation_entry original ans = success_entry original d)
  ∨ failure_entry original (consolidation_entry original ans).
Proof.
  unfold consolidation_entry, failure_entry.
  destruct ans as [r|detail]; [|right; eauto].
  destruct (ok r); [left; eauto|right].
  destruct (answer_detail r); eauto.
Qed.

(** C9. In every consolidation batch, an address of the registered
    list that has no derived record is recorded as a failure of that
    address, with the detail "Not in derived set", and the batch goes
    on: it returns normally, every address of the list is announced and
    gets a result of its own, in order, and the results are written to
    the results file. *)
Theorem absent_address_is_a_failure (destination : string)
    (derived : list addr_info) (registered : list string) (w : world) :
  ∃ successes results w' t,
    consolidate_all destination derived registered w = (Ret successes, w', t)
    ∧ results_file w'
      = Some (Summary destination (len registered) successes
                (len registered - successes) results)
    ∧ Forall2 (λ original entry,
                 dict_get "address" entry = Some (JStr original))
        registered results
    ∧ (∀ (i : nat) original,
         registered !! i = Some original →
         original ∉ address <$> derived →
         results !! i = Some (not_in_derived original))
    ∧ (∀ (i : nat) original,
         registered !! i = Some original →
         Print (ConsolidatingOne (Z.of_nat i + 1) (len registered)
                  (str_take 40 original)) ∈ t).
Proof.
  set (amap := address_map_of derived).
  set (total := len registered).
  set (entry_rel := λ (original : string) (entry : list (string * json)),
         dict_get "address" entry = Some (JStr original)
         ∧ (amap !! original = None → entry = not_in_derived original)).
  set (Inv := λ (done : list string) (i : Z) (st : cons_state) (_ : world)
                (t : list event),
         i = len done
         ∧ Forall2 entry_rel done (cons_results st)
         ∧ ∀ (j : nat) o, done !! j = Some o →
             Print (ConsolidatingOne (Z.of_nat j + 1) total (str_take 40 o)) ∈ t).
  assert (∀ done i original st w0 t, Inv done i st w0 t →
            match consolidate_step destination
                    (consolidation_message destination) amap total i
                    original st w0 with
            | (Ret st', w', t') => Inv (done ++ [original]) (i + 1) st' w' (t ++ t')
            | (Raise e, w', t') => False
            end) as Hstep.
  { intros done i original st w0 t (Hi & Hres & Hann).
    assert (∀ t' (j : nat) o, (done ++ [original]) !! j = Some o →
              Print (ConsolidatingOne (i + 1) total (str_take 40 original)) ∈ t' →
              Print (ConsolidatingOne (Z.of_nat j + 1) total (str_take 40 o))
              ∈ t ++ t') as Hann'.
    { intros t' j o Hj Hin. apply elem_of_app.
      apply lookup_app_Some in Hj as [Hj|[Hge Hj]]; [left; eauto|right].
      apply list_lookup_singleton_Some in Hj as [Hj ->].
      replace (Z.of_nat j) with i; [done|]. unfold len in Hi. lia. }
    assert (i + 1 = len (done ++ [original])) as Hi'.
    { unfold len in *. rewrite length_app. simpl. lia. }
    pose proof (consolidate_step_run destination amap total i original st w0)
      as H.
    cbv zeta in H. destruct (amap !! original) as [a|] eqn:Hlook.
    - destruct H as (said & -> & _). split; [done|]. split.
      + apply Forall2_app; [done|]. constructor; [|constructor].
        split; [by apply consolidation_entry_address|]. by rewrite Hlook.
      + intros j o Hj. apply (Hann' _ j o Hj). left.
    - rewrite H. split; [done|]. split.
      + apply Forall2_app; [done|]. constructor; [|constructor]. by split.
      + intros j o Hj. apply (Hann' _ j o Hj). left. }
  pose proof (consolidate_loop_rule Inv destination
                (consolidation_message destination) amap total Hstep
                registered [] 0 (ConsState 0 []) w []) as Hloop.
  destruct (consolidate_all_run destination derived registered w)
    as (st & w1 & t & Hrun & ->).
  fold amap total in Hrun. rewrite Hrun in Hloop.
  destruct Hloop as (_ & Hres & Hann).
  { split; [done|]. split; [constructor|]. intros j o Hj. done. }
  simpl in Hres, Hann.
  eexists _, _, _, _. split; [reflexivity|]. split; [reflexivity|].
  split; [|split].
  - eapply Forall2_impl; [exact Hres|]. by intros ? ? [? _].
  - intros i original Hi Habs.
    destruct (Forall2_lookup_l _ _ _ _ _ Hres Hi) as (entry & Hentry & _ & Hnot).
    rewrite Hentry. f_equal. apply Hnot. by apply address_map_of_None.
  - intros i original Hi. apply elem_of_app. right. apply elem_of_app. left.
    by apply Hann.
Qed.

(** ** The consolidation run *)

Lemma say_all_run lines w : say_all lines w = (Ret (), w, Print <$> lines).
Proof.
  induction lines as [|l rest IH]; [reflexivity|]. simpl.
  erewrite run_bind by reflexivity. by rewrite IH.
Qed.

Lemma load_registered_addresses_run w :
  load_registered_addresses w
  = match snapshots w !! old_file with
    | None => (Ret [], w, [Print RegistrationsNotFound])
    | Some Malformed => (Raise (Exn JSONDecodeError "Expecting value"), w, [])
    | Some (Entries main_regs) =>
        (Ret (reg_address <$> main_regs), w,
         [Print (LoadedRegistrations (len main_regs)); Print SkippingBackup])
    end.
Proof.
  unfold load_registered_addresses, mbind, M_bind, bind, path_exists, json_load.
  destruct (snapshots w !! old_file) as [[|main_regs]|] eqn:Hf; simpl.
  all: try rewrite Hf; reflexivity.
Qed.

Lemma range_pos count : 0 < count → range count = 0 :: (Z.succ <$> range (count - 1)).
Proof.
  intros Hc. unfold range.
  replace (Z.to_nat count) with (S (Z.to_nat (count - 1))) by lia.
  simpl. f_equal. rewrite <- fmap_S_seq, <- !list_fmap_compose.
  apply list_fmap_ext. intros _ n _. simpl. lia.
Qed.

(** The [try] block of [main] when the first derived address is not
    the first registered one: it derives, reports the mismatch and
    returns. *)
Lemma consolidate_run_mismatch mnemonic destination hdwallet first rest w :
  from_mnemonic mnemonic = Some hdwallet →
  address (seed_record hdwallet 0) ≠ first →
  ∃ t,
    consolidate_run mnemonic destination (first :: rest) w
    = (Ret (), w,
       t ++ [Print (FirstAddressMismatch
                      (str_take 60 (address (seed_record hdwallet 0)))
                      (str_take 60 first))])
    ∧ Forall (λ e, is_derivation_line e = true) t.
Proof.
  intros Hm Hne.
  destruct (derive_addresses_run mnemonic hdwallet (len (first :: rest)) w Hm)
    as (t & Hd & Hp).
  exists t. split; [|done].
  unfold consolidate_run.
  erewrite run_bind by exact Hd.
  rewrite range_pos by (unfold len; simpl; lia).
  rewrite fmap_cons.
  erewrite run_bind by reflexivity.
  erewrite run_bind by reflexivity.
  destruct (decide _) as [_|Heq]; [|by destruct Heq].
  unfold result_of, world_of, events_of. simpl. done.
Qed.


(** [main] of the consolidation script up to its [try] statement, for
    a registration file with an entry, a destination that starts with
    "addr1" and a mnemonic with an accepted number of words. *)
Lemma consolidate_main_reaches_try (w : world)
    (first_registered : registration) (other_registered : list registration)
    (typed_destination typed_seed : string) (more_typed : list string) :
  snapshots w !! old_file
  = Some (Entries (first_registered :: other_registered)) →
  keyboard w = typed_destination :: typed_seed :: more_typed →
  startswith "addr1" (strip typed_destination) = true →
  len (split (strip typed_seed)) ∈ valid_word_counts →
  let registered := reg_address <$> first_registered :: other_registered in
  consolidate_main w
  = match
      finally
        (try_except
           (consolidate_run (strip typed_seed) (strip typed_destination)
              registered)
           (λ e, say (FatalError (exn_str e))))
        clear_seed
        (World (snapshots w) (results_file w) more_typed (service w)
           (served w) (Some (strip typed_seed)))
    with
    | (o, w', t) =>
        (o, w',
         consolidate_prelude registered typed_destination typed_seed
         ++ Print (GotSeed (len (split (strip typed_seed)))) :: t)
    end.
Proof.
  intros Hfile Hkeys Hdest Hwords registered.
  destruct w as [snaps results keys svc n mv]. simpl in Hfile, Hkeys.
  subst keys. cbn [snapshots results_file service served].
  unfold consolidate_main.
  erewrite run_bind_match by reflexivity.
  erewrite run_bind_match
    by (rewrite load_registered_addresses_run; cbn [snapshots];
        rewrite Hfile; reflexivity).
  rewrite fmap_cons. fold registered.
  erewrite run_bind_match by reflexivity.
  erewrite run_bind_match by apply say_all_run.
  erewrite run_bind_match by reflexivity.
  erewrite run_bind_match by reflexivity.
  rewrite Hdest.
  do 6 (erewrite run_bind_match by reflexivity).
  destruct (decide _) as [_|Hbad]; [|by destruct Hbad].
  erewrite run_bind_match by reflexivity.
  destruct (finally _ _ _) as [[o w'] t].
  change (reg_address first_registered :: (reg_address <$> other_registered))
    with registered.
  assert (len (first_registered :: other_registered) = len registered) as ->.
  { unfold registered, len. by rewrite length_fmap. }
  unfold consolidate_prelude. rewrite <- !app_assoc. reflexivity.
Qed.

Lemma sample_lines_samples registered :
  Forall (λ l, ∃ i head, l = Sample i head) (sample_lines registered).
Proof.
  unfold sample_lines. apply Forall_forall. intros l Hl.
  apply list_elem_of_omap in Hl as (i & _ & Hl).
  destruct (Z.abs i <? len registered); [|done].
  destruct (py_index registered i); simpl in Hl; [|done].
  injection Hl as <-. eauto.
Qed.

(** Before its [try] statement [main] only prints, asks and waits. *)
Lemma consolidate_prelude_plain registered typed_destination typed_seed :
  Forall (λ e, acts e = false
               ∧ match e with
                 | Print (ConsolidatingAll _ _) | Print SeedCleared => False
                 | _ => True
                 end)
    (consolidate_prelude registered typed_destination typed_seed).
Proof.
  unfold consolidate_prelude.
  apply Forall_app. split; [by repeat constructor|].
  apply Forall_app. split; [|by repeat constructor].
  apply Forall_fmap. eapply Forall_impl; [apply sample_lines_samples|].
  by intros l (i & h & ->).
Qed.

(** C2. When the first address derived from the seed differs from the
    first registered address, the consolidation run ends after it has
    reported the mismatch: it returns normally, signs nothing, sends no
    request, writes no file, never reaches [consolidate_all], and its
    last two lines are the report of the mismatch and the clearing of
    the seed. The run is one that reaches the check: a registration
    file with at least one entry, a destination that starts with
    "addr1", a mnemonic with an accepted number of words. *)
Theorem first_address_mismatch_aborts (w : world)
    (first_registered : registration) (other_registered : list registration)
    (typed_destination typed_seed : string) (more_typed : list string)
    (first_derived : addr_info) :
  snapshots w !! old_file
  = Some (Entries (first_registered :: other_registered)) →
  keyboard w = typed_destination :: typed_seed :: more_typed →
  startswith "addr1" (strip typed_destination) = true →
  len (split (strip typed_seed)) ∈ valid_word_counts →
  result_of (derive_addresses_from_mnemonic (strip typed_seed) 1 w)
  = Ret [first_derived] →
  address first_derived ≠ reg_address first_registered →
  ∃ w' before,
    consolidate_main w
    = (Ret (), w',
       before
       ++ [Print (FirstAddressMismatch (str_take 60 (address first_derived))
                    (str_take 60 (reg_address first_registered)));
           Print SeedCleared])
    ∧ Forall (λ e, acts e = false) before
    ∧ Forall (λ e, match e with
                   | Print (ConsolidatingAll _ _) => False
                   | _ => True
                   end) before
    ∧ snapshots w' = snapshots w
    ∧ results_file w' = results_file w
    ∧ served w' = served w
    ∧ mnemonic_var w' = None.
Proof.
  intros Hfile Hkeys Hdest Hwords Hderived Hne.
  destruct (from_mnemonic (strip typed_seed)) as [hdwallet|] eqn:Hm; cycle 1.
  { rewrite (derive_addresses_invalid _ _ _ Hm) in Hderived. done. }
  destruct (derive_addresses_run (strip typed_seed) hdwallet 1 w Hm)
    as (t1 & H1 & _).
  rewrite H1 in Hderived. injection Hderived as <-.
  set (registered := reg_address <$> first_registered :: other_registered).
  set (w1 := World (snapshots w) (results_file w) more_typed (service w)
               (served w) (Some (strip typed_seed))).
  destruct (consolidate_run_mismatch (strip typed_seed)
              (strip typed_destination) hdwallet (reg_address first_registered)
              (reg_address <$> other_registered) w1 Hm Hne)
    as (t & Hrun & Ht).
  exists (World (snapshots w) (results_file w) more_typed (service w)
            (served w) None),
    (consolidate_prelude registered typed_destination typed_seed
     ++ Print (GotSeed (len (split (strip typed_seed)))) :: t).
  split; [|split; [|split]]; [| | |done].
  - rewrite (consolidate_main_reaches_try w first_registered other_registered
               typed_destination typed_seed more_typed Hfile Hkeys Hdest Hwords).
    cbv zeta. fold w1.
    unfold finally, try_except. rewrite fmap_cons.
    rewrite Hrun. rewrite <- fmap_cons. fold registered. unfold clear_seed, set_mnemonic, say, emit.
    unfold mbind, M_bind, bind. cbn [w1 snapshots results_file keyboard service served].
    f_equal. rewrite <- ?app_assoc. cbn [app]. rewrite <- ?app_assoc.
    reflexivity.
  - apply Forall_app. split; [|constructor; [done|]].
    + eapply Forall_impl; [apply consolidate_prelude_plain|]. by intros e [? _].
    + eapply Forall_impl; [exact Ht|]. by intros [[]| | | | | | |].
  - apply Forall_app. split; [|constructor; [done|]].
    + eapply Forall_impl; [apply consolidate_prelude_plain|].
      intros e [_ He]. by destruct e as [[]| | | | | | |].
    + eapply Forall_impl; [exact Ht|]. by intros [[]| | | | | | |].
Qed.

(** ** The seed in memory *)

(** Whatever the [try] block does, after the [finally] block the name
    [mnemonic] is unbound and the last line says so. *)
Lemma finally_clears_seed {A} (m : M A) (w : world) :
  mnemonic_var (world_of (finally m clear_seed w)) = None
  ∧ last (events_of (finally m clear_seed w)) = Some (Print SeedCleared).
Proof.
  unfold finally. destruct (m w) as [[o w1] t1]. simpl.
  unfold world_of, events_of. simpl. split; [done|].
  by rewrite last_snoc.
Qed.

(** A mnemonic with a number of words that is not accepted makes
    [main] of the consolidation script return before its [try]
    statement: the name [mnemonic] stays bound to what was typed. *)
Lemma consolidate_main_returns_early (w : world)
    (first_registered : registration) (other_registered : list registration)
    (typed_destination typed_seed : string) (more_typed : list string) :
  snapshots w !! old_file
  = Some (Entries (first_registered :: other_registered)) →
  keyboard w = typed_destination :: typed_seed :: more_typed →
  startswith "addr1" (strip typed_destination) = true →
  len (split (strip typed_seed)) ∉ valid_word_counts →
  let registered := reg_address <$> first_registered :: other_registered in
  consolidate_main w
  = (Ret (),
     World (snapshots w) (results_file w) more_typed (service w) (served w)
       (Some (strip typed_seed)),
     consolidate_prelude registered typed_destination typed_seed
     ++ [Print (InvalidMnemonic (len (split (strip typed_seed))))]).
Proof.
  intros Hfile Hkeys Hdest Hwords registered.
  destruct w as [snaps results keys svc n mv]. simpl in Hfile, Hkeys.
  subst keys. cbn [snapshots results_file service served].
  unfold consolidate_main.
  erewrite run_bind_match by reflexivity.
  erewrite run_bind_match
    by (rewrite load_registered_addresses_run; cbn [snapshots];
        rewrite Hfile; reflexivity).
  rewrite fmap_cons. fold registered.
  erewrite run_bind_match by reflexivity.
  erewrite run_bind_match by apply say_all_run.
  erewrite run_bind_match by reflexivity.
  erewrite run_bind_match by reflexivity.
  rewrite Hdest.
  do 6 (erewrite run_bind_match by reflexivity).
  destruct (decide _) as [Hbad|_]; [by destruct Hwords|].
  change (reg_address first_registered :: (reg_address <$> other_registered))
    with registered.
  assert (len (first_registered :: other_registered) = len registered) as ->.
  { unfold registered, len. by rewrite length_fmap. }
  unfold consolidate_prelude, say, emit. rewrite <- !app_assoc. reflexivity.
Qed.

(** In the registration script, a count outside 1..1000 makes [main]
    return before its [try] statement, with a valid mnemonic still
    bound. *)
Lemma register_main_returns_early (w : world)
    (typed_ready typed_seed typed_count : string) (more_typed : list string)
    (count : Z) :
  keyboard w = typed_ready :: typed_seed :: typed_count :: more_typed →
  lower (strip typed_ready) = "yes" →
  len (split (strip typed_seed)) ∈ valid_word_counts →
  strip typed_count ≠ "" →
  parse_int (strip typed_count) = Some count →
  count < 1 ∨ 1000 < count →
  register_main w
  = (Ret (),
     World (snapshots w) (results_file w) more_typed (service w) (served w)
       (Some (strip typed_seed)),
     [Print Banner; Asked AskReady typed_ready; Print AskSeed;
      Asked AskSeedPhrase typed_seed;
      Print (GotSeed (len (split (strip typed_seed))));
      Asked AskCount typed_count; Print CountOutOfRange]).
Proof.
  intros Hkeys Hyes Hwords Hnonempty Hparse Hrange.
  destruct w as [snaps results keys svc n mv]. simpl in Hkeys. subst keys.
  cbn [snapshots results_file service served].
  unfold register_main.
  erewrite run_bind_match by reflexivity.
  erewrite run_bind_match by reflexivity.
  destruct (decide (lower (strip typed_ready) = "yes")); [|done].
  do 3 (erewrite run_bind_match by reflexivity).
  destruct (decide (len (split (strip typed_seed)) ∈ valid_word_counts));
    [|done].
  erewrite run_bind_match by reflexivity.
  erewrite run_bind_match by reflexivity.
  destruct (decide (strip typed_count = "")); [done|].
  unfold py_int. rewrite Hparse.
  erewrite run_bind_match by reflexivity.
  assert ((count <? 1) || (1000 <? count) = true) as ->.
  { apply orb_true_iff. destruct Hrange; [left|right]; lia. }
  reflexivity.
Qed.

(** ** The shape of a registration batch *)

Lemma registration_trace_app message all l t l' t' l'' :
  registration_trace message all l t l' →
  registration_trace message all l' t' l'' →
  registration_trace message all l (t ++ t') l''.
Proof.
  intros H1 H2. induction H1; simpl; [done|..].
  - apply rt_print. auto.
  - apply rt_pause. auto.
  - apply rt_failed; auto.
  - apply rt_recorded; auto.
Qed.

Lemma registration_trace_pause message all l i total :
  registration_trace message all l (pause 2000 i total) l.
Proof.
  unfold pause. destruct (i <? total - 1); [apply rt_pause|]; apply rt_done.
Qed.

Lemma ledger_of_written (w : world) (l : list registration) :
  ledger_of (set_snapshots <[temp_file := Entries l]> w) = l.
Proof. unfold ledger_of, set_snapshots. simpl. by rewrite lookup_insert_eq. Qed.

Lemma ledger_of_bump w : ledger_of (bump w) = ledger_of w.
Proof. reflexivity. Qed.

Lemma registration_invariant_step message all l0 total i a st w t :
  a ∈ all →
  registration_invariant message all l0 st w t →
  match register_step message total i a st w with
  | (Ret st', w', t') => registration_invariant message all l0 st' w' (t ++ t')
  | (Raise e, w', t') => False
  end.
Proof.
  intros Ha (Htrace & Hset & Hfile).
  pose proof (register_step_run message total i a st w) as Hstep.
  cbv zeta in Hstep. rewrite Hset in Hstep.
  destruct (decide _) as [Hin|Hout].
  - rewrite Hstep. split; [|done].
    eapply registration_trace_app; [done|]. do 2 apply rt_print. apply rt_done.
  - assert (address a ∉ reg_address <$> registrations st) as Hout'.
    { intros Hin. apply Hout. by apply elem_of_list_to_set. }
    destruct (registration_succeeds _) eqn:Hsucc.
    + rewrite Hstep. split; [|split].
      * eapply registration_trace_app; [done|]. apply rt_print.
        simpl. apply rt_recorded; [done..|].
        apply registration_trace_pause.
      * simpl. f_equal. rewrite fmap_app, list_to_set_app_L. simpl.
        rewrite union_empty_r_L. apply union_comm_L.
      * simpl. apply ledger_of_written.
    + destruct Hstep as (line & ->). split; [|done].
      eapply registration_trace_app; [done|]. apply rt_print.
      simpl. apply rt_failed; [done..|]. apply rt_print.
      apply registration_trace_pause.
Qed.

(** Every batch has that shape, from the ledger on disk to a ledger
    [l']; when the batch returns, [l'] is what it returns and what the
    file holds. *)
Lemma register_all_addresses_shape addresses message w :
  ∃ o w' t l',
    register_all_addresses addresses message w = (o, w', t)
    ∧ registration_trace message addresses (ledger_of w) t l'
    ∧ (∀ ledger, o = Ret ledger → ledger = l' ∧ ledger_of w' = l').
Proof.
  destruct (register_all_addresses_run addresses message w)
    as (st0 & t0 & Hload & ->).
  rewrite load_partial_run in Hload.
  destruct (snapshots w !! temp_file) as [[|loaded]|] eqn:Hfile.
  - (* the file does not parse *)
    injection Hload as <- <-.
    assert (ledger_of w = []) as Hl by (unfold ledger_of; by rewrite Hfile).
    destruct addresses as [|a rest]; cbn [register_loop].
    + eexists _, _, _, []. split; [reflexivity|]. rewrite Hl. split.
      * apply rt_print. simpl. apply rt_print. apply rt_done.
      * simpl. by intros ? [= <-].
    + pose proof (register_step_run message (len (a :: rest)) 0 a
                    (RegState [] None 0) w) as Hstep.
      cbv zeta in Hstep. cbn [registered_addrs] in Hstep.
      erewrite run_bind_raise by exact Hstep.
      eexists _, _, _, []. split; [reflexivity|]. rewrite Hl. split.
      * do 2 apply rt_print. apply rt_done.
      * by intros ? [=].
  - (* the file holds a ledger *)
    injection Hload as <- <-.
    assert (ledger_of w = loaded) as Hl by (unfold ledger_of; by rewrite Hfile).
    pose proof (register_loop_rule
                  (registration_invariant message addresses loaded)
                  (λ _ _ _, False) message (len addresses) addresses
                  (λ i a st w0 t, registration_invariant_step message
                     addresses loaded (len addresses) i a st w0 t)
                  addresses 0
                  (RegState loaded (Some (list_to_set (reg_address <$> loaded)))
                     (len loaded))
                  w [] (reflexivity _)) as Hloop.
    destruct (register_loop _ _ _ _ _ _) as [[[st|e] w'] t] eqn:Hrun.
    + destruct Hloop as (Htrace & _ & Hfile').
      { split; [apply rt_done|]. by split. }
      eexists _, _, _, (registrations st). split; [reflexivity|].
      rewrite Hl. split.
      * apply rt_print. apply rt_print.
        eapply registration_trace_app; [exact Htrace|].
        apply rt_print, rt_done.
      * by intros ? [= <-].
    + destruct Hloop. split; [apply rt_done|]. by split.
  - (* there is no file *)
    injection Hload as <- <-.
    assert (ledger_of w = []) as Hl by (unfold ledger_of; by rewrite Hfile).
    pose proof (register_loop_rule
                  (registration_invariant message addresses [])
                  (λ _ _ _, False) message (len addresses) addresses
                  (λ i a st w0 t, registration_invariant_step message
                     addresses [] (len addresses) i a st w0 t)
                  addresses 0 (RegState [] (Some ∅) 0) w [] (reflexivity _))
      as Hloop.
    destruct (register_loop _ _ _ _ _ _) as [[[st|e] w'] t] eqn:Hrun.
    + destruct Hloop as (Htrace & _ & Hfile').
      { split; [apply rt_done|]. by split. }
      eexists _, _, _, (registrations st). split; [reflexivity|].
      rewrite Hl. split.
      * apply rt_print. simpl.
        eapply registration_trace_app; [exact Htrace|].
        apply rt_print, rt_done.
      * by intros ? [= <-].
    + destruct Hloop. split; [apply rt_done|]. by split.
Qed.

(** ** What the shape implies *)

(** The ledger only grows, by entries of records of the list. *)
Lemma registration_trace_grows message all l t l' :
  registration_trace message all l t l' →
  ∃ new, l' = l ++ new
         ∧ Forall (λ e, ∃ a, a ∈ all ∧ e = entry_of message a) new.
Proof.
  induction 1 as [l|l line t l' _ IH|l t l' _ IH|l a ans t l' Ha Hout Hs _ IH
                 |l a ans t l' Ha Hout Hs _ IH]; [|done..|].
  - exists []. by rewrite app_nil_r.
  - destruct IH as (new & -> & Hnew). exists (entry_of message a :: new).
    split; [by rewrite <- app_assoc|]. constructor; eauto.
Qed.

(** Requests go out, and signatures are made, only for records whose
    address the ledger did not hold when the batch started. *)
Lemma registration_trace_requests message all l t l' :
  registration_trace message all l t l' →
  ∀ e, e ∈ t →
    match e with
    | Http req _ =>
        ∃ a, a ∈ all ∧ req = register_request message a
             ∧ address a ∉ reg_address <$> l
    | Signed key bytes =>
        ∃ a, a ∈ all ∧ key = payment_skey a
             ∧ bytes = signed_bytes message (address_obj a)
             ∧ address a ∉ reg_address <$> l
    | _ => True
    end.
Proof.
  induction 1 as [l|l line t l' _ IH|l t l' _ IH|l a ans t l' Ha Hout Hs _ IH
                 |l a ans t l' Ha Hout Hs _ IH]; intros e He.
  - by apply elem_of_nil in He.
  - apply elem_of_cons in He as [->|He]; [done|by apply IH].
  - apply elem_of_cons in He as [->|He]; [done|by apply IH].
  - apply elem_of_cons in He as [->|He]; [eauto 6|].
    apply elem_of_cons in He as [->|He]; [eauto|by apply IH].
  - apply elem_of_cons in He as [->|He]; [eauto 6|].
    apply elem_of_cons in He as [->|He]; [eauto|].
    apply elem_of_cons in He as [->|He]; [done|].
    apply elem_of_cons in He as [->|He]; [done|].
    specialize (IH e He). destruct e; try done.
    + destruct IH as (b & Hb & -> & -> & Hnot). exists b. repeat split; [done|].
      intros Hin. apply Hnot. rewrite fmap_app. apply elem_of_app. by left.
    + destruct IH as (b & Hb & -> & Hnot). exists b. repeat split; [done|].
      intros Hin. apply Hnot. rewrite fmap_app. apply elem_of_app. by left.
Qed.

(** Every address the service accepted is in the ledger at the end. *)
Lemma registration_trace_accepted message all l t l' :
  registration_trace message all l t l' →
  ∀ a, a ∈ accepted t → a ∈ reg_address <$> l'.
Proof.
  induction 1 as [l|l line t l' _ IH|l t l' _ IH|l a ans t l' Ha Hout Hs _ IH
                 |l a ans t l' Ha Hout Hs Ht IH]; intros b Hb; simpl in Hb.
  - by apply elem_of_nil in Hb.
  - auto.
  - auto.
  - rewrite Hs in Hb. auto.
  - rewrite Hs in Hb. apply elem_of_cons in Hb as [->|Hb]; [|auto].
    destruct (registration_trace_grows _ _ _ _ _ Ht) as (new & -> & _).
    rewrite !fmap_app. apply elem_of_app. left. apply elem_of_app. right.
    simpl. left.
Qed.

(** A successful request is followed at once by the line that says so
    and by the write of the ledger with the new entry last. *)
Lemma registration_trace_persists message all l t l' :
  registration_trace message all l t l' →
  ∀ pre a sig pub ans post,
    t = pre ++ Http (Register a sig pub) ans :: post →
    registration_succeeds ans = true →
    ∃ ledger rest,
      post = Print RegisteredOk
             :: WroteSnapshot temp_file (ledger ++ [Registration a sig pub])
             :: rest.
Proof.
  induction 1 as [l|l line t l' _ IH|l t l' _ IH|l a ans t l' Ha Hout Hs _ IH
                 |l a ans t l' Ha Hout Hs _ IH];
    intros pre b sig pub ans' post Heq Hok.
  - by destruct pre.
  - destruct pre as [|e pre]; [done|]. injection Heq as _ Heq. eauto.
  - destruct pre as [|e pre]; [done|]. injection Heq as _ Heq. eauto.
  - destruct pre as [|e1 [|e2 pre]]; [done| |].
    + injection Heq as _ _ <- _. congruence.
    + injection Heq as _ _ Heq. eauto.
  - destruct pre as [|e1 [|e2 [|e3 [|e4 pre]]]]; [done| | | |].
    + unfold register_request in Heq. simplify_eq/=. eauto.
    + simplify_eq/=.
    + simplify_eq/=.
    + simplify_eq/=. eauto.
Qed.


(** Every pause is the fixed one of two seconds. *)
Lemma registration_trace_delays message all l t l' :
  registration_trace message all l t l' →
  Forall (λ d, d = 2000) (delays_of t).
Proof.
  unfold delays_of.
  induction 1; simpl; try done. by constructor.
Qed.

(** At any point of the batch, the file holds the starting ledger and
    what was added to it since. *)
Lemma registration_trace_ledger_after message all l t l' :
  registration_trace message all l t l' →
  ∀ p q, t = p ++ q → ∃ new, ledger_after l p = l ++ new.
Proof.
  induction 1 as [l|l line t l' _ IH|l t l' _ IH|l a ans t l' Ha Hout Hs _ IH
                 |l a ans t l' Ha Hout Hs _ IH]; intros p q Heq.
  - destruct p; [|done]. exists []. by rewrite app_nil_r.
  - destruct p as [|e p]; [exists []; by rewrite app_nil_r|].
    injection Heq as <- Heq. simpl. eauto.
  - destruct p as [|e p]; [exists []; by rewrite app_nil_r|].
    injection Heq as <- Heq. simpl. eauto.
  - destruct p as [|e1 [|e2 p]]; [exists []; by rewrite app_nil_r| |].
    + injection Heq as <- _. exists []. by rewrite app_nil_r.
    + injection Heq as <- <- Heq. simpl. eauto.
  - destruct p as [|e1 [|e2 [|e3 [|e4 p]]]];
      [exists []; by rewrite app_nil_r| | | |].
    + injection Heq as <- _. exists []. by rewrite app_nil_r.
    + injection Heq as <- <- _. exists []. by rewrite app_nil_r.
    + injection Heq as <- <- <- _. exists []. by rewrite app_nil_r.
    + injection Heq as <- <- <- <- Heq. simpl.
      destruct (decide (temp_file = temp_file)); [|done].
      destruct (IH p q Heq) as (new & ->).
      exists (entry_of message a :: new). by rewrite <- app_assoc.
Qed.

(** If the batch is cut short at any point, at most one address that
    the service accepted is missing from the ledger on disk. *)
Lemma registration_trace_crash message all l t l' :
  registration_trace message all l t l' →
  ∀ p q, t = p ++ q → (length (unrecorded l p) ≤ 1)%nat.
Proof.
  unfold unrecorded.
  induction 1 as [l|l line t l' _ IH|l t l' _ IH|l a ans t l' Ha Hout Hs _ IH
                 |l a ans t l' Ha Hout Hs Ht IH]; intros p q Heq.
  - destruct p; [simpl; lia|done].
  - destruct p as [|e p]; [simpl; lia|].
    injection Heq as <- Heq. simpl. eauto.
  - destruct p as [|e p]; [simpl; lia|].
    injection Heq as <- Heq. simpl. eauto.
  - destruct p as [|e1 [|e2 p]]; [simpl; lia| |].
    + injection Heq as <- _. simpl. lia.
    + injection Heq as <- <- Heq. simpl. rewrite Hs. eauto.
  - destruct p as [|e1 [|e2 [|e3 [|e4 p]]]]; [simpl; lia| | | |].
    + injection Heq as <- _. simpl. lia.
    + injection Heq as <- <- _. simpl. rewrite Hs.
      rewrite filter_cons. destruct (decide _); simpl; lia.
    + injection Heq as <- <- <- _. simpl. rewrite Hs.
      rewrite filter_cons. destruct (decide _); simpl; lia.
    + injection Heq as <- <- <- <- Heq. simpl. rewrite Hs.
      destruct (decide (temp_file = temp_file)); [|done].
      rewrite filter_cons.
      destruct (registration_trace_ledger_after _ _ _ _ _ Ht p q Heq)
        as (new & Hafter).
      destruct (decide _) as [Hnot|_]; [|eauto].
      destruct Hnot. rewrite Hafter, !fmap_app.
      apply elem_of_app. left. apply elem_of_app. right. simpl. left.
Qed.

(** ** What a consolidation batch does *)

Lemma address_map_of_Some derived original a :
  address_map_of derived !! original = Some a →
  a ∈ derived ∧ address a = original.
Proof.
  unfold address_map_of.
  assert (∀ m : gmap string addr_info,
            foldl (λ m a, <[address a := a]> m) m derived !! original = Some a →
            m !! original = Some a ∨ (a ∈ derived ∧ address a = original)) as H.
  { induction derived as [|b rest IH]; intros m Hm; simpl in Hm; [by left|].
    destruct (IH _ Hm) as [Hins|[Hin Haddr]].
    - apply lookup_insert_Some in Hins as [[<- <-]|[_ Hins]].
      + right. split; [left|done].
      + by left.
    - right. split; [by right|done]. }
  intros Hm. destruct (H _ Hm) as [Hempty|Hin]; [|done].
  by rewrite lookup_empty in Hempty.
Qed.

Lemma consolidation_event_ok_mono destination derived done original e :
  consolidation_event_ok destination derived done e →
  consolidation_event_ok destination derived (done ++ [original]) e.
Proof.
  destruct e; simpl; try done.
  - intros (a & ? & ? & ? & ?). exists a. repeat split; try done.
    apply elem_of_app. by left.
  - intros (a & ? & ? & ?). exists a. repeat split; try done.
    apply elem_of_app. by left.
Qed.

Lemma result_entry_ok_mono done original entry :
  result_entry_ok done entry → result_entry_ok (done ++ [original]) entry.
Proof.
  intros (o & Ho & H). exists o. split; [|done]. apply elem_of_app. by left.
Qed.

Lemma consolidation_pause_ok destination derived done i total :
  Forall (consolidation_event_ok destination derived done) (pause 500 i total).
Proof. unfold pause. destruct (i <? total - 1); by repeat constructor. Qed.

Lemma consolidation_invariant_step destination derived total done i original
    st w t :
  consolidation_invariant destination derived done st t →
  match consolidate_step destination (consolidation_message destination)
          (address_map_of derived) total i original st w with
  | (Ret st', w', t') =>
      consolidation_invariant destination derived (done ++ [original]) st'
        (t ++ t')
  | (Raise e, w', t') => False
  end.
Proof.
  intros (Hev & Hres).
  assert (original ∈ done ++ [original]) as Hlast.
  { apply elem_of_app. right. left. }
  assert (Forall (consolidation_event_ok destination derived (done ++ [original])) t)
    as Hev'.
  { eapply Forall_impl; [exact Hev|]. intros e.
    apply consolidation_event_ok_mono. }
  assert (Forall (result_entry_ok (done ++ [original])) (cons_results st))
    as Hres'.
  { eapply Forall_impl; [exact Hres|]. intros e. apply result_entry_ok_mono. }
  pose proof (consolidate_step_run destination (address_map_of derived) total i
                original st w) as H.
  cbv zeta in H.
  destruct (address_map_of derived !! original) as [a|] eqn:Hlook.
  - destruct (address_map_of_Some _ _ _ Hlook) as (Ha & Haddr).
    assert (DonateTo destination original
              (cip30 (consolidation_message destination) (payment_skey a)
                 (address_obj a)) = donate_request destination a) as Hreq.
    { unfold donate_request. by rewrite Haddr. }
    rewrite Hreq in H.
    assert (address a ∈ done ++ [original]) as Hin by by rewrite Haddr.
    destruct H as (said & -> & Hsaid). split.
    + apply Forall_app. split; [done|].
      constructor; [done|]. constructor; [by exists a|].
      constructor; [by exists a|]. apply Forall_app. split.
      * eapply Forall_impl; [exact Hsaid|]. by intros e (l & ->).
      * apply consolidation_pause_ok.
    + apply Forall_app. split; [done|]. constructor; [|constructor].
      exists original. split; [done|]. right. eauto.
  - rewrite H. split.
    + apply Forall_app. split; [done|]. by repeat constructor.
    + apply Forall_app. split; [done|]. constructor; [|constructor].
      exists original. split; [done|]. by left.
Qed.

(** The loop of a batch keeps to that, and its results are of the
    three kinds. *)
Lemma consolidate_loop_ok destination derived registered w :
  ∃ st w1 t,
    consolidate_loop destination (consolidation_message destination)
      (address_map_of derived) (len registered) 0 registered (ConsState 0 []) w
    = (Ret st, w1, t)
    ∧ Forall (consolidation_event_ok destination derived registered) t
    ∧ Forall (result_entry_ok registered) (cons_results st).
Proof.
  pose proof (consolidate_loop_rule
                (λ done _ st _ t,
                   consolidation_invariant destination derived done st t)
                destination (consolidation_message destination)
                (address_map_of derived) (len registered)
                (λ done i original st w0 t,
                   consolidation_invariant_step destination derived
                     (len registered) done i original st w0 t)
                registered [] 0 (ConsState 0 []) w []) as Hloop.
  destruct (consolidate_loop _ _ _ _ _ _ _ _) as [[[st|e] w1] t] eqn:Hrun.
  - exists st, w1, t. split; [done|]. apply Hloop. by split.
  - destruct Hloop. by split.
Qed.

(** ** The ledger of the registration batch *)

(** C3, as amended. The registration loop tests each address against
    the ledger before it does anything for it, and passes over an
    address the ledger holds: it prints two lines and leaves the locals
    and the world as they were. So a batch signs and sends requests
    only for addresses that the ledger on disk did not hold when it
    started; when it returns, every address the service accepted is in
    the ledger it returns and leaves on disk, next to the entries it
    found; and a second batch over the same list, started from the
    files the first one left, sends no request for any address of that
    ledger. (The consolidation loop has no ledger.) *)
Theorem registration_skips_recorded (addresses : list addr_info)
    (message : string) (w : world) :
  (∀ total i a st registered (w0 : world),
     registered_addrs st = Some registered →
     address a ∈ registered →
     register_step message total i a st w0
     = (Ret st, w0,
        [Print (RegisteringOne (i + 1) total (str_take 30 (address a)));
         Print AlreadyRegistered]))
  ∧ ∃ o w' t,
      register_all_addresses addresses message w = (o, w', t)
      ∧ (∀ e, e ∈ t →
           match e with
           | Http req _ =>
               ∃ a, a ∈ addresses ∧ req = register_request message a
                    ∧ address a ∉ reg_address <$> ledger_of w
           | Signed key bytes =>
               ∃ a, a ∈ addresses ∧ key = payment_skey a
                    ∧ bytes = signed_bytes message (address_obj a)
                    ∧ address a ∉ reg_address <$> ledger_of w
           | _ => True
           end)
      ∧ (∀ ledger, o = Ret ledger →
           ledger_of w' = ledger
           ∧ (∀ r, r ∈ ledger_of w → r ∈ ledger)
           ∧ (∀ a, a ∈ accepted t → a ∈ reg_address <$> ledger)
           ∧ ∀ message2 w2, snapshots w2 = snapshots w' →
               ∀ req ans,
                 Http req ans
                 ∈ events_of (register_all_addresses addresses message2 w2) →
                 ∃ a, a ∈ addresses ∧ req = register_request message2 a
                      ∧ address a ∉ reg_address <$> ledger).
Proof.
  split.
  { intros total i a st registered w0 Hset Hin.
    pose proof (register_step_run message total i a st w0) as Hstep.
    cbv zeta in Hstep. rewrite Hset in Hstep.
    by destruct (decide (address a ∈ registered)). }
  destruct (register_all_addresses_shape addresses message w)
    as (o & w' & t & l' & Hrun & Htrace & Hret).
  exists o, w', t. split; [done|]. split.
  { apply (registration_trace_requests _ _ _ _ _ Htrace). }
  intros ledger Ho. destruct (Hret ledger Ho) as (-> & Hfile).
  split; [done|]. split; [|split].
  - destruct (registration_trace_grows _ _ _ _ _ Htrace) as (new & -> & _).
    intros r Hr. apply elem_of_app. by left.
  - apply (registration_trace_accepted _ _ _ _ _ Htrace).
  - intros message2 w2 Hsame req ans Hin.
    destruct (register_all_addresses_shape addresses message2 w2)
      as (o2 & w2' & t2 & l2 & Hrun2 & Htrace2 & _).
    rewrite Hrun2 in Hin. unfold events_of in Hin. simpl in Hin.
    assert (ledger_of w2 = l') as Hl.
    { unfold ledger_of in *. by rewrite Hsame. }
    rewrite Hl in Htrace2.
    apply (registration_trace_requests _ _ _ _ _ Htrace2 _ Hin).
Qed.

Lemma filter_none {A} (P : A → Prop) `{∀ x, Decision (P x)} (l : list A) :
  Forall (λ x, ¬ P x) l → filter P l = [].
Proof.
  induction 1 as [|x l Hx _ IH]; [done|]. by rewrite filter_cons_False.
Qed.

(** When the batch is over, the file holds the ledger it ended with. *)
Lemma registration_trace_ledger_end message all l t l' :
  registration_trace message all l t l' → ledger_after l t = l'.
Proof.
  induction 1; simpl; done.
Qed.

(** C5, as amended. In the registration batch a successful request is
    followed at once by the line that says so and by the write of the
    partial snapshot, with the new entry last, before the loop turns to
    the next address; so wherever the batch is cut short, at most one
    address that the service accepted is missing from the ledger on
    disk. (The consolidation batch writes its results once, after the
    last address.) *)
Theorem registration_persists_each_success (addresses : list addr_info)
    (message : string) (w : world) :
  ∃ o w' t,
    register_all_addresses addresses message w = (o, w', t)
    ∧ (∀ pre a sig pub ans post,
         t = pre ++ Http (Register a sig pub) ans :: post →
         registration_succeeds ans = true →
         ∃ ledger rest,
           post = Print RegisteredOk
                  :: WroteSnapshot temp_file (ledger ++ [Registration a sig pub])
                  :: rest)
    ∧ (∀ p q, t = p ++ q → (length (unrecorded (ledger_of w) p) ≤ 1)%nat)
    ∧ (∀ ledger, o = Ret ledger →
         ledger_of w' = ledger ∧ unrecorded (ledger_of w) t = []).
Proof.
  destruct (register_all_addresses_shape addresses message w)
    as (o & w' & t & l' & Hrun & Htrace & Hret).
  exists o, w', t. split; [done|]. split; [|split].
  - apply (registration_trace_persists _ _ _ _ _ Htrace).
  - apply (registration_trace_crash _ _ _ _ _ Htrace).
  - intros ledger Ho. destruct (Hret ledger Ho) as (-> & Hfile).
    split; [done|]. unfold unrecorded.
    rewrite (registration_trace_ledger_end _ _ _ _ _ Htrace).
    apply filter_none, Forall_forall. intros a Ha Hnot.
    apply Hnot. by apply (registration_trace_accepted _ _ _ _ _ Htrace).
Qed.

(** ** Rate limiting *)

(** The attempt for an address when the service answers 429: one
    signature, one request, one line with the start of the text that
    carries the hint; the locals stay as they were. *)
Lemma register_attempt_rate_limited message a registered st w r :
  service w (served w) (register_request message a) = Answered r →
  status_code r = 429 →
  register_attempt message a registered st w
  = (Ret st, bump w,
     [Signed (payment_skey a) (signed_bytes message (address_obj a));
      Http (register_request message a) (Answered r);
      Print (RegistrationFailed
               (JStr (str_take 60
                        ("Rate limited (retry after: "
                         +:+ default "unknown" (retry_after r) +:+ ")"))))]).
Proof.
  intros Hans H429. unfold register_attempt, try_except.
  erewrite run_bind by apply sign_cip30_message_run.
  erewrite run_bind by apply register_address_exact.
  unfold register_request in Hans. unfold pubkey_of in Hans.
  rewrite Hans. rewrite (registration_result_rate_limited r H429).
  reflexivity.
Qed.

Lemma consolidate_loop_delays destination derived registered w :
  Forall (λ d, d = 500)
    (delays_of (events_of (consolidate_all destination derived registered w))).
Proof.
  destruct (consolidate_loop_ok destination derived registered w)
    as (st & w1 & t & Hloop & Hev & _).
  destruct (consolidate_all_run destination derived registered w)
    as (st' & w1' & t' & Hloop' & ->).
  rewrite Hloop in Hloop'. injection Hloop' as <- <- <-.
  unfold events_of, delays_of. cbn [snd].
  rewrite !omap_app. cbn [omap list_omap app].
  rewrite app_nil_r. clear Hloop.
  induction Hev as [|e t He _ IH]; [constructor|].
  destruct e; simpl; try exact IH. constructor; [exact He|exact IH].
Qed.

(** C4, as amended. A 429 answer is handled as any other failed
    answer. The registration helper marks its result [rate_limited]
    and puts the hint of the Retry-After header into the text of the
    error; the loop prints the start of that text, records nothing, does
    not send the request again, and goes on after the same pause of two
    seconds that follows every attempt but the last. The consolidation
    helper does not tell a 429 from other failed statuses; the loop
    records a failure for the address and goes on after its usual
    pause of half a second. No pause of either batch ever has another
    length. *)
Theorem rate_limited_is_an_ordinary_failure
    (message : string) (total i : Z) (a : addr_info) (st : reg_state)
    (registered : gset string) (w : world) (r : response)
    (destination original : string) (address_map : gmap string addr_info)
    (b : addr_info) (cst : cons_state) (w2 : world) (r2 : response)
    (addresses derived : list addr_info) (targets : list string) :
  registered_addrs st = Some registered →
  address a ∉ registered →
  service w (served w) (register_request message a) = Answered r →
  status_code r = 429 →
  address_map !! original = Some b →
  service w2 (served w2)
    (DonateTo destination original
       (cip30 (consolidation_message destination) (payment_skey b)
          (address_obj b)))
  = Answered r2 →
  status_code r2 = 429 →
  (registration_result (Answered r)
   = ApiResult false None
       (Some (JStr ("Rate limited (retry after: "
                    +:+ default "unknown" (retry_after r) +:+ ")")))
       None (Some true) None
   ∧ register_step message total i a st w
     = (Ret st, bump w,
        [Print (RegisteringOne (i + 1) total (str_take 30 (address a)));
         Signed (payment_skey a) (signed_bytes message (address_obj a));
         Http (register_request message a) (Answered r);
         Print (RegistrationFailed
                  (JStr (str_take 60
                           ("Rate limited (retry after: "
                            +:+ default "unknown" (retry_after r) +:+ ")"))))]
        ++ pause 2000 i total))
  ∧ (rate_limited
       (consolidation_result
          (DonateTo destination original
             (cip30 (consolidation_message destination) (payment_skey b)
                (address_obj b)))
          (Answered r2)) = None
     ∧ ∃ said,
         consolidate_step destination (consolidation_message destination)
           address_map total i original cst w2
         = (Ret (ConsState (cons_success_count cst)
                   (cons_results cst
                    ++ [consolidation_entry original (Answered r2)])),
            bump w2,
            Print (ConsolidatingOne (i + 1) total (str_take 40 original))
            :: Signed (payment_skey b)
                 (signed_bytes (consolidation_message destination)
                    (address_obj b))
            :: Http
                 (DonateTo destination original
                    (cip30 (consolidation_message destination)
                       (payment_skey b) (address_obj b)))
                 (Answered r2)
            :: said ++ pause 500 i total)
         ∧ Forall (λ e, ∃ l, e = Print l) said
         ∧ failure_entry original (consolidation_entry original (Answered r2)))
  ∧ Forall (λ d, d = 2000)
      (delays_of (events_of (register_all_addresses addresses message w)))
  ∧ Forall (λ d, d = 500)
      (delays_of (events_of (consolidate_all destination derived targets w2))).
Proof.
  intros Hset Hout Hans H429 Hlook Hans2 H429'.
  split; [split|split; [split|split]].
  - by apply registration_result_rate_limited.
  - unfold register_step.
    erewrite run_bind by reflexivity. rewrite Hset.
    erewrite run_bind by reflexivity.
    destruct (decide (address a ∈ registered)); [done|].
    erewrite run_bind
      by (by apply register_attempt_rate_limited).
    unfold pause. by destruct (i <? total - 1).
  - destruct (consolidation_result_rate_limited
                (DonateTo destination original
                   (cip30 (consolidation_message destination) (payment_skey b)
                      (address_obj b))) r2 H429') as (detail & ->).
    done.
  - pose proof (consolidate_step_run destination address_map total i original
                  cst w2) as Hstep.
    cbv zeta in Hstep. rewrite Hlook, Hans2 in Hstep.
    destruct Hstep as (said & Hstep & Hsaid). exists said.
    assert (consolidation_succeeds (Answered r2) = false) as Hfail.
    { unfold consolidation_succeeds, ok. by rewrite H429'. }
    rewrite Hfail, Z.add_0_r in Hstep. split; [done|]. split; [done|].
    destruct (consolidation_entry_shape original (Answered r2))
      as [(d & Hd)|Hf]; [|done].
    unfold consolidation_entry in Hd. unfold consolidation_succeeds in Hfail.
    rewrite Hfail in Hd. by destruct (answer_detail r2).
  - destruct (register_all_addresses_shape addresses message w)
      as (o & w' & t & l' & -> & Htrace & _).
    apply (registration_trace_delays _ _ _ _ _ Htrace).
  - apply consolidate_loop_delays.
Qed.

(** ** What is written and what is sent *)









(** * Further properties of the two scripts *)

(** ** The envelope on the wire *)

(** X1. The envelope [sign_cip30_message] returns, byte for byte: the
    array head [84], the protected header as a byte string, the map
    [{"hashed": false}], the payload and the signature as byte
    strings; the protected header is [a3 01 27 04 <address> 67
    "address" <address>], and the bytes that are signed are [84 6a
    "Signature1" <protected> 40 <payload>]. *)
Theorem sign_cip30_message_wire_format (message : string) (key : SigningKey)
    (address : Address) (w : world) :
  let address_bytes := address_to_primitive address in
  let protected :=
    [xa3; x01; x27; x04] ++ bstr address_bytes
    ++ [x67; x61; x64; x64; x72; x65; x73; x73] ++ bstr address_bytes in
  let payload := encode_utf8 message in
  let to_be_signed :=
    [x84; x6a; x53; x69; x67; x6e; x61; x74; x75; x72; x65; x31]
    ++ bstr protected ++ [x40] ++ bstr payload in
  sign_cip30_message message key address w
  = (Ret (hex ([x84] ++ bstr protected
               ++ [xa1; x66; x68; x61; x73; x68; x65; x64; xf4]
               ++ bstr payload ++ bstr (sign key to_be_signed))),
     w, [Signed key to_be_signed]).
Proof.
  intros. rewrite sign_cip30_message_run.
  unfold cip30, specified_envelope, signed_bytes.
  rewrite envelope_bytes, !protected_header_bytes, signing_structure_bytes.
  reflexivity.
Qed.

Lemma hex_digit_in n : hex_digit n ∈ hex_digits.
Proof.
  unfold hex_digit, hex_digits.
  destruct (list_ascii_of_string "0123456789abcdef" !! Z.to_nat n)
    as [c|] eqn:Hc; simpl.
  - by eapply list_elem_of_lookup_2.
  - apply list_elem_of_here.
Qed.

Lemma hex_alphabet bs : Forall (λ c, c ∈ hex_digits) (list_ascii_of_string (hex bs)).
Proof.
  induction bs as [|b bs IH]; simpl; [constructor|].
  constructor; [apply hex_digit_in|]. constructor; [apply hex_digit_in|exact IH].
Qed.

(** X2. The envelope is text of lowercase hexadecimal digits, two for
    each byte: it holds no character that would end its segment of
    the path of a URL. *)
Theorem signature_is_lowercase_hex (message : string) (key : SigningKey)
    (address : Address) (w : world) :
  ∃ s,
    result_of (sign_cip30_message message key address w) = Ret s
    ∧ Forall (λ c, c ∈ hex_digits) (list_ascii_of_string s)
    ∧ Nat.Even (String.length s)
    ∧ "/"%char ∉ list_ascii_of_string s.
Proof.
  rewrite sign_cip30_message_run. eexists. split; [reflexivity|].
  unfold cip30. split; [apply hex_alphabet|]. split.
  - rewrite hex_length. by eexists.
  - intros Hin.
    pose proof (hex_alphabet
                  (cbor2_dumps
                     (envelope_array (specified_envelope message key address))))
      as Hall.
    rewrite Forall_forall in Hall. specialize (Hall _ Hin).
    unfold hex_digits in Hall. simpl in Hall.
    repeat (apply elem_of_cons in Hall as [Hall|Hall]; [discriminate|]).
    by apply elem_of_nil in Hall.
Qed.

(** ** The three calls to the service *)

Lemma get_registration_message_returns (w : world) (r : response)
    (fields : list (string * json)) (message : string) :
  service w (served w) GetTerms = Answered r →
  body_json r = Some (JObj fields) →
  dict_get "message" fields = Some (JStr message) →
  get_registration_message w
  = (Ret message, bump w,
     [Print FetchingMessage; Http GetTerms (Answered r);
      Print (GotMessage (str_take 80 message))]).
Proof.
  intros Hans Hbody Hmsg. unfold get_registration_message.
  erewrite run_bind_match by reflexivity.
  erewrite run_bind_match by (unfold requests_call; rewrite Hans; reflexivity).
  rewrite Hbody. erewrite run_bind_match by reflexivity.
  cbv beta iota. rewrite Hmsg. erewrite run_bind_match by reflexivity.
  reflexivity.
Qed.

(** X3. [get_registration_message] does not look at the status of the
    answer: whenever the body is a JSON object with a text under
    "message", that text is returned, after one request and two lines
    of output, be the status 200, 404 or 500. *)
Theorem get_registration_message_ignores_status (w : world) (r : response)
    (fields : list (string * json)) (message : string) :
  service w (served w) GetTerms = Answered r →
  body_json r = Some (JObj fields) →
  dict_get "message" fields = Some (JStr message) →
  ∃ w',
    get_registration_message w
    = (Ret message, w',
       [Print FetchingMessage; Http GetTerms (Answered r);
        Print (GotMessage (str_take 80 message))])
    ∧ served w' = S (served w)
    ∧ snapshots w' = snapshots w.
Proof.
  intros Hans Hbody Hmsg. exists (bump w).
  by rewrite (get_registration_message_returns w r fields message).
Qed.

(** X4. How [get_registration_message] fails: the exception of [requests]
    when the service cannot be reached, a JSON error when the body is
    not JSON, a [KeyError] when the object has no "message". In each
    case one request was made and nothing was printed after the first
    line. *)
Theorem get_registration_message_failures (w : world) :
  let ans := service w (served w) GetTerms in
  let fetched := [Print FetchingMessage; Http GetTerms ans] in
  match ans with
  | Unreachable detail =>
      get_registration_message w
      = (Raise (Exn RequestException detail), bump w, fetched)
  | Answered r =>
      match body_json r with
      | None =>
          ∃ e, get_registration_message w = (Raise e, bump w, fetched)
               ∧ exn_kind e = JSONDecodeError
      | Some (JObj fields) =>
          match dict_get "message" fields with
          | None =>
              ∃ e, get_registration_message w = (Raise e, bump w, fetched)
                   ∧ exn_kind e = KeyError
          | Some _ => True
          end
      | Some _ => True
      end
  end.
Proof.
  cbv zeta. unfold get_registration_message.
  erewrite run_bind_match by reflexivity.
  destruct (service w (served w) GetTerms) as [r|detail] eqn:Hans.
  - erewrite run_bind_match
      by (unfold requests_call; rewrite Hans; reflexivity).
    destruct (body_json r) as [[| | | | | |fields]|]; try done.
    + erewrite run_bind_match by reflexivity. cbv beta iota.
      destruct (dict_get "message" fields); [done|].
      eexists. split; [reflexivity|done].
    + eexists. split; [reflexivity|done].
  - erewrite run_bind_raise
      by (unfold requests_call; rewrite Hans; reflexivity).
    reflexivity.
Qed.

(** X5. [register_address] never raises and sends one request. It reports
    success exactly when the service answers with a status that is not
    a 4xx or 5xx one; a success carries [data], a failure carries
    [error], and the mark [rate_limited] is set exactly for the status
    429. *)
Theorem register_address_never_raises (address signature pubkey : string)
    (w : world) :
  let req := Register address signature pubkey in
  let ans := service w (served w) req in
  ∃ res,
    register_address address signature pubkey w
    = (Ret res, bump w, [Http req ans])
    ∧ (success res = true
       ↔ ∃ r, ans = Answered r ∧ (status_code r < 400 ∨ 600 ≤ status_code r))
    ∧ (if success res then is_Some (data res) ∧ error res = None
       else is_Some (error res) ∧ data res = None)
    ∧ (rate_limited res = Some true
       ↔ ∃ r, ans = Answered r ∧ status_code r = 429).
Proof.
  cbv zeta. rewrite register_address_exact.
  exists (registration_result
            (service w (served w) (Register address signature pubkey))).
  split; [reflexivity|].
  destruct (service w (served w) (Register address signature pubkey))
    as [r|detail]; simpl.
  - unfold ok. destruct (status_code r =? 429) eqn:H429; simpl.
    + apply Z.eqb_eq in H429. split; [|split].
      * split; [done|]. intros (r' & [= <-] & Hs). lia.
      * eauto.
      * split; [eauto|done].
    + apply Z.eqb_neq in H429.
      destruct ((400 <=? status_code r) && (status_code r <? 600)) eqn:Hs;
        simpl.
      * apply andb_true_iff in Hs as [H1 H2].
        apply Z.leb_le in H1. apply Z.ltb_lt in H2.
        split; [|split].
        -- split; [done|]. intros (r' & [= <-] & Hs). lia.
        -- eauto.
        -- split; [done|]. by intros (r' & [= <-] & Hs).
      * apply andb_false_iff in Hs.
        split; [|split].
        -- split; [|done]. intros _. exists r. split; [done|].
           destruct Hs as [Hs|Hs]; [apply Z.leb_gt in Hs|apply Z.ltb_ge in Hs];
             lia.
        -- eauto.
        -- split; [done|]. by intros (r' & [= <-] & Hs').
  - split; [|split].
    + split; [done|]. by intros (r & ? & _).
    + eauto.
    + split; [done|]. by intros (r & ? & _).
Qed.

(** X6. [consolidate_address] never raises and sends one request. It
    reports success exactly when the service answers with a status
    that is not a 4xx or 5xx one; a failure that follows an answer
    carries the status and the first hundred characters of the URL,
    and no result is ever marked [rate_limited]. *)
Theorem consolidate_address_never_raises (destination original signature : string)
    (w : world) :
  let req := DonateTo destination original signature in
  let ans := service w (served w) req in
  ∃ res,
    consolidate_address destination original signature w
    = (Ret res, bump w, [Http req ans])
    ∧ (success res = true
       ↔ ∃ r, ans = Answered r ∧ (status_code r < 400 ∨ 600 ≤ status_code r))
    ∧ (if success res then is_Some (data res) ∧ error res = None
       else is_Some (error res) ∧ data res = None)
    ∧ rate_limited res = None
    ∧ (∀ r, ans = Answered r → success res = false →
         status res = Some (status_code r)
         ∧ result_url res = Some (str_take 100 (url req))).
Proof.
  cbv zeta. rewrite consolidate_address_exact.
  eexists. split; [reflexivity|].
  destruct (service w (served w) (DonateTo destination original signature))
    as [r|detail]; simpl.
  - unfold ok.
    destruct ((400 <=? status_code r) && (status_code r <? 600)) eqn:Hs; simpl.
    + apply andb_true_iff in Hs as [H1 H2].
      apply Z.leb_le in H1. apply Z.ltb_lt in H2.
      split; [|split; [|split]].
      * split; [done|]. intros (r' & [= <-] & Hs). lia.
      * eauto.
      * done.
      * by intros r' [= <-] _.
    + apply andb_false_iff in Hs.
      split; [|split; [|split]].
      * split; [|done]. intros _. exists r. split; [done|].
        destruct Hs as [Hs|Hs]; [apply Z.leb_gt in Hs|apply Z.ltb_ge in Hs];
          lia.
      * eauto.
      * done.
      * by intros r' _ ?.
  - split; [|split; [|split]].
    + split; [done|]. by intros (r & ? & _).
    + eauto.
    + done.
    + by intros r ?.
Qed.

(** ** The registration batch: what is counted, what is sent *)

Lemma accepted_app t t' : accepted (t ++ t') = accepted t ++ accepted t'.
Proof.
  induction t as [|e t IH]; [done|].
  destruct e as [| | |[| |] ans| | | |]; simpl; try done.
  destruct (registration_succeeds ans); simpl; by rewrite IH.
Qed.

Lemma requests_of_app t t' :
  requests_of (t ++ t') = requests_of t ++ requests_of t'.
Proof. apply omap_app. Qed.

Lemma requests_of_pause d i total : requests_of (pause d i total) = [].
Proof. unfold pause. by destruct (i <? total - 1). Qed.

Lemma accepted_pause d i total : accepted (pause d i total) = [].
Proof. unfold pause. by destruct (i <? total - 1). Qed.

(** The entries a batch adds to the ledger are those of the addresses
    the service accepted, in order; none of them was in the ledger and
    no two of them are for the same address. *)
Lemma registration_trace_new message all l t l' :
  registration_trace message all l t l' →
  ∃ new,
    l' = l ++ new
    ∧ reg_address <$> new = accepted t
    ∧ NoDup (reg_address <$> new)
    ∧ ∀ a, a ∈ reg_address <$> new → a ∉ reg_address <$> l.
Proof.
  induction 1 as [l|l line t l' _ IH|l t l' _ IH|l a ans t l' Ha Hnew Hans _ IH
                  |l a ans t l' Ha Hnew Hans _ IH].
  - exists []. rewrite app_nil_r. repeat split; [constructor|].
    intros a Ha. by apply elem_of_nil in Ha.
  - exact IH.
  - exact IH.
  - destruct IH as (new & -> & Hacc & Hnd & Hdis).
    exists new. unfold register_request. cbn [accepted]. by rewrite Hans.
  - destruct IH as (new & -> & Hacc & Hnd & Hdis).
    exists (entry_of message a :: new).
    unfold register_request. cbn [accepted]. rewrite Hans.
    rewrite <- app_assoc. split; [done|].
    rewrite fmap_cons. split; [by rewrite Hacc|].
    split.
    + constructor; [|done]. intros Hin. apply (Hdis _ Hin).
      rewrite fmap_app. apply elem_of_app. right.
      rewrite fmap_cons. apply list_elem_of_here.
    + intros b Hb Hl. apply elem_of_cons in Hb as [->|Hb].
      * by apply Hnew.
      * apply (Hdis _ Hb). rewrite fmap_app. apply elem_of_app. by left.
Qed.

(** X7. No address is accepted twice in a batch, even when the list names
    it twice; what the batch returns is the ledger it found followed
    by one entry for each accepted address, none of which the ledger
    held. So a ledger without a repeated address stays one. *)
Theorem registration_ledger_no_duplicates (addresses : list addr_info)
    (message : string) (w : world) :
  ∃ o w' t,
    register_all_addresses addresses message w = (o, w', t)
    ∧ NoDup (accepted t)
    ∧ (∀ a, a ∈ accepted t → a ∉ reg_address <$> ledger_of w)
    ∧ ∀ ledger, o = Ret ledger →
        (∃ new, ledger = ledger_of w ++ new ∧ reg_address <$> new = accepted t)
        ∧ (NoDup (reg_address <$> ledger_of w)
           → NoDup (reg_address <$> ledger)).
Proof.
  destruct (register_all_addresses_shape addresses message w)
    as (o & w' & t & l' & Hrun & Htrace & Hret).
  destruct (registration_trace_new _ _ _ _ _ Htrace)
    as (new & -> & Hacc & Hnd & Hdis).
  exists o, w', t. split; [done|]. rewrite <- Hacc.
  split; [done|]. split; [done|].
  intros ledger Ho. destruct (Hret ledger Ho) as (-> & _).
  split; [by exists new|].
  intros Hold. rewrite fmap_app. apply NoDup_app.
  split; [done|]. split; [|done].
  intros a Ha Hin. by apply (Hdis a).
Qed.

Lemma register_loop_counts message total addresses i st w :
  success_count st = len (registrations st) →
  match register_loop message total i addresses st w with
  | (Ret st', _, _) => success_count st' = len (registrations st')
  | (Raise _, _, _) => True
  end.
Proof.
  intros Hst.
  apply (register_loop_rule
           (λ st _ _, success_count st = len (registrations st))
           (λ _ _ _, True) message total addresses)
    with (t := []); [|done|done].
  clear. intros i a st w t _ Hst.
  pose proof (register_step_run message total i a st w) as Hstep.
  cbv zeta in Hstep.
  destruct (registered_addrs st) as [registered|]; [|by rewrite Hstep].
  destruct (decide (address a ∈ registered)); [by rewrite Hstep|].
  destruct (registration_succeeds _).
  - rewrite Hstep. simpl. unfold len in *. rewrite length_app. simpl. lia.
  - destruct Hstep as [l ->]. done.
Qed.

(** X8. The line that sums up a registration batch counts the ledger, not
    the batch: the number it gives is the length of the ledger that is
    returned, which is the number of entries found on disk plus the
    number of addresses accepted in this run. *)
Theorem registration_summary_counts_ledger (addresses : list addr_info)
    (message : string) (w : world) :
  ∃ o w' t,
    register_all_addresses addresses message w = (o, w', t)
    ∧ ∀ ledger, o = Ret ledger →
        last t = Some (Print (RegisteredSummary (len ledger) (len addresses)))
        ∧ len ledger = len (ledger_of w) + len (accepted t).
Proof.
  destruct (register_all_addresses_shape addresses message w)
    as (o & w' & t & l' & Hrun & Htrace & Hret).
  exists o, w', t. split; [done|]. intros ledger Ho.
  destruct (Hret ledger Ho) as (-> & _).
  destruct (registration_trace_new _ _ _ _ _ Htrace)
    as (new & -> & Hacc & _).
  split; cycle 1.
  { rewrite <- Hacc. unfold len. rewrite length_app, length_fmap. lia. }
  destruct (register_all_addresses_run addresses message w)
    as (st0 & t0 & Hload & Hall).
  rewrite Hrun in Hall.
  assert (success_count st0 = len (registrations st0)) as Hst0.
  { rewrite load_partial_run in Hload.
    destruct (snapshots w !! temp_file) as [[|loaded]|];
      by injection Hload as <- _. }
  pose proof (register_loop_counts message (len addresses) addresses 0 st0 w
                Hst0) as Hcount.
  destruct (register_loop message (len addresses) 0 addresses st0 w)
    as [[[st|e] w1] t1]; [|by subst o].
  injection Hall as -> -> ->. injection Ho as Hl.
  rewrite Hcount, Hl.
  change (Print (RegisteringAll (len addresses))
          :: t0 ++ t1
             ++ [Print (RegisteredSummary (len (ledger_of w ++ new))
                          (len addresses))])
    with ((Print (RegisteringAll (len addresses)) :: t0)
          ++ t1
             ++ [Print (RegisteredSummary (len (ledger_of w ++ new))
                          (len addresses))]).
  rewrite !app_assoc. apply last_snoc.
Qed.

Lemma register_loop_requests message total addresses i st w :
  requests_of (events_of (register_loop message total i addresses st w))
  `sublist_of` (register_request message <$> addresses).
Proof.
  revert i st w. induction addresses as [|a rest IH]; intros i st w.
  { simpl. constructor. }
  cbn [register_loop].
  pose proof (register_step_run message total i a st w) as Hstep.
  cbv zeta in Hstep.
  assert (∀ st' w' t',
            register_step message total i a st w = (Ret st', w', t') →
            requests_of t' `sublist_of` [register_request message a] →
            requests_of
              (events_of
                 ((register_step message total i a st
                     ≫= λ st, register_loop message total (i + 1) rest st) w))
            `sublist_of` (register_request message <$> a :: rest)) as Hgo.
  { intros st' w' t' Hrun Hreq. erewrite run_bind_match by exact Hrun.
    specialize (IH (i + 1) st' w').
    destruct (register_loop message total (i + 1) rest st' w')
      as [[o w2] t2].
    unfold events_of in IH |- *. cbn [snd] in IH |- *.
    rewrite requests_of_app, fmap_cons.
    change (register_request message a :: (register_request message <$> rest))
      with ([register_request message a]
            ++ (register_request message <$> rest)).
    by apply sublist_app. }
  destruct (registered_addrs st) as [registered|].
  - destruct (decide (address a ∈ registered)).
    + eapply Hgo; [exact Hstep|]. simpl. apply sublist_nil_l.
    + destruct (registration_succeeds _).
      * eapply Hgo; [exact Hstep|]. rewrite requests_of_app, requests_of_pause.
        simpl. done.
      * destruct Hstep as [l Hstep]. eapply Hgo; [exact Hstep|].
        rewrite requests_of_app, requests_of_pause. simpl. done.
  - erewrite run_bind_raise by exact Hstep. simpl. apply sublist_nil_l.
Qed.

Lemma register_all_addresses_requests addresses message w :
  requests_of (events_of (register_all_addresses addresses message w))
  `sublist_of` (register_request message <$> addresses).
Proof.
  destruct (register_all_addresses_run addresses message w)
    as (st0 & t0 & Hload & Hall).
  rewrite Hall.
  pose proof (register_loop_requests message (len addresses) addresses 0 st0 w)
    as Hloop.
  assert (requests_of t0 = []) as Ht0.
  { rewrite load_partial_run in Hload.
    destruct (snapshots w !! temp_file) as [[|loaded]|];
      by injection Hload as _ <-. }
  destruct (register_loop message (len addresses) 0 addresses st0 w)
    as [[[st|e] w1] t1]; unfold events_of in *; simpl in *.
  - rewrite !requests_of_app, Ht0. simpl. by rewrite app_nil_r.
  - by rewrite requests_of_app, Ht0.
Qed.

(** X9. The requests of a registration batch go out in the order of the
    list, at most one for each place in it: no address is tried a
    second time within a run, nothing else is requested, and there are
    at most as many requests as addresses. *)
Theorem registration_requests_in_order (addresses : list addr_info)
    (message : string) (w : world) :
  let sent :=
    requests_of (events_of (register_all_addresses addresses message w)) in
  sent `sublist_of` (register_request message <$> addresses)
  ∧ (length sent ≤ length addresses)%nat.
Proof.
  cbv zeta.
  pose proof (register_all_addresses_requests addresses message w) as Hsub.
  split; [done|]. apply sublist_length in Hsub. by rewrite length_fmap in Hsub.
Qed.

(** ** The consolidation batch: what is sent, what is summed up *)

Lemma requests_of_cons e t :
  requests_of (e :: t)
  = match e with Http req _ => req :: requests_of t | _ => requests_of t end.
Proof. by destruct e. Qed.

Lemma requests_of_prints said :
  Forall (λ e, ∃ l, e = Print l) said → requests_of said = [].
Proof.
  induction 1 as [|e said [l ->] _ IH]; [done|]. exact IH.
Qed.

Lemma consolidate_loop_requests destination derived total registered i st w :
  requests_of
    (events_of
       (consolidate_loop destination (consolidation_message destination)
          (address_map_of derived) total i registered st w))
  = omap (consolidation_request_for destination derived) registered.
Proof.
  revert i st w. induction registered as [|original rest IH]; intros i st w.
  { reflexivity. }
  cbn [consolidate_loop].
  change (omap (consolidation_request_for destination derived)
            (original :: rest))
    with (match consolidation_request_for destination derived original with
          | Some r =>
              r :: omap (consolidation_request_for destination derived) rest
          | None => omap (consolidation_request_for destination derived) rest
          end).
  pose proof (consolidate_step_run destination (address_map_of derived) total
                i original st w) as Hstep.
  cbv zeta in Hstep.
  destruct (address_map_of derived !! original) as [a|] eqn:Hmap.
  - assert (consolidation_request_for destination derived original
            = Some (DonateTo destination original
                      (cip30 (consolidation_message destination)
                         (payment_skey a) (address_obj a)))) as ->.
    { unfold consolidation_request_for. by rewrite Hmap. }
    destruct Hstep as (said & Hstep & Hsaid).
    erewrite run_bind_match by exact Hstep.
    rewrite <- (IH (i + 1)
                  (ConsState
                     (cons_success_count st
                      + (if consolidation_succeeds
                              (service w (served w)
                                 (DonateTo destination original
                                    (cip30 (consolidation_message destination)
                                       (payment_skey a) (address_obj a))))
                         then 1 else 0))
                     (cons_results st
                      ++ [consolidation_entry original
                            (service w (served w)
                               (DonateTo destination original
                                  (cip30 (consolidation_message destination)
                                     (payment_skey a) (address_obj a))))]))
                  (bump w)).
    destruct (consolidate_loop _ _ _ _ _ rest _ _) as [[o w2] t2].
    unfold events_of. cbn [snd].
    rewrite requests_of_app, !requests_of_cons.
    rewrite requests_of_app, requests_of_pause, (requests_of_prints _ Hsaid).
    reflexivity.
  - assert (consolidation_request_for destination derived original = None)
      as ->.
    { unfold consolidation_request_for. by rewrite Hmap. }
    erewrite run_bind_match by exact Hstep.
    rewrite <- (IH (i + 1)
                  (ConsState (cons_success_count st)
                     (cons_results st ++ [not_in_derived original]))
                  w).
    destruct (consolidate_loop _ _ _ _ _ rest _ _) as [[o w2] t2].
    reflexivity.
Qed.

Lemma omap_length_le {A B} (f : A → option B) (l : list A) :
  (length (omap f l) ≤ length l)%nat.
Proof.
  induction l as [|x l IH]; [done|].
  change (omap f (x :: l))
    with (match f x with Some y => y :: omap f l | None => omap f l end).
  destruct (f x); simpl; lia.
Qed.

Lemma consolidate_all_requests destination derived registered w :
  requests_of (events_of (consolidate_all destination derived registered w))
  = omap (consolidation_request_for destination derived) registered.
Proof.
  destruct (consolidate_all_run destination derived registered w)
    as (st & w1 & t & Hloop & ->).
  pose proof (consolidate_loop_requests destination derived (len registered)
                registered 0 (ConsState 0 []) w) as Hreq.
  rewrite Hloop in Hreq. unfold events_of in Hreq |- *. cbn [snd] in Hreq |- *.
  rewrite !requests_of_app, Hreq. cbn [requests_of omap app].
  by rewrite app_nil_r.
Qed.

(** X10. A consolidation batch sends exactly one request for each entry of
    the registered list that has a derived record, in the order of the
    list, and none for the others; so an address that the list names
    twice is submitted twice, and the number of requests is at most
    the length of the list. *)
Theorem consolidation_requests_exact (destination : string)
    (derived : list addr_info) (registered : list string) (w : world) :
  let sent :=
    requests_of (events_of (consolidate_all destination derived registered w)) in
  sent = omap (consolidation_request_for destination derived) registered
  ∧ (length sent ≤ length registered)%nat
  ∧ ∀ original,
      original ∈ registered →
      original ∉ address <$> derived →
      ∀ destination' signature,
        DonateTo destination' original signature ∉ sent.
Proof.
  cbv zeta. rewrite consolidate_all_requests. split; [done|]. split.
  - apply omap_length_le.
  - intros original Hin Hnot destination' signature Hsent.
    apply list_elem_of_omap in Hsent as (original' & _ & Hreq).
    unfold consolidation_request_for in Hreq.
    destruct (address_map_of derived !! original') as [a|] eqn:Hmap;
      [|done].
    injection Hreq as _ -> _.
    apply (address_map_of_None derived original) in Hnot. congruence.
Qed.

Lemma succeeded_consolidation_entry original ans :
  succeeded (consolidation_entry original ans) = consolidation_succeeds ans.
Proof.
  destruct ans as [r|detail]; [|done]. simpl.
  destruct (ok r); [done|]. by destruct (answer_detail r).
Qed.

Lemma filter_true_false {A} (f : A → bool) (l : list A) :
  len (filter (λ x, f x = true) l) + len (filter (λ x, f x = false) l) = len l.
Proof.
  unfold len. induction l as [|x l IH]; [done|].
  rewrite !filter_cons. destruct (f x) eqn:Hf.
  - rewrite decide_True, decide_False by done. simpl. lia.
  - rewrite decide_False, decide_True by done. simpl. lia.
Qed.

Lemma consolidations_accepted_app t t' :
  consolidations_accepted (t ++ t')
  = consolidations_accepted t + consolidations_accepted t'.
Proof.
  unfold consolidations_accepted, len. rewrite filter_app, length_app. lia.
Qed.

Lemma consolidations_accepted_cons e t :
  consolidations_accepted (e :: t)
  = (if is_accepted_consolidation e then 1 else 0) + consolidations_accepted t.
Proof.
  unfold consolidations_accepted, len. rewrite filter_cons.
  destruct (is_accepted_consolidation e).
  - rewrite decide_True by done. simpl. lia.
  - rewrite decide_False by done. simpl. lia.
Qed.

Lemma consolidations_accepted_nil : consolidations_accepted [] = 0.
Proof. reflexivity. Qed.

Lemma consolidations_accepted_prints said :
  Forall (λ e, ∃ l, e = Print l) said → consolidations_accepted said = 0.
Proof.
  unfold consolidations_accepted.
  induction 1 as [|e said [l ->] _ IH]; [done|].
  rewrite filter_cons. by rewrite decide_False.
Qed.

Lemma consolidations_accepted_pause d i total :
  consolidations_accepted (pause d i total) = 0.
Proof. unfold pause. by destruct (i <? total - 1). Qed.

Lemma consolidate_loop_sums destination derived total registered w :
  match consolidate_loop destination (consolidation_message destination)
          (address_map_of derived) total 0 registered (ConsState 0 []) w with
  | (Ret st, _, t) =>
      cons_success_count st
      = len (filter (λ entry, succeeded entry = true) (cons_results st))
      ∧ len (cons_results st) = len registered
      ∧ cons_success_count st = consolidations_accepted t
  | (Raise _, _, _) => False
  end.
Proof.
  pose proof (consolidate_loop_rule
                (λ done _ st _ t,
                   cons_success_count st
                   = len (filter (λ entry, succeeded entry = true)
                            (cons_results st))
                   ∧ len (cons_results st) = len done
                   ∧ cons_success_count st = consolidations_accepted t)
                destination (consolidation_message destination)
                (address_map_of derived) total) as Hrule.
  cbv beta in Hrule.
  apply (Hrule) with (registered := registered) (done := []) (i := 0)
                     (st := ConsState 0 []) (w := w) (t := []); [|done].
  clear. intros done i original st w t (Hcount & Hlen & Hacc).
  pose proof (consolidate_step_run destination (address_map_of derived) total
                i original st w) as Hstep.
  cbv zeta in Hstep.
  destruct (address_map_of derived !! original) as [a|].
  - destruct Hstep as (said & -> & Hsaid). cbn [cons_success_count cons_results].
    rewrite filter_app. unfold len in *. rewrite !length_app.
    rewrite filter_cons, filter_nil, succeeded_consolidation_entry.
    change (Print (ConsolidatingOne (i + 1) total (str_take 40 original))
            :: Signed (payment_skey a)
                 (signed_bytes (consolidation_message destination)
                    (address_obj a))
            :: Http
                 (DonateTo destination original
                    (cip30 (consolidation_message destination)
                       (payment_skey a) (address_obj a)))
                 (service w (served w)
                    (DonateTo destination original
                       (cip30 (consolidation_message destination)
                          (payment_skey a) (address_obj a))))
            :: said ++ pause 500 i total)
      with ([Print (ConsolidatingOne (i + 1) total (str_take 40 original));
             Signed (payment_skey a)
               (signed_bytes (consolidation_message destination)
                  (address_obj a));
             Http
               (DonateTo destination original
                  (cip30 (consolidation_message destination)
                     (payment_skey a) (address_obj a)))
               (service w (served w)
                  (DonateTo destination original
                     (cip30 (consolidation_message destination)
                        (payment_skey a) (address_obj a))))]
            ++ said ++ pause 500 i total).
    rewrite !consolidations_accepted_app, consolidations_accepted_pause,
      (consolidations_accepted_prints _ Hsaid).
    unfold consolidations_accepted at 2.
    rewrite !filter_cons, filter_nil. cbn [is_accepted_consolidation].
    rewrite (decide_False (P := false = true)) by done.
    destruct (consolidation_succeeds _).
    + rewrite !decide_True by done. unfold len. simpl. lia.
    + rewrite !decide_False by done. unfold len. simpl. lia.
  - rewrite Hstep. cbn [cons_success_count cons_results].
    rewrite filter_app. unfold len in *. rewrite !length_app.
    rewrite consolidations_accepted_app.
    unfold consolidations_accepted at 2. simpl. unfold len. simpl. lia.
Qed.

(** X11. The summary a consolidation batch writes adds up: [total] is the
    number of registered addresses and of results, [successful] is the
    number of results that say success, which is the number of requests
    the service accepted and the value returned, and [failed] is the
    number of the other results. *)
Theorem consolidation_summary_consistent (destination : string)
    (derived : list addr_info) (registered : list string) (w : world) :
  let run := consolidate_all destination derived registered w in
  ∃ s,
    results_file (world_of run) = Some s
    ∧ result_of run = Ret (sum_successful s)
    ∧ sum_destination s = destination
    ∧ sum_total s = len registered
    ∧ len (sum_results s) = len registered
    ∧ sum_successful s
      = len (filter (λ entry, succeeded entry = true) (sum_results s))
    ∧ sum_failed s
      = len (filter (λ entry, succeeded entry = false) (sum_results s))
    ∧ sum_successful s = consolidations_accepted (events_of run).
Proof.
  cbv zeta.
  destruct (consolidate_all_run destination derived registered w)
    as (st & w1 & t & Hloop & ->).
  pose proof (consolidate_loop_sums destination derived (len registered)
                registered w) as Hsum.
  rewrite Hloop in Hsum. destruct Hsum as (Hcount & Hlen & Hacc).
  eexists. split; [reflexivity|].
  unfold result_of, events_of.
  cbn [fst snd sum_successful sum_destination sum_total sum_results sum_failed].
  split; [done|]. split; [done|]. split; [done|]. split; [done|].
  split; [done|]. split.
  - pose proof (filter_true_false succeeded (cons_results st)). lia.
  - rewrite !consolidations_accepted_app, !consolidations_accepted_cons,
      consolidations_accepted_nil, Hacc.
    cbn [is_accepted_consolidation]. lia.
Qed.

(** ** Rules for statements about every run *)

Lemma always_ret {A} Φ (a : A) : always Φ (mret a).
Proof. intros w. constructor. Qed.

Lemma always_raise {A} Φ e : always Φ (raise (A := A) e).
Proof. intros w. constructor. Qed.

Lemma always_bind {A B} Φ (m : M A) (f : A → M B) :
  always Φ m → (∀ a, always Φ (f a)) → always Φ (m ≫= f).
Proof.
  intros Hm Hf w. specialize (Hm w).
  unfold mbind, M_bind, bind. destruct (m w) as [[[a|e] w1] t1]; [|done].
  specialize (Hf a w1). destruct (f a w1) as [[o w2] t2].
  apply Forall_app. by split.
Qed.

Lemma always_try {A} Φ (m : M A) h :
  always Φ m → (∀ e, always Φ (h e)) → always Φ (try_except m h).
Proof.
  intros Hm Hh w. specialize (Hm w).
  unfold try_except. destruct (m w) as [[[a|e] w1] t1]; [done|].
  specialize (Hh e w1). destruct (h e w1) as [[o w2] t2].
  apply Forall_app. by split.
Qed.

Lemma always_finally {A} Φ (m : M A) cleanup :
  always Φ m → always Φ cleanup → always Φ (finally m cleanup).
Proof.
  intros Hm Hc w. specialize (Hm w).
  unfold finally. destruct (m w) as [[o w1] t1].
  specialize (Hc w1). destruct (cleanup w1) as [[[[]|e] w2] t2];
    apply Forall_app; by split.
Qed.

Lemma always_emit Φ e : Φ e → always Φ (emit e).
Proof. intros He w. by constructor. Qed.

Lemma always_say Φ l : Φ (Print l) → always Φ (say l).
Proof. apply always_emit. Qed.

Lemma always_sleep Φ d : Φ (Sleep d) → always Φ (sleep d).
Proof. apply always_emit. Qed.

Lemma always_input Φ p : (∀ answer, Φ (Asked p answer)) → always Φ (input p).
Proof.
  intros Hp w. unfold input. destruct (keyboard w); by repeat constructor.
Qed.

Lemma always_set_mnemonic Φ v : always Φ (set_mnemonic v).
Proof. intros w. constructor. Qed.

Lemma always_path_exists Φ file : always Φ (path_exists file).
Proof. intros w. constructor. Qed.

Lemma always_json_load Φ file : always Φ (json_load file).
Proof.
  intros w. unfold json_load. destruct (snapshots w !! file) as [[|l]|];
    constructor.
Qed.

Lemma always_json_dump Φ file entries :
  Φ (WroteSnapshot file entries) → always Φ (json_dump file entries).
Proof. intros He w. by constructor. Qed.

Lemma always_os_remove Φ file : Φ (Removed file) → always Φ (os_remove file).
Proof.
  intros He w. unfold os_remove. destruct (snapshots w !! file);
    by repeat constructor.
Qed.

Lemma always_dump_results Φ s : Φ (WroteResults s) → always Φ (dump_results s).
Proof. intros He w. by constructor. Qed.

Lemma always_requests_call Φ req :
  (∀ ans, Φ (Http req ans)) → always Φ (requests_call req).
Proof.
  intros He w. unfold requests_call.
  destruct (service w (served w) req); by repeat constructor.
Qed.

Lemma always_index_or_raise {A} Φ (l : list A) i : always Φ (index_or_raise l i).
Proof. intros w. unfold index_or_raise. destruct (py_index l i); constructor. Qed.

Lemma always_py_int Φ s : always Φ (py_int s).
Proof. intros w. unfold py_int. destruct (parse_int s); constructor. Qed.

Lemma always_say_all Φ lines :
  (∀ l, Φ (Print l)) → always Φ (say_all lines).
Proof.
  intros Hp w. rewrite say_all_run. apply Forall_fmap, Forall_forall.
  intros l _. apply Hp.
Qed.

Lemma always_derive Φ mnemonic count :
  (∀ l, Φ (Print l)) →
  always Φ (derive_addresses_from_mnemonic mnemonic count).
Proof.
  intros Hp w. destruct (from_mnemonic mnemonic) as [hdwallet|] eqn:Hm.
  - destruct (derive_addresses_run mnemonic hdwallet count w Hm)
      as (t & -> & Ht).
    eapply Forall_impl; [exact Ht|]. by intros [l| | | | | | |].
  - rewrite (derive_addresses_invalid _ _ _ Hm). repeat constructor.
    apply Hp.
Qed.

Lemma always_load_registered_addresses Φ :
  (∀ l, Φ (Print l)) → always Φ load_registered_addresses.
Proof.
  intros Hp w. rewrite load_registered_addresses_run.
  destruct (snapshots w !! old_file) as [[|l]|]; repeat constructor;
    apply Hp.
Qed.

Lemma keeps_ret {A} J (a : A) : keeps_files J (mret a).
Proof. by intros w. Qed.

Lemma keeps_raise {A} J e : keeps_files J (raise (A := A) e).
Proof. by intros w. Qed.

Lemma keeps_bind {A B} J (m : M A) (f : A → M B) :
  keeps_files J m → (∀ a, keeps_files J (f a)) → keeps_files J (m ≫= f).
Proof.
  intros Hm Hf w Hw. specialize (Hm w Hw).
  unfold mbind, M_bind, bind. destruct (m w) as [[[a|e] w1] t1]; [|done].
  specialize (Hf a w1 Hm). by destruct (f a w1) as [[o w2] t2].
Qed.

Lemma keeps_try {A} J (m : M A) h :
  keeps_files J m → (∀ e, keeps_files J (h e)) → keeps_files J (try_except m h).
Proof.
  intros Hm Hh w Hw. specialize (Hm w Hw).
  unfold try_except. destruct (m w) as [[[a|e] w1] t1]; [done|].
  specialize (Hh e w1 Hm). by destruct (h e w1) as [[o w2] t2].
Qed.

Lemma keeps_finally {A} J (m : M A) cleanup :
  keeps_files J m → keeps_files J cleanup → keeps_files J (finally m cleanup).
Proof.
  intros Hm Hc w Hw. specialize (Hm w Hw).
  unfold finally. destruct (m w) as [[o w1] t1].
  specialize (Hc w1 Hm). by destruct (cleanup w1) as [[[[]|e] w2] t2].
Qed.

Lemma keeps_emit J e : keeps_files J (emit e).
Proof. by intros w. Qed.

Lemma keeps_say J l : keeps_files J (say l).
Proof. by intros w. Qed.

Lemma keeps_sleep J d : keeps_files J (sleep d).
Proof. by intros w. Qed.

Lemma keeps_input J p : keeps_files J (input p).
Proof. intros w Hw. unfold input. by destruct (keyboard w). Qed.

Lemma keeps_set_mnemonic J v : keeps_files J (set_mnemonic v).
Proof. by intros w. Qed.

Lemma keeps_path_exists J file : keeps_files J (path_exists file).
Proof. by intros w. Qed.

Lemma keeps_json_load J file : keeps_files J (json_load file).
Proof.
  intros w Hw. unfold json_load. by destruct (snapshots w !! file) as [[|l]|].
Qed.

Lemma keeps_json_dump (J : gmap string snapshot → option summary → Prop)
    file entries :
  (∀ s r, J s r → J (<[file := Entries entries]> s) r) →
  keeps_files J (json_dump file entries).
Proof. intros HJ w Hw. exact (HJ _ _ Hw). Qed.

Lemma keeps_os_remove (J : gmap string snapshot → option summary → Prop) file :
  (∀ s r, J s r → J (delete file s) r) → keeps_files J (os_remove file).
Proof.
  intros HJ w Hw. unfold os_remove. destruct (snapshots w !! file); [|done].
  exact (HJ _ _ Hw).
Qed.


Lemma keeps_requests_call J req : keeps_files J (requests_call req).
Proof.
  intros w Hw. unfold requests_call. by destruct (service w (served w) req).
Qed.

Lemma keeps_index_or_raise {A} J (l : list A) i :
  keeps_files J (index_or_raise l i).
Proof. intros w Hw. unfold index_or_raise. by destruct (py_index l i). Qed.

Lemma keeps_py_int J s : keeps_files J (py_int s).
Proof. intros w Hw. unfold py_int. by destruct (parse_int s). Qed.

Lemma keeps_say_all J lines : keeps_files J (say_all lines).
Proof. intros w Hw. by rewrite say_all_run. Qed.

Lemma keeps_derive J mnemonic count :
  keeps_files J (derive_addresses_from_mnemonic mnemonic count).
Proof.
  intros w Hw. destruct (from_mnemonic mnemonic) as [hdwallet|] eqn:Hm.
  - by destruct (derive_addresses_run mnemonic hdwallet count w Hm)
      as (t & -> & _).
  - by rewrite (derive_addresses_invalid _ _ _ Hm).
Qed.

Lemma keeps_load_registered_addresses J : keeps_files J load_registered_addresses.
Proof.
  intros w Hw. rewrite load_registered_addresses_run.
  by destruct (snapshots w !! old_file) as [[|l]|].
Qed.

Lemma keeps_sign_with J key data : keeps_files J (sign_with key data).
Proof. by intros w. Qed.

Lemma always_sign_with Φ key data :
  Φ (Signed key data) → always Φ (sign_with key data).
Proof. intros He w. by constructor. Qed.

Lemma keeps_sign_cip30_message J message key address :
  keeps_files J (sign_cip30_message message key address).
Proof. by intros w. Qed.

(** One step through a computation, for either kind of statement. *)
Ltac step_always :=
  first
    [ apply always_ret | apply always_raise
    | apply always_say_all; intros ?
    | apply always_derive; intros ?
    | apply always_load_registered_addresses; intros ?
    | apply always_index_or_raise | apply always_py_int
    | apply always_say | apply always_sleep | apply always_emit
    | apply always_input; intros ?
    | apply always_set_mnemonic | apply always_path_exists
    | apply always_json_load | apply always_json_dump
    | apply always_os_remove | apply always_dump_results
    | apply always_requests_call; intros ?
    | apply always_sign_with
    | apply always_bind; [|intros ?]
    | apply always_try; [|intros ?]
    | apply always_finally ].

Ltac step_keeps :=
  first
    [ apply keeps_ret | apply keeps_raise
    | apply keeps_sign_cip30_message | apply keeps_sign_with
    | apply keeps_say_all
    | apply keeps_derive
    | apply keeps_load_registered_addresses
    | apply keeps_index_or_raise | apply keeps_py_int
    | apply keeps_say | apply keeps_sleep | apply keeps_emit
    | apply keeps_input
    | apply keeps_set_mnemonic | apply keeps_path_exists
    | apply keeps_json_load
    | apply keeps_requests_call
    | apply keeps_bind; [|intros ?]
    | apply keeps_try; [|intros ?]
    | apply keeps_finally ].

Ltac solve_event :=
  first [ exact I | reflexivity | assumption
        | (left; reflexivity) | (right; reflexivity)
        | apply list_elem_of_here
        | (apply list_elem_of_further, list_elem_of_here)
        | (do 2 apply list_elem_of_further; apply list_elem_of_here)
        | by auto ].

Ltac run_always :=
  repeat first [ step_always | case_match | case_decide ];
  try solve_event.

Ltac run_keeps :=
  repeat first [ step_keeps | case_match | case_decide ].

Lemma always_sign_cip30_message Φ message key address :
  (∀ k d, Φ (Signed k d)) →
  always Φ (sign_cip30_message message key address).
Proof. intros Hs w. rewrite sign_cip30_message_run. by repeat constructor. Qed.

Lemma always_get_registration_message Φ :
  (∀ l, Φ (Print l)) → (∀ ans, Φ (Http GetTerms ans)) →
  always Φ get_registration_message.
Proof. intros Hp Hh. unfold get_registration_message. run_always. Qed.

Lemma keeps_get_registration_message J : keeps_files J get_registration_message.
Proof. unfold get_registration_message. run_keeps. Qed.

Lemma keeps_register_address J address signature pubkey :
  keeps_files J (register_address address signature pubkey).
Proof. intros w Hw. by rewrite register_address_exact. Qed.


Lemma always_consolidate_address Φ destination original signature :
  (∀ ans, Φ (Http (DonateTo destination original signature) ans)) →
  always Φ (consolidate_address destination original signature).
Proof.
  intros Hh w. rewrite consolidate_address_exact. by repeat constructor.
Qed.

Lemma keeps_slice_head J n v : keeps_files J (slice_head n v).
Proof. unfold slice_head. run_keeps. Qed.

Lemma always_slice_head Φ n v : always Φ (slice_head n v).
Proof. unfold slice_head. run_always. Qed.

(** *** The registration script *)

Lemma registration_trace_footprint message all l t l' :
  registration_trace message all l t l' → Forall registration_footprint t.
Proof.
  induction 1; repeat constructor; done.
Qed.

Lemma always_register_all_addresses addresses message :
  always registration_footprint (register_all_addresses addresses message).
Proof.
  intros w.
  destruct (register_all_addresses_shape addresses message w)
    as (o & w' & t & l' & -> & Htrace & _).
  by eapply registration_trace_footprint.
Qed.

Lemma keeps_register_loop (J : gmap string snapshot → option summary → Prop)
    message total addresses i st :
  (∀ s r entries, J s r → J (<[temp_file := Entries entries]> s) r) →
  keeps_files J (register_loop message total i addresses st).
Proof.
  intros HJ. revert i st. induction addresses as [|a rest IH]; intros i st.
  { apply keeps_ret. }
  cbn [register_loop]. apply keeps_bind; [|intros st'; apply IH].
  unfold register_step, register_attempt.
  repeat first [ apply keeps_register_address | apply keeps_slice_head
               | (apply keeps_json_dump; intros; by apply HJ)
               | step_keeps | case_match | case_decide ].
Qed.

Lemma keeps_register_all_addresses
    (J : gmap string snapshot → option summary → Prop) addresses message :
  (∀ s r entries, J s r → J (<[temp_file := Entries entries]> s) r) →
  keeps_files J (register_all_addresses addresses message).
Proof.
  intros HJ. unfold register_all_addresses, load_partial.
  repeat first [ step_keeps | case_match | case_decide
               | by apply keeps_register_loop ].
Qed.

Lemma always_bind_value {A B} Φ (Q : A → Prop) (m : M A) (f : A → M B) :
  (∀ w, match result_of (m w) with Ret a => Q a | Raise _ => True end) →
  always Φ m → (∀ a, Q a → always Φ (f a)) → always Φ (m ≫= f).
Proof.
  intros HQ Hm Hf w. specialize (Hm w). specialize (HQ w).
  unfold mbind, M_bind, bind. destruct (m w) as [[[a|e] w1] t1]; [|done].
  specialize (Hf a HQ w1). destruct (f a w1) as [[o w2] t2].
  apply Forall_app. by split.
Qed.

Lemma keeps_bind_value {A B} J (Q : A → Prop) (m : M A) (f : A → M B) :
  (∀ w, J (snapshots w) (results_file w) →
        match result_of (m w) with Ret a => Q a | Raise _ => True end) →
  keeps_files J m → (∀ a, Q a → keeps_files J (f a)) →
  keeps_files J (m ≫= f).
Proof.
  intros HQ Hm Hf w Hw. specialize (Hm w Hw). specialize (HQ w Hw).
  unfold mbind, M_bind, bind. destruct (m w) as [[[a|e] w1] t1]; [|done].
  specialize (Hf a HQ w1 Hm). by destruct (f a w1) as [[o w2] t2].
Qed.

(** *** The consolidation script *)

Lemma always_consolidate_loop destination message address_map total
    registered i st :
  startswith "addr1" destination = true →
  always consolidation_footprint
    (consolidate_loop destination message address_map total i registered st).
Proof.
  intros Hdest. revert i st.
  induction registered as [|original rest IH]; intros i st.
  { apply always_ret. }
  cbn [consolidate_loop]. apply always_bind; [|intros st'; apply IH].
  unfold consolidate_step, consolidate_attempt.
  repeat first [ (apply always_sign_cip30_message; by intros)
               | (apply always_consolidate_address; by intros)
               | apply always_slice_head
               | step_always | case_match | case_decide ];
    solve_event.
Qed.

Lemma always_consolidate_all destination derived registered :
  startswith "addr1" destination = true →
  always consolidation_footprint
    (consolidate_all destination derived registered).
Proof.
  intros Hdest. unfold consolidate_all.
  repeat first [ by apply always_consolidate_loop | step_always ];
    solve_event.
Qed.



(** X12. Whatever is in the working directory, whatever is typed and
    whatever the service answers, [main] of the consolidation script
    calls nothing but [donate_to], with a destination that starts with
    "addr1"; it waits three seconds once and half a second between
    addresses; it writes no snapshot file and removes none. *)
Theorem consolidate_main_footprint (w : world) :
  Forall consolidation_footprint (events_of (consolidate_main w)).
Proof.
  revert w. change (always consolidation_footprint consolidate_main).
  unfold consolidate_main, consolidate_run, clear_seed.
  repeat first [ by apply always_consolidate_all
               | step_always | case_match | case_decide ];
    solve_event.
Qed.


(** *** The registration script *)

Lemma returns_ret {A} (Q : A → Prop) a : Q a → returns Q (mret a).
Proof. by intros Ha w. Qed.

Lemma returns_bind {A B} (Q : B → Prop) (m : M A) (f : A → M B) :
  (∀ a, returns Q (f a)) → returns Q (m ≫= f).
Proof.
  intros Hf w. unfold mbind, M_bind, bind.
  destruct (m w) as [[[a|e] w1] t1]; [|done].
  specialize (Hf a w1). by destruct (f a w1) as [[o w2] t2].
Qed.

(** The file the registrations are saved to is one of two, and the
    new one whenever [registrations.json] is there. *)
Lemma output_file_returns (registrations : list registration) (found : bool) :
  returns (λ file, if found then file = new_file else file = old_file)
    (if found then
       say FoundExisting;;
       old_registrations ← json_load old_file;
       let '(matches, compared) :=
         count_matches old_registrations registrations in
       say (VerifiedMatches matches compared);;
       mret new_file
     else mret old_file).
Proof.
  destruct found; [|by apply returns_ret].
  apply returns_bind. intros _. apply returns_bind. intros old.
  destruct (count_matches old registrations) as [matches compared].
  apply returns_bind. intros _. by apply returns_ret.
Qed.

Lemma always_register_run mnemonic count :
  always registration_footprint (register_run mnemonic count).
Proof.
  unfold register_run.
  apply always_bind; [by apply always_derive|intros addresses].
  apply always_bind; [apply always_index_or_raise|intros first].
  apply always_bind; [|intros last].
  { repeat first [ step_always | case_match ]. }
  apply always_bind; [by apply always_say|intros _].
  apply always_bind; [by apply always_get_registration_message|intros message].
  apply always_bind; [apply always_register_all_addresses|intros registrations].
  destruct (0 <? len registrations); [|by apply always_say].
  apply always_bind; [|intros _].
  { repeat first [ step_always | case_match ]. done. }
  apply (always_bind_value _ (λ file, file = new_file ∨ file = old_file)).
  - intros w. unfold mbind at 1, M_bind at 1, bind at 1, path_exists at 1.
    pose proof (output_file_returns registrations
                  (bool_decide (is_Some (snapshots w !! old_file))) w) as Hout.
    destruct (_ w) as [[[file|e] w1] t1] in Hout |- *; [|done].
    unfold result_of in *. cbn [fst] in *.
    destruct (bool_decide _); [by left|by right].
  - repeat first [ step_always | case_match ]; solve_event.
  - intros file Hfile.
    repeat first [ step_always | case_match | case_decide ]; try solve_event.
    destruct Hfile as [-> | ->]; cbn; set_solver.
Qed.

(** X14. Whatever is in the working directory, whatever is typed and
    whatever the service answers, [main] of the registration script
    calls only [TandC] and [register]; every pause is two seconds; it
    writes no file but [registrations-partial.json],
    [registrations.json] and [registrations-new.json], and removes
    none but the first. *)
Theorem register_main_footprint (w : world) :
  Forall registration_footprint (events_of (register_main w)).
Proof.
  revert w. change (always registration_footprint register_main).
  unfold register_main, clear_seed.
  repeat first [ apply always_register_run
               | step_always | case_match | case_decide ];
    solve_event.
Qed.

Lemma keeps_register_run (x : snapshot) (r0 : option summary) mnemonic count :
  keeps_files (λ s r, s !! old_file = Some x ∧ r = r0)
    (register_run mnemonic count).
Proof.
  unfold register_run.
  apply keeps_bind; [apply keeps_derive|intros addresses].
  apply keeps_bind; [apply keeps_index_or_raise|intros first].
  apply keeps_bind; [|intros last].
  { repeat first [ step_keeps | case_match ]. }
  apply keeps_bind; [apply keeps_say|intros _].
  apply keeps_bind; [apply keeps_get_registration_message|intros message].
  apply keeps_bind; [|intros registrations].
  { apply keeps_register_all_addresses. intros s r entries [Hs Hr].
    split; [|done]. by rewrite lookup_insert_ne. }
  destruct (0 <? len registrations); [|by apply keeps_say].
  apply keeps_bind; [|intros _].
  { repeat first [ step_keeps | case_match ].
    apply keeps_os_remove. intros s r [Hs Hr].
    split; [|done]. by rewrite lookup_delete_ne. }
  apply (keeps_bind_value _ (λ file, file = new_file)).
  - intros w [Hold _].
    unfold mbind at 1, M_bind at 1, bind at 1, path_exists at 1.
    pose proof (output_file_returns registrations
                  (bool_decide (is_Some (snapshots w !! old_file))) w) as Hout.
    rewrite bool_decide_true in Hout by (by rewrite Hold).
    rewrite bool_decide_true by (by rewrite Hold).
    cbv beta iota.
    match type of Hout with
    | context [result_of ?r] => destruct r as [[[file|e] w1] t1]
    end; [exact Hout|done].
  - repeat first [ step_keeps | case_match ].
  - intros file ->.
    repeat first [ step_keeps | case_match | case_decide ].
    apply keeps_json_dump. intros s r [Hs Hr].
    split; [|done]. by rewrite lookup_insert_ne.
Qed.

(** X15. A [registrations.json] that is there when [main] of the
    registration script starts is there, unchanged, when it ends,
    whatever happens in between: the registrations of the run go to
    [registrations-new.json]. The results file of the other script is
    not touched either. *)
Theorem register_main_keeps_registrations (w : world) (x : snapshot) :
  snapshots w !! old_file = Some x →
  snapshots (world_of (register_main w)) !! old_file = Some x
  ∧ results_file (world_of (register_main w)) = results_file w.
Proof.
  intros Hold.
  assert (keeps_files (λ s r, s !! old_file = Some x ∧ r = results_file w)
            register_main) as Hkeeps.
  { unfold register_main, clear_seed.
    repeat first [ apply keeps_register_run
                 | step_keeps | case_match | case_decide ]. }
  by apply Hkeeps.
Qed.

(** ** The two [main]s around their [try] blocks *)

Lemma clear_seed_run (w : world) :
  clear_seed w = (Ret (), cleared w, [Print SeedCleared]).
Proof. reflexivity. Qed.

Lemma guarded_run (m : M ()) (w : world) :
  guarded m w
  = match m w with
    | (Ret _, w1, t1) => (Ret (), cleared w1, t1 ++ [Print SeedCleared])
    | (Raise e, w1, t1) =>
        (Ret (), cleared w1,
         t1 ++ [Print (FatalError (exn_str e)); Print SeedCleared])
    end.
Proof.
  unfold guarded, finally, try_except.
  destruct (m w) as [[[[]|e] w1] t1]; [reflexivity|].
  unfold say, emit. rewrite clear_seed_run. by rewrite <- app_assoc.
Qed.

Lemma guarded_ends (m : M ()) (w : world) :
  result_of (guarded m w) = Ret ()
  ∧ mnemonic_var (world_of (guarded m w)) = None
  ∧ last (events_of (guarded m w)) = Some (Print SeedCleared).
Proof.
  rewrite guarded_run. destruct (m w) as [[[[]|e] w1] t1];
    unfold result_of, world_of, events_of; cbn [fst snd].
  - split; [done|]. split; [done|]. apply last_snoc.
  - split; [done|]. split; [done|].
    change [Print (FatalError (exn_str e)); Print SeedCleared]
      with ([Print (FatalError (exn_str e))] ++ [Print SeedCleared]).
    rewrite app_assoc. apply last_snoc.
Qed.

(** [main] of the registration script up to its [try] statement, for
    the answer "yes", a mnemonic with an accepted number of words and
    a count between 1 and 1000. *)
Lemma register_main_reaches_try (w : world)
    (typed_ready typed_seed typed_count : string) (more_typed : list string)
    (count : Z) :
  keyboard w = typed_ready :: typed_seed :: typed_count :: more_typed →
  lower (strip typed_ready) = "yes" →
  len (split (strip typed_seed)) ∈ valid_word_counts →
  chosen_count typed_count = Some count →
  1 ≤ count ≤ 1000 →
  register_main w
  = match guarded (register_run (strip typed_seed) count)
            (at_try w more_typed (strip typed_seed)) with
    | (o, w', t) =>
        (o, w', register_prelude typed_ready typed_seed typed_count ++ t)
    end.
Proof.
  intros Hkeys Hyes Hwords Hcount Hrange.
  destruct w as [snaps results keys svc n mv]. simpl in Hkeys. subst keys.
  unfold at_try. cbn [snapshots results_file service served].
  unfold register_main.
  erewrite run_bind_match by reflexivity.
  erewrite run_bind_match by reflexivity.
  destruct (decide (lower (strip typed_ready) = "yes")); [|done].
  do 3 (erewrite run_bind_match by reflexivity).
  destruct (decide (len (split (strip typed_seed)) ∈ valid_word_counts));
    [|done].
  erewrite run_bind_match by reflexivity.
  erewrite run_bind_match by reflexivity.
  unfold chosen_count in Hcount.
  assert ((if decide (strip typed_count = "") then mret 100
           else py_int (strip typed_count))
            (World snaps results more_typed svc n (Some (strip typed_seed)))
          = (Ret count,
             World snaps results more_typed svc n (Some (strip typed_seed)),
             [])) as Hc.
  { destruct (decide (strip typed_count = "")).
    - by injection Hcount as <-.
    - unfold py_int. by rewrite Hcount. }
  erewrite run_bind_match by exact Hc.
  assert ((count <? 1) || (1000 <? count) = false) as ->.
  { apply orb_false_iff. split; [apply Z.ltb_ge|apply Z.ltb_ge]; lia. }
  fold (guarded (register_run (strip typed_seed) count)).
  destruct (guarded _ _) as [[o w'] t]. reflexivity.
Qed.

(** X16. Once the answers typed have passed the checks of [main] in
    the registration script, no exception that the [try] block raises
    gets out of it: whatever the seed derives, whatever the service
    answers and whatever the files hold, [main] returns normally, the
    name [mnemonic] is unbound and the last line printed says that the
    seed was cleared. (An interrupt from the keyboard is not a Python
    [Exception] and is not modelled.) *)
Theorem register_main_clears_seed_after_checks (w : world)
    (typed_ready typed_seed typed_count : string) (more_typed : list string)
    (count : Z) :
  keyboard w = typed_ready :: typed_seed :: typed_count :: more_typed →
  lower (strip typed_ready) = "yes" →
  len (split (strip typed_seed)) ∈ valid_word_counts →
  chosen_count typed_count = Some count →
  1 ≤ count ≤ 1000 →
  result_of (register_main w) = Ret ()
  ∧ mnemonic_var (world_of (register_main w)) = None
  ∧ last (events_of (register_main w)) = Some (Print SeedCleared).
Proof.
  intros Hkeys Hyes Hwords Hcount Hrange.
  rewrite (register_main_reaches_try w typed_ready typed_seed typed_count
             more_typed count Hkeys Hyes Hwords Hcount Hrange).
  pose proof (guarded_ends (register_run (strip typed_seed) count)
                (at_try w more_typed (strip typed_seed)))
    as (Hres & Hvar & Hlast).
  destruct (guarded _ _) as [[o w'] t].
  unfold result_of, world_of, events_of in *. cbn [fst snd] in *.
  split; [done|]. split; [done|].
  destruct t as [|e t]; [done|]. rewrite last_app. by rewrite Hlast.
Qed.

(** X17. Once [main] of the consolidation script has found a
    registered address, a destination that starts with "addr1" and a
    mnemonic with an accepted number of words, no exception that the
    [try] block raises gets out of it: [main] returns normally, the
    name [mnemonic] is unbound and the last line printed says that the
    seed was cleared. *)
Theorem consolidate_main_clears_seed_after_checks (w : world)
    (first_registered : registration) (other_registered : list registration)
    (typed_destination typed_seed : string) (more_typed : list string) :
  snapshots w !! old_file
  = Some (Entries (first_registered :: other_registered)) →
  keyboard w = typed_destination :: typed_seed :: more_typed →
  startswith "addr1" (strip typed_destination) = true →
  len (split (strip typed_seed)) ∈ valid_word_counts →
  result_of (consolidate_main w) = Ret ()
  ∧ mnemonic_var (world_of (consolidate_main w)) = None
  ∧ last (events_of (consolidate_main w)) = Some (Print SeedCleared).
Proof.
  intros Hfile Hkeys Hdest Hwords.
  rewrite (consolidate_main_reaches_try w first_registered other_registered
             typed_destination typed_seed more_typed Hfile Hkeys Hdest Hwords).
  cbv zeta.
  match goal with
  | |- context [finally (try_except ?m _) clear_seed ?w1] =>
      pose proof (guarded_ends m w1) as (Hres & Hvar & Hlast);
      change (finally (try_except m (λ e, say (FatalError (exn_str e))))
                clear_seed w1)
        with (guarded m w1)
  end.
  destruct (guarded _ _) as [[o w'] t].
  unfold result_of, world_of, events_of in *. cbn [fst snd] in *.
  split; [done|]. split; [done|].
  destruct t as [|e t]; [done|].
  rewrite last_app. cbn [last] in Hlast |- *.
  destruct t; by rewrite ?Hlast.
Qed.

(** X18. Any answer but "yes", in whatever case and with whatever blanks
    around it, ends [main] of the registration script at once: the
    seed is not asked for and nothing else happens. *)
Theorem register_main_needs_yes (w : world) (typed_ready : string)
    (more_typed : list string) :
  keyboard w = typed_ready :: more_typed →
  lower (strip typed_ready) ≠ "yes" →
  register_main w
  = (Ret (),
     World (snapshots w) (results_file w) more_typed (service w) (served w)
       (mnemonic_var w),
     [Print Banner; Asked AskReady typed_ready; Print Aborted]).
Proof.
  intros Hkeys Hno.
  destruct w as [snaps results keys svc n mv]. simpl in Hkeys. subst keys.
  unfold register_main.
  erewrite run_bind_match by reflexivity.
  erewrite run_bind_match by reflexivity.
  destruct (decide (lower (strip typed_ready) = "yes")); [done|].
  reflexivity.
Qed.

(** X19. Without a registration file, or with one that holds no entry,
    [main] of the consolidation script stops after its first lines;
    with one that does not parse it ends in the error of the parser,
    which nothing catches. In all three cases nothing is asked,
    nothing is sent and the world is as it was. *)
Theorem consolidate_main_needs_registrations (w : world) :
  match snapshots w !! old_file with
  | None =>
      consolidate_main w
      = (Ret (), w,
         [Print Banner; Print RegistrationsNotFound;
          Print NoRegisteredAddresses])
  | Some (Entries []) =>
      consolidate_main w
      = (Ret (), w,
         [Print Banner; Print (LoadedRegistrations 0); Print SkippingBackup;
          Print NoRegisteredAddresses])
  | Some Malformed =>
      ∃ e, consolidate_main w = (Raise e, w, [Print Banner])
           ∧ exn_kind e = JSONDecodeError
  | Some (Entries (_ :: _)) => True
  end.
Proof.
  pose proof (load_registered_addresses_run w) as Hload.
  unfold consolidate_main.
  erewrite run_bind_match by reflexivity.
  destruct (snapshots w !! old_file) as [[|[|first others]]|]; [| | done|].
  - erewrite run_bind_raise by exact Hload.
    eexists. split; [reflexivity|done].
  - erewrite run_bind_match by exact Hload. reflexivity.
  - erewrite run_bind_match by exact Hload. reflexivity.
Qed.

(** ** What the registration script leaves on disk *)

Lemma sample_last_run (addresses : list addr_info) (count : Z) (w : world) :
  addresses ≠ [] →
  ∃ shown,
    (if 1 <? count
     then last ← index_or_raise addresses (-1);
          mret (Some (str_take 50 (address last)))
     else mret None) w
    = (Ret shown, w, []).
Proof.
  intros Hne. destruct (1 <? count); [|by eexists].
  unfold index_or_raise, py_index. cbn [Z.leb].
  assert (0 < len addresses) as Hlen.
  { destruct addresses; [done|]. unfold len. simpl. lia. }
  assert ((0 <=? len addresses + -1) = true) as -> by (apply Z.leb_le; lia).
  destruct (addresses !! Z.to_nat (len addresses + -1)) as [x|] eqn:Hx.
  - by eexists.
  - apply lookup_ge_None in Hx. unfold len in *. lia.
Qed.

(** No file but the partial snapshot changes during a batch. *)
Lemma register_all_addresses_frame addresses message w file :
  file ≠ temp_file →
  snapshots (world_of (register_all_addresses addresses message w)) !! file
  = snapshots w !! file.
Proof.
  intros Hfile.
  apply (keeps_register_all_addresses
           (λ s _, s !! file = snapshots w !! file)); [|done].
  intros s r entries Hs. by rewrite lookup_insert_ne.
Qed.

(** The [try] block of [main] in the registration script, up to the
    point where the batch has returned a ledger with an entry and the
    partial snapshot has been removed. *)
Lemma register_run_to_save mnemonic hd count w r fields message ledger :
  from_mnemonic mnemonic = Some hd →
  1 ≤ count →
  service w (served w) GetTerms = Answered r →
  body_json r = Some (JObj fields) →
  dict_get "message" fields = Some (JStr message) →
  result_of (register_all_addresses (seed_record hd <$> range count) message
               (bump w)) = Ret ledger →
  ledger ≠ [] →
  ∃ wb before,
    snapshots wb = delete temp_file (snapshots w)
    ∧ results_file wb = results_file w
    ∧ last before = Some (Removed temp_file)
    ∧ register_run mnemonic count w
      = match
          (output_file ←
             (path_exists old_file ≫= λ found : bool,
                if found then
                  say FoundExisting;;
                  old_registrations ← json_load old_file;
                  let '(matches, compared) :=
                    count_matches old_registrations ledger in
                  say (VerifiedMatches matches compared);;
                  mret new_file
                else mret old_file);
           json_dump output_file ledger;;
           say (SavedRegistrations (len ledger) output_file);;
           say Done;;
           if decide (output_file = old_file) then mret () else say NextSteps)
            wb
        with
        | (o, w', t) => (o, w', before ++ t)
        end.
Proof.
  intros Hm Hc Hans Hbody Hmsg Hbatch Hne.
  destruct (derive_addresses_run mnemonic hd count w Hm) as (td & Hd & _).
  destruct (sample_last_run (seed_record hd <$> range count) count w)
    as [shown Hlast].
  { rewrite range_pos by lia. done. }
  assert (index_or_raise (seed_record hd <$> range count) 0 w
          = (Ret (seed_record hd 0), w, [])) as Hfirst.
  { rewrite range_pos by lia. reflexivity. }
  pose proof (get_registration_message_returns w r fields message Hans Hbody
                Hmsg) as Hterms.
  pose proof (register_all_addresses_shape (seed_record hd <$> range count)
                message (bump w)) as (o & wb & tb & l' & Hrun & _ & Hret).
  rewrite Hrun in Hbatch. unfold result_of in Hbatch. cbn [fst] in Hbatch.
  subst o. destruct (Hret ledger eq_refl) as (<- & Hledger).
  assert (snapshots wb !! temp_file = Some (Entries ledger)) as Htemp.
  { unfold ledger_of in Hledger.
    destruct (snapshots wb !! temp_file) as [[|l]|]; try done. by subst l. }
  assert ((0 <? len ledger) = true) as Hpos.
  { apply Z.ltb_lt. destruct ledger; [done|]. unfold len. simpl. lia. }
  exists (set_snapshots (delete temp_file) wb).
  eexists. (split; [|split; [|split]]); cycle 3.
  - unfold register_run.
    erewrite run_bind_match by exact Hd.
    erewrite run_bind_match by exact Hfirst.
    erewrite run_bind_match by exact Hlast.
    erewrite run_bind_match by reflexivity.
    erewrite run_bind_match by exact Hterms.
    erewrite run_bind_match by exact Hrun.
    rewrite Hpos.
    erewrite run_bind_match.
    2:{ unfold mbind, M_bind, bind, path_exists.
        rewrite Htemp. rewrite bool_decide_true by done.
        unfold os_remove. rewrite Htemp. reflexivity. }
    cbv beta.
    match goal with
    | |- _ = match ?x with _ => _ end => destruct x as [[o w'] t]
    end.
    rewrite !app_assoc. reflexivity.
  - cbn [set_snapshots snapshots]. apply map_eq. intros file.
    destruct (decide (file = temp_file)) as [->|Hfile].
    + by rewrite !lookup_delete_eq.
    + rewrite !lookup_delete_ne by done.
      pose proof (register_all_addresses_frame (seed_record hd <$> range count)
                    message (bump w) file Hfile) as Hframe.
      by rewrite Hrun in Hframe.
  - cbn [set_snapshots results_file].
    pose proof (keeps_register_all_addresses
                  (λ _ r, r = results_file w) (seed_record hd <$> range count)
                  message (λ _ _ _ H, H) (bump w) eq_refl) as Hres.
    by rewrite Hrun in Hres.
  - apply last_snoc.
Qed.

(** X20. When [registrations.json] is there but does not parse, the [try]
    block of [main] in the registration script removes the partial
    snapshot and then fails on reading the old file, before it has
    saved anything: it ends in the error of the parser, and the only
    change on disk is that [registrations-partial.json] is gone. The
    ledger of the run is in no file. *)
Theorem register_run_unreadable_registrations (mnemonic : string)
    (hd : HDWallet) (count : Z) (w : world) (r : response)
    (fields : list (string * json)) (message : string)
    (ledger : list registration) :
  from_mnemonic mnemonic = Some hd →
  1 ≤ count →
  service w (served w) GetTerms = Answered r →
  body_json r = Some (JObj fields) →
  dict_get "message" fields = Some (JStr message) →
  result_of (register_all_addresses (seed_record hd <$> range count) message
               (bump w)) = Ret ledger →
  ledger ≠ [] →
  snapshots w !! old_file = Some Malformed →
  let run := register_run mnemonic count w in
  (∃ e, result_of run = Raise e ∧ exn_kind e = JSONDecodeError)
  ∧ snapshots (world_of run) = delete temp_file (snapshots w)
  ∧ results_file (world_of run) = results_file w
  ∧ Removed temp_file ∈ events_of run.
Proof.
  intros Hm Hc Hans Hbody Hmsg Hbatch Hne Hold. cbv zeta.
  destruct (register_run_to_save mnemonic hd count w r fields message ledger
              Hm Hc Hans Hbody Hmsg Hbatch Hne)
    as (wb & before & Hs & Hr & Hlast & ->).
  assert (snapshots wb !! old_file = Some Malformed) as Hold'.
  { rewrite Hs. by rewrite lookup_delete_ne. }
  erewrite run_bind_raise.
  2:{ unfold mbind, M_bind, bind, path_exists.
      rewrite Hold'. rewrite bool_decide_true by done.
      unfold say, emit, json_load. rewrite Hold'. reflexivity. }
  unfold result_of, world_of, events_of. cbn [fst snd].
  split; [by eexists|]. split; [done|]. split; [done|].
  apply elem_of_app. left.
  destruct before as [|e before] using rev_ind; [done|].
  rewrite last_snoc in Hlast. injection Hlast as ->.
  apply elem_of_app. right. apply list_elem_of_here.
Qed.

(** X21. When [registrations.json] is absent or parses, the [try]
    block of [main] in the registration script, once the batch has
    returned a ledger with an entry, removes the partial snapshot and
    saves the ledger: to [registrations.json] when there is no such
    file, and to [registrations-new.json] when there is one, whatever
    the two have in common. Nothing else changes on disk. *)
Theorem register_run_saves_ledger (mnemonic : string)
    (hd : HDWallet) (count : Z) (w : world) (r : response)
    (fields : list (string * json)) (message : string)
    (ledger : list registration) :
  from_mnemonic mnemonic = Some hd →
  1 ≤ count →
  service w (served w) GetTerms = Answered r →
  body_json r = Some (JObj fields) →
  dict_get "message" fields = Some (JStr message) →
  result_of (register_all_addresses (seed_record hd <$> range count) message
               (bump w)) = Ret ledger →
  ledger ≠ [] →
  snapshots w !! old_file ≠ Some Malformed →
  let run := register_run mnemonic count w in
  let output_file :=
    match snapshots w !! old_file with
    | Some _ => new_file
    | None => old_file
    end in
  result_of run = Ret ()
  ∧ snapshots (world_of run)
    = <[output_file := Entries ledger]> (delete temp_file (snapshots w))
  ∧ results_file (world_of run) = results_file w
  ∧ WroteSnapshot output_file ledger ∈ events_of run.
Proof.
  intros Hm Hc Hans Hbody Hmsg Hbatch Hne Hold. cbv zeta.
  destruct (register_run_to_save mnemonic hd count w r fields message ledger
              Hm Hc Hans Hbody Hmsg Hbatch Hne)
    as (wb & before & Hs & Hr & Hlast & ->).
  assert (snapshots wb !! old_file = snapshots w !! old_file) as Hold'.
  { rewrite Hs. by rewrite lookup_delete_ne. }
  assert (∀ file,
            (json_dump file ledger;;
             say (SavedRegistrations (len ledger) file);;
             say Done;;
             if decide (file = old_file) then mret () else say NextSteps) wb
            = (Ret (), set_snapshots <[file := Entries ledger]> wb,
               WroteSnapshot file ledger
               :: Print (SavedRegistrations (len ledger) file)
               :: Print Done
               :: (if decide (file = old_file) then []
                   else [Print NextSteps]))) as Hsave.
  { intros file. unfold mbind, M_bind, bind, json_dump, say, emit.
    by destruct (decide (file = old_file)). }
  destruct (snapshots w !! old_file) as [[|old]|] eqn:Hfile; [done| |].
  - destruct (count_matches old ledger) as [matches compared] eqn:Hcm.
    erewrite run_bind_match.
    2:{ unfold mbind, M_bind, bind, path_exists.
        rewrite Hold'. rewrite bool_decide_true by done.
        unfold say, emit, json_load. rewrite Hold', Hcm.
        reflexivity. }
    rewrite Hsave.
    unfold result_of, world_of, events_of. cbn [fst snd set_snapshots snapshots results_file].
    rewrite Hs, Hr. split; [done|]. split; [done|]. split; [done|].
    apply elem_of_app. right.
    do 2 apply list_elem_of_further. apply list_elem_of_here.
  - erewrite run_bind_match.
    2:{ unfold mbind, M_bind, bind, path_exists.
        rewrite Hold'. rewrite bool_decide_false by (by intros [? ?]).
        reflexivity. }
    rewrite Hsave.
    unfold result_of, world_of, events_of. cbn [fst snd set_snapshots snapshots results_file].
    rewrite Hs, Hr. split; [done|]. split; [done|]. split; [done|].
    apply elem_of_app. right. apply list_elem_of_here.
Qed.

(** ** Errors inside the [try] blocks *)

(** X22. A mnemonic with an accepted number of words that the wallet
    library refuses: [main] of the registration script prints the
    error and the line about the seed, and returns; no request was
    made and no file was touched. *)
Theorem register_main_rejected_mnemonic (w : world)
    (typed_ready typed_seed typed_count : string) (more_typed : list string)
    (count : Z) :
  keyboard w = typed_ready :: typed_seed :: typed_count :: more_typed →
  lower (strip typed_ready) = "yes" →
  len (split (strip typed_seed)) ∈ valid_word_counts →
  chosen_count typed_count = Some count →
  1 ≤ count ≤ 1000 →
  from_mnemonic (strip typed_seed) = None →
  ∃ detail,
    register_main w
    = (Ret (),
       World (snapshots w) (results_file w) more_typed (service w) (served w)
         None,
       register_prelude typed_ready typed_seed typed_count
       ++ [Print (Deriving count); Print (FatalError detail);
           Print SeedCleared]).
Proof.
  intros Hkeys Hyes Hwords Hcount Hrange Hm.
  rewrite (register_main_reaches_try w typed_ready typed_seed typed_count
             more_typed count Hkeys Hyes Hwords Hcount Hrange).
  rewrite guarded_run. unfold register_run.
  erewrite run_bind_raise by (by apply derive_addresses_invalid).
  by eexists.
Qed.

(** X23. A mnemonic with an accepted number of words that the wallet
    library refuses: [main] of the consolidation script prints the
    error and the line about the seed, and returns; no request was
    made and no file was touched. *)
Theorem consolidate_main_rejected_mnemonic (w : world)
    (first_registered : registration) (other_registered : list registration)
    (typed_destination typed_seed : string) (more_typed : list string) :
  snapshots w !! old_file
  = Some (Entries (first_registered :: other_registered)) →
  keyboard w = typed_destination :: typed_seed :: more_typed →
  startswith "addr1" (strip typed_destination) = true →
  len (split (strip typed_seed)) ∈ valid_word_counts →
  from_mnemonic (strip typed_seed) = None →
  let registered := reg_address <$> first_registered :: other_registered in
  ∃ detail,
    consolidate_main w
    = (Ret (),
       World (snapshots w) (results_file w) more_typed (service w) (served w)
         None,
       consolidate_prelude registered typed_destination typed_seed
       ++ [Print (GotSeed (len (split (strip typed_seed))));
           Print (Deriving (len registered)); Print (FatalError detail);
           Print SeedCleared]).
Proof.
  intros Hfile Hkeys Hdest Hwords Hm registered.
  rewrite (consolidate_main_reaches_try w first_registered other_registered
             typed_destination typed_seed more_typed Hfile Hkeys Hdest Hwords).
  cbv zeta. fold registered.
  match goal with
  | |- context [finally (try_except ?m _) clear_seed ?w1] =>
      change (finally (try_except m (λ e, say (FatalError (exn_str e))))
                clear_seed w1)
        with (guarded m w1)
  end.
  rewrite guarded_run. unfold consolidate_run.
  erewrite run_bind_raise by (by apply derive_addresses_invalid).
  by eexists.
Qed.

(** X24. When the service cannot be reached for the terms, [main] of the
    registration script has derived the addresses and shown a sample;
    it prints the error and the line about the seed, and returns. One
    request was made, nothing was signed and no file was touched. *)
Theorem register_main_unreachable_service (w : world)
    (typed_ready typed_seed typed_count : string) (more_typed : list string)
    (count : Z) (hd : HDWallet) (detail : string) :
  keyboard w = typed_ready :: typed_seed :: typed_count :: more_typed →
  lower (strip typed_ready) = "yes" →
  len (split (strip typed_seed)) ∈ valid_word_counts →
  chosen_count typed_count = Some count →
  1 ≤ count ≤ 1000 →
  from_mnemonic (strip typed_seed) = Some hd →
  service w (served w) GetTerms = Unreachable detail →
  ∃ derivation sample,
    register_main w
    = (Ret (),
       World (snapshots w) (results_file w) more_typed (service w)
         (S (served w)) None,
       register_prelude typed_ready typed_seed typed_count
       ++ derivation
       ++ [Print sample; Print FetchingMessage;
           Http GetTerms (Unreachable detail); Print (FatalError detail);
           Print SeedCleared])
    ∧ Forall (λ e, is_derivation_line e = true) derivation.
Proof.
  intros Hkeys Hyes Hwords Hcount Hrange Hm Hans.
  rewrite (register_main_reaches_try w typed_ready typed_seed typed_count
             more_typed count Hkeys Hyes Hwords Hcount Hrange).
  rewrite guarded_run.
  set (w1 := at_try w more_typed (strip typed_seed)).
  destruct (derive_addresses_run (strip typed_seed) hd count w1 Hm)
    as (td & Hd & Htd).
  destruct (sample_last_run (seed_record hd <$> range count) count w1)
    as [shown Hlast].
  { rewrite range_pos by lia. done. }
  assert (index_or_raise (seed_record hd <$> range count) 0 w1
          = (Ret (seed_record hd 0), w1, [])) as Hfirst.
  { rewrite range_pos by lia. reflexivity. }
  exists td. eexists. split; [|exact Htd].
  unfold register_run.
  erewrite run_bind_match by exact Hd.
  erewrite run_bind_match by exact Hfirst.
  erewrite run_bind_match by exact Hlast.
  erewrite run_bind_match by reflexivity.
  erewrite run_bind_raise.
  2:{ unfold get_registration_message.
      erewrite run_bind_match by reflexivity.
      erewrite run_bind_raise
        by (unfold requests_call; cbn [w1 at_try service served];
            rewrite Hans; reflexivity).
      reflexivity. }
  cbn [app]. rewrite <- !app_assoc. reflexivity.
Qed.

(** ** What the two [main]s send *)

Lemma requests_of_plain t :
  Forall (λ e, is_request e = false) t → requests_of t = [].
Proof.
  induction 1 as [|e t He _ IH]; [done|].
  rewrite requests_of_cons. by destruct e.
Qed.

Lemma derivation_lines_plain t :
  Forall (λ e, is_derivation_line e = true) t →
  Forall (λ e, is_request e = false) t.
Proof.
  intros Ht. eapply Forall_impl; [exact Ht|]. by intros [| | | | | | |].
Qed.

Lemma consolidate_prelude_requests registered typed_destination typed_seed :
  requests_of (consolidate_prelude registered typed_destination typed_seed)
  = [].
Proof.
  apply requests_of_plain.
  eapply Forall_impl; [apply consolidate_prelude_plain|].
  intros e [He _]. unfold acts in He.
  by destruct (is_request e), (is_signing e).
Qed.

(** X25. When the checks of [main] in the consolidation script pass and
    the first derived address is the first registered one, [main]
    derives as many addresses as the registration file has entries and
    sends one request for each entry whose address is among them, in
    the order of the file, with the destination that was typed; an
    entry whose address comes from a higher index gets none. *)
Theorem consolidate_main_requests (w : world)
    (first_registered : registration) (other_registered : list registration)
    (typed_destination typed_seed : string) (more_typed : list string)
    (hd : HDWallet) :
  snapshots w !! old_file
  = Some (Entries (first_registered :: other_registered)) →
  keyboard w = typed_destination :: typed_seed :: more_typed →
  startswith "addr1" (strip typed_destination) = true →
  len (split (strip typed_seed)) ∈ valid_word_counts →
  from_mnemonic (strip typed_seed) = Some hd →
  address (seed_record hd 0) = reg_address first_registered →
  let registered := reg_address <$> first_registered :: other_registered in
  requests_of (events_of (consolidate_main w))
  = omap (consolidation_request_for (strip typed_destination)
            (seed_record hd <$> range (len registered)))
      registered.
Proof.
  intros Hfile Hkeys Hdest Hwords Hm Hfirst registered.
  rewrite (consolidate_main_reaches_try w first_registered other_registered
             typed_destination typed_seed more_typed Hfile Hkeys Hdest Hwords).
  cbv zeta. fold registered.
  match goal with
  | |- context [finally (try_except ?m _) clear_seed ?w1] =>
      change (finally (try_except m (λ e, say (FatalError (exn_str e))))
                clear_seed w1)
        with (guarded m w1);
      set (w0 := w1)
  end.
  rewrite guarded_run.
  destruct (derive_addresses_run (strip typed_seed) hd (len registered) w0 Hm)
    as (td & Hd & Htd).
  assert (0 < len registered) as Hpos by (unfold len; simpl; lia).
  assert (index_or_raise (seed_record hd <$> range (len registered)) 0 w0
          = (Ret (seed_record hd 0), w0, [])) as Hzero.
  { rewrite range_pos by done. reflexivity. }
  pose proof (consolidate_all_requests (strip typed_destination)
                (seed_record hd <$> range (len registered)) registered w0)
    as Hreq.
  destruct (consolidate_all_run (strip typed_destination)
              (seed_record hd <$> range (len registered)) registered w0)
    as (st & wl & tl & _ & Hall).
  rewrite Hall in Hreq.
  assert (consolidate_run (strip typed_seed) (strip typed_destination)
            registered w0
          = (Ret (),
             World (snapshots wl)
               (Some (Summary (strip typed_destination) (len registered)
                        (cons_success_count st)
                        (len registered - cons_success_count st)
                        (cons_results st)))
               (keyboard wl) (service wl) (served wl) (mnemonic_var wl),
             td ++ Print VerificationPassed
             :: ([Print (ConsolidatingAll (len registered)
                           (str_take 50 (strip typed_destination)));
                  Print (MessageToSign
                           (consolidation_message (strip typed_destination)))]
                 ++ tl
                 ++ [Print (ConsolidatedSummary (cons_success_count st)
                              (len registered));
                     WroteResults
                       (Summary (strip typed_destination) (len registered)
                          (cons_success_count st)
                          (len registered - cons_success_count st)
                          (cons_results st));
                     Print SavedResults])
             ++ [Print (if 0 <? cons_success_count st
                        then ConsolidatedSome (cons_success_count st)
                        else NoneConsolidated)])) as Hrun.
  { unfold consolidate_run.
    erewrite run_bind_match by exact Hd.
    erewrite run_bind_match by exact Hzero.
    erewrite run_bind_match by reflexivity.
    destruct (decide (address (seed_record hd 0) ≠ reg_address first_registered))
      as [Hne|_]; [done|].
    erewrite run_bind_match by reflexivity.
    erewrite run_bind_match by exact Hall.
    destruct (0 <? cons_success_count st); reflexivity. }
  rewrite Hrun. unfold events_of in Hreq |- *. cbn [snd] in Hreq |- *.
  rewrite requests_of_app, consolidate_prelude_requests.
  rewrite requests_of_cons, !requests_of_app.
  rewrite (requests_of_plain td) by (by apply derivation_lines_plain).
  rewrite requests_of_cons, requests_of_app, Hreq.
  rewrite !requests_of_cons. cbn [requests_of omap app].
  by rewrite !app_nil_r.
Qed.

Lemma register_save_plain (registrations : list registration) :
  always (λ e, is_request e = false)
    (if 0 <? len registrations then
       (path_exists temp_file ≫= λ found : bool,
          if found then os_remove temp_file else mret ());;
       output_file ←
         (path_exists old_file ≫= λ found : bool,
            if found then
              say FoundExisting;;
              old_registrations ← json_load old_file;
              let '(matches, compared) :=
                count_matches old_registrations registrations in
              say (VerifiedMatches matches compared);;
              mret new_file
            else mret old_file);
       json_dump output_file registrations;;
       say (SavedRegistrations (len registrations) output_file);;
       say Done;;
       if decide (output_file = old_file) then mret () else say NextSteps
     else say NoneRegistered).
Proof.
  repeat first [ step_always | case_match | case_decide ]; reflexivity.
Qed.

Lemma register_run_requests mnemonic hd count w r fields message :
  from_mnemonic mnemonic = Some hd →
  1 ≤ count →
  service w (served w) GetTerms = Answered r →
  body_json r = Some (JObj fields) →
  dict_get "message" fields = Some (JStr message) →
  ∃ sent,
    requests_of (events_of (register_run mnemonic count w)) = GetTerms :: sent
    ∧ sent `sublist_of`
        (register_request message <$> (seed_record hd <$> range count)).
Proof.
  intros Hm Hc Hans Hbody Hmsg.
  destruct (derive_addresses_run mnemonic hd count w Hm) as (td & Hd & Htd).
  destruct (sample_last_run (seed_record hd <$> range count) count w)
    as [shown Hlast].
  { rewrite range_pos by lia. done. }
  assert (index_or_raise (seed_record hd <$> range count) 0 w
          = (Ret (seed_record hd 0), w, [])) as Hfirst.
  { rewrite range_pos by lia. reflexivity. }
  pose proof (get_registration_message_returns w r fields message Hans Hbody
                Hmsg) as Hterms.
  pose proof (register_all_addresses_requests (seed_record hd <$> range count)
                message (bump w)) as Hsub.
  exists (requests_of
            (events_of
               (register_all_addresses (seed_record hd <$> range count)
                  message (bump w)))).
  split; [|done]. clear Hsub.
  apply derivation_lines_plain, requests_of_plain in Htd.
  unfold register_run.
  erewrite run_bind_match by exact Hd.
  erewrite run_bind_match by exact Hfirst.
  erewrite run_bind_match by exact Hlast.
  erewrite run_bind_match by reflexivity.
  erewrite run_bind_match by exact Hterms.
  destruct (register_all_addresses (seed_record hd <$> range count) message
              (bump w)) as [[[regs|e] wb] tb] eqn:Hb.
  - erewrite run_bind_match by exact Hb. cbv beta.
    match goal with
    | |- context [match ?k wb with _ => _ end] =>
        assert (Forall (λ e, is_request e = false) (events_of (k wb)))
          as Hsave by apply (register_save_plain regs wb);
        destruct (k wb) as [[o w'] t]
    end.
    apply requests_of_plain in Hsave.
    unfold events_of in Hsave |- *. cbn [snd] in Hsave |- *.
    rewrite !requests_of_app, Htd, Hsave, !requests_of_cons.
    cbn [requests_of omap app]. by rewrite app_nil_r.
  - erewrite run_bind_raise by exact Hb.
    unfold events_of. cbn [snd].
    rewrite !requests_of_app, Htd, !requests_of_cons.
    cbn [requests_of omap app]. done.
Qed.

(** X26. When the checks of [main] in the registration script pass, the
    seed is accepted and the terms are fetched, [main] sends the
    request for the terms and then requests for addresses of the seed
    at the indices below the count, in order, at most one each, so at
    most a thousand; it sends nothing else. *)
Theorem register_main_requests (w : world)
    (typed_ready typed_seed typed_count : string) (more_typed : list string)
    (count : Z) (hd : HDWallet) (r : response)
    (fields : list (string * json)) (message : string) :
  keyboard w = typed_ready :: typed_seed :: typed_count :: more_typed →
  lower (strip typed_ready) = "yes" →
  len (split (strip typed_seed)) ∈ valid_word_counts →
  chosen_count typed_count = Some count →
  1 ≤ count ≤ 1000 →
  from_mnemonic (strip typed_seed) = Some hd →
  service w (served w) GetTerms = Answered r →
  body_json r = Some (JObj fields) →
  dict_get "message" fields = Some (JStr message) →
  ∃ sent,
    requests_of (events_of (register_main w)) = GetTerms :: sent
    ∧ sent `sublist_of`
        (register_request message <$> (seed_record hd <$> range count))
    ∧ (length sent ≤ 1000)%nat.
Proof.
  intros Hkeys Hyes Hwords Hcount Hrange Hm Hans Hbody Hmsg.
  destruct (register_run_requests (strip typed_seed) hd count
              (at_try w more_typed (strip typed_seed)) r fields message)
    as (sent & Hsent & Hsub); [done|lia|done|done|done|].
  exists sent. split; [|split; [done|]].
  - rewrite (register_main_reaches_try w typed_ready typed_seed typed_count
               more_typed count Hkeys Hyes Hwords Hcount Hrange).
    rewrite guarded_run.
    destruct (register_run _ _ _) as [[[[]|e] w1] t1];
      unfold events_of in Hsent |- *; cbn [snd] in Hsent |- *;
      rewrite !requests_of_app, Hsent; unfold register_prelude;
      rewrite !requests_of_cons; cbn [requests_of omap app];
      by rewrite app_nil_r.
  - apply sublist_length in Hsub. rewrite !length_fmap in Hsub.
    unfold range in Hsub. rewrite length_fmap, length_seq in Hsub. lia.
Qed.


(** ** Pacing *)

Lemma delays_of_app t t' : delays_of (t ++ t') = delays_of t ++ delays_of t'.
Proof. apply omap_app. Qed.

Lemma delays_of_cons e t :
  delays_of (e :: t)
  = match e with Sleep d => d :: delays_of t | _ => delays_of t end.
Proof. by destruct e. Qed.

Lemma delays_of_prints said :
  Forall (λ e, ∃ l, e = Print l) said → delays_of said = [].
Proof. induction 1 as [|e said [l ->] _ IH]; [done|]. exact IH. Qed.

Lemma delays_of_pause d i total :
  delays_of (pause d i total) = if i <? total - 1 then [d] else [].
Proof. unfold pause. by destruct (i <? total - 1). Qed.

(** *** Paced traces *)

Lemma quiet_delays body : Forall quiet body → delays_of body = [].
Proof.
  induction 1 as [|e body [_ He] _ IH]; [done|].
  rewrite delays_of_cons. by destruct e.
Qed.

Lemma passed_over_app t t' : passed_over (t ++ t') = (passed_over t + passed_over t')%nat.
Proof. unfold passed_over. by rewrite filter_app, length_app. Qed.

Lemma passed_over_cons e t :
  passed_over (e :: t)
  = ((if is_passed_over e then 1 else 0) + passed_over t)%nat.
Proof.
  unfold passed_over. rewrite filter_cons. destruct (is_passed_over e).
  - by rewrite decide_True.
  - by rewrite decide_False.
Qed.

Lemma quiet_passed_over body : Forall quiet body → passed_over body = 0%nat.
Proof.
  induction 1 as [|e body [He _] _ IH]; [done|].
  rewrite passed_over_cons, He. exact IH.
Qed.

Lemma passed_over_pause d i total : passed_over (pause d i total) = 0%nat.
Proof. unfold pause. by destruct (i <? total - 1). Qed.

(** In a paced trace the event after the line of an address that is
    passed over is the line of the next address, if there is one. *)
Lemma paced_lines d total skip i anns t :
  Forall (λ ann, is_passed_over (Print ann) = false) anns →
  paced d total skip i anns t →
  (t = [] ∨ ∃ l t', t = Print l :: t')
  ∧ ∀ k e, t !! k = Some e → is_passed_over e = true →
      S k = length t ∨ ∃ l, t !! S k = Some (Print l).
Proof.
  intros Hanns Hp. induction Hp as [i|i ann anns t _ IH
                                    |i ann anns body t Hbody _ IH].
  - split; [by left|]. intros k e Hk. done.
  - apply Forall_cons in Hanns as [Hann Hanns].
    destruct (IH Hanns) as (Hhead & Hnext).
    split; [right; eauto|].
    intros [|[|k]] e Hk He; simpl in Hk.
    + injection Hk as <-. congruence.
    + destruct Hhead as [->|(l & t' & ->)]; [by left|right; eauto].
    + destruct (Hnext k e Hk He) as [Hend|(l & Hl)].
      * left. simpl. lia.
      * right. by exists l.
  - apply Forall_cons in Hanns as [Hann Hanns].
    destruct (IH Hanns) as (Hhead & Hnext).
    split; [right; eauto|].
    intros [|k] e Hk He; simpl in Hk.
    { injection Hk as <-. congruence. }
    rewrite app_assoc in Hk |- *.
    assert (Forall (λ e, is_passed_over e = false)
              (body ++ pause d i total)) as Hfront.
    { apply Forall_app. split.
      - eapply Forall_impl; [exact Hbody|]. by intros ? [? _].
      - unfold pause. destruct (i <? total - 1); by repeat constructor. }
    destruct (decide (k < length (body ++ pause d i total))%nat) as [Hlt|Hge].
    + rewrite lookup_app_l in Hk by done.
      rewrite Forall_forall in Hfront.
      apply list_elem_of_lookup_2 in Hk. specialize (Hfront e Hk). congruence.
    + rewrite lookup_app_r in Hk by lia.
      destruct (Hnext _ e Hk He) as [Hend|(l & Hl)].
      * left. simpl. rewrite length_app. lia.
      * right. exists l.
        change ((Print ann :: (body ++ pause d i total) ++ t) !! S (S k))
          with (((body ++ pause d i total) ++ t) !! S k).
        rewrite lookup_app_r by lia.
        by replace (S k - length (body ++ pause d i total))%nat
          with (S (k - length (body ++ pause d i total))) by lia.
Qed.

(** In a paced trace over the whole list nothing pauses from the line
    of the last address on; before it, every address was passed over
    or was followed by one pause. *)
Lemma paced_last d total skip i anns t front ann :
  is_passed_over (Print skip) = true →
  Forall (λ ann, is_passed_over (Print ann) = false) anns →
  paced d total skip i anns t →
  total = i + len anns →
  anns = front ++ [ann] →
  ∃ before after,
    t = before ++ Print ann :: after
    ∧ delays_of after = []
    ∧ (length (delays_of before) + passed_over before = length front)%nat.
Proof.
  intros Hskip Hanns Hp. revert front.
  induction Hp as [i|i ann' anns t Hp IH
                   |i ann' anns body t Hbody Hp IH]; intros front Htotal Hsplit.
  - by destruct front.
  - apply Forall_cons in Hanns as [Hann Hanns].
    destruct front as [|f front]; simpl in Hsplit.
    + injection Hsplit as -> ->. inversion Hp; subst.
      exists [], [Print skip]. by repeat split.
    + injection Hsplit as <- ->.
      destruct (IH Hanns front) as (before & after & -> & Hafter & Hcount);
        [unfold len in *; simpl in Htotal; lia|done|].
      exists (Print ann' :: Print skip :: before), after.
      split; [done|]. split; [done|].
      rewrite !delays_of_cons, !passed_over_cons, Hann, Hskip. simpl. lia.
  - apply Forall_cons in Hanns as [Hann Hanns].
    destruct front as [|f front]; simpl in Hsplit.
    + injection Hsplit as -> ->. inversion Hp; subst.
      exists [], (body ++ pause d i (i + len [ann]) ++ []).
      split; [done|]. split; [|done].
      rewrite !delays_of_app, (quiet_delays _ Hbody), delays_of_pause.
      assert ((i <? i + len [ann] - 1) = false) as ->
        by (apply Z.ltb_ge; unfold len; simpl; lia).
      done.
    + injection Hsplit as <- ->.
      destruct (IH Hanns front) as (before & after & -> & Hafter & Hcount);
        [unfold len in *; simpl in Htotal; lia|done|].
      exists (Print ann' :: body ++ pause d i total ++ before), after.
      split; [by rewrite <- app_comm_cons, <- !app_assoc|]. split; [done|].
      rewrite delays_of_cons, passed_over_cons, Hann.
      rewrite !delays_of_app, !passed_over_app, !length_app.
      rewrite (quiet_delays _ Hbody), (quiet_passed_over _ Hbody).
      rewrite passed_over_pause, delays_of_pause.
      assert ((i <? total - 1) = true) as ->.
      { apply Z.ltb_lt. unfold len in Htotal. simpl in Htotal.
        rewrite length_app in Htotal. simpl in Htotal. lia. }
      simpl. lia.
Qed.

Lemma line_follows_app t1 t2 :
  line_follows t1 → line_follows t2 →
  (t2 = [] ∨ ∃ l t', t2 = Print l :: t') →
  line_follows (t1 ++ t2).
Proof.
  intros H1 H2 Hhead k e Hk He.
  destruct (decide (k < length t1)%nat) as [Hlt|Hge].
  - rewrite lookup_app_l in Hk by done.
    destruct (H1 k e Hk He) as [Hend|(l & Hl)].
    + destruct Hhead as [->|(l & t' & ->)].
      * left. rewrite length_app. simpl. lia.
      * right. exists l. rewrite lookup_app_r by lia.
        by replace (S k - length t1)%nat with 0%nat by lia.
    + right. exists l. rewrite lookup_app_l; [done|].
      by eapply lookup_lt_Some.
  - rewrite lookup_app_r in Hk by lia.
    destruct (H2 _ e Hk He) as [Hend|(l & Hl)].
    + left. rewrite length_app. lia.
    + right. exists l. rewrite lookup_app_r by lia.
      by replace (S k - length t1)%nat with (S (k - length t1)) by lia.
Qed.

Lemma line_follows_plain t :
  Forall (λ e, is_passed_over e = false) t → line_follows t.
Proof.
  intros Ht k e Hk He. rewrite Forall_forall in Ht.
  apply list_elem_of_lookup_2 in Hk. specialize (Ht e Hk). congruence.
Qed.

(** After lines of output, and before a line of output and events
    none of which is the line of an address passed over, a trace in
    which lines follow has a line after every address that is passed
    over. *)
Lemma line_follows_closed pre t s post :
  Forall (λ e, is_passed_over e = false) pre →
  line_follows t →
  (t = [] ∨ ∃ l t', t = Print l :: t') →
  Forall (λ e, is_passed_over e = false) (Print s :: post) →
  ∀ k e, (pre ++ t ++ Print s :: post) !! k = Some e →
    is_passed_over e = true →
    ∃ l, (pre ++ t ++ Print s :: post) !! S k = Some (Print l).
Proof.
  intros Hpre Ht Hhead Hpost k e Hk He.
  assert (line_follows (pre ++ t ++ Print s :: post)) as Hall.
  { apply line_follows_app; [by apply line_follows_plain| |].
    - apply line_follows_app; [done| |right; eauto].
      by apply line_follows_plain.
    - destruct Hhead as [->|(l & t' & ->)]; right; eauto. }
  destruct (Hall k e Hk He) as [Hend|Hl]; [|done].
  exfalso. rewrite app_assoc in Hk, Hend.
  rewrite length_app in Hend. simpl in Hend.
  rewrite lookup_app_r in Hk by lia.
  apply list_elem_of_lookup_2 in Hk.
  rewrite Forall_forall in Hpost. specialize (Hpost e Hk). congruence.
Qed.

Lemma registering_lines_plain total i addresses :
  Forall (λ ann, is_passed_over (Print ann) = false)
    (registering_lines total i addresses).
Proof.
  revert i. induction addresses as [|a rest IH]; intros i; simpl;
    by constructor.
Qed.

Lemma registering_lines_last total i front a :
  registering_lines total i (front ++ [a])
  = registering_lines total i front
    ++ [RegisteringOne (i + len (front ++ [a])) total
          (str_take 30 (address a))].
Proof.
  revert i. induction front as [|f front IH]; intros i.
  - replace (i + len ([] ++ [a])) with (i + 1) by (unfold len; simpl; lia).
    reflexivity.
  - cbn [registering_lines app]. rewrite IH.
    replace (i + len (f :: front ++ [a])) with (i + 1 + len (front ++ [a]))
      by (unfold len; simpl; lia).
    reflexivity.
Qed.

Lemma registering_lines_length total i addresses :
  length (registering_lines total i addresses) = length addresses.
Proof.
  revert i. induction addresses as [|a rest IH]; intros i; simpl; [done|].
  by rewrite IH.
Qed.

Lemma always_register_address Φ address signature pubkey :
  (∀ ans, Φ (Http (Register address signature pubkey) ans)) →
  always Φ (register_address address signature pubkey).
Proof.
  intros Hh w. rewrite register_address_exact. by repeat constructor.
Qed.

Lemma register_attempt_quiet message a registered st :
  always quiet (register_attempt message a registered st).
Proof.
  unfold register_attempt.
  repeat first [ (apply always_sign_cip30_message; by intros)
               | (apply always_register_address; by intros)
               | apply always_slice_head
               | step_always | case_match ]; done.
Qed.

(** One iteration of the registration loop, once the ledger is bound:
    the line of the address, then the line that it is passed over, or
    an attempt and the pause of the position. *)
Lemma register_step_paced message total i a st w registered :
  registered_addrs st = Some registered →
  ∃ st' w' body,
    register_step message total i a st w
    = (Ret st', w',
       Print (RegisteringOne (i + 1) total (str_take 30 (address a))) :: body)
    ∧ is_Some (registered_addrs st')
    ∧ (body = [Print AlreadyRegistered]
       ∨ ∃ tried, body = tried ++ pause 2000 i total ∧ Forall quiet tried).
Proof.
  intros Hbound. unfold register_step.
  erewrite run_bind_match by reflexivity.
  rewrite Hbound. erewrite run_bind_match by reflexivity.
  destruct (decide (address a ∈ registered)).
  { eexists _, _, _. split; [reflexivity|]. split; [by rewrite Hbound|].
    by left. }
  pose proof (register_attempt_quiet message a registered st w) as Hquiet.
  pose proof (register_attempt_run message a registered st w) as Hrun.
  cbv zeta in Hrun.
  destruct (registration_succeeds _).
  - rewrite Hrun in Hquiet. erewrite run_bind_match by exact Hrun.
    unfold pause. destruct (i <? total - 1);
      (eexists _, _, _; split; [reflexivity|]; split; [done|]; right;
       eexists; split; [reflexivity|exact Hquiet]).
  - destruct Hrun as [l Hrun].
    rewrite Hrun in Hquiet. erewrite run_bind_match by exact Hrun.
    unfold pause. destruct (i <? total - 1);
      (eexists _, _, _; split; [reflexivity|]; split; [by rewrite Hbound|];
       right; eexists; split; [reflexivity|exact Hquiet]).
Qed.

Lemma register_loop_paced message total addresses i st w registered :
  registered_addrs st = Some registered →
  ∃ st' w' t,
    register_loop message total i addresses st w = (Ret st', w', t)
    ∧ paced 2000 total AlreadyRegistered i
        (registering_lines total i addresses) t.
Proof.
  revert i st w registered.
  induction addresses as [|a rest IH]; intros i st w registered Hbound.
  { eexists _, _, _. split; [reflexivity|]. constructor. }
  destruct (register_step_paced message total i a st w registered Hbound)
    as (st1 & w1 & body & Hstep & [registered1 Hbound1] & Hbody).
  destruct (IH (i + 1) st1 w1 registered1 Hbound1)
    as (st' & w' & t & Hrest & Hpaced).
  eexists _, _, _. split.
  { cbn [register_loop]. erewrite run_bind_match by exact Hstep.
    rewrite Hrest. reflexivity. }
  cbn [registering_lines].
  destruct Hbody as [->|(tried & -> & Htried)].
  - by apply paced_passed.
  - rewrite <- app_comm_cons, <- app_assoc. by apply paced_tried.
Qed.

Lemma paced_delays d total skip i anns t :
  paced d total skip i anns t → Forall (λ x, x = d) (delays_of t).
Proof.
  induction 1 as [i|i ann anns t _ IH
                  |i ann anns body t Hbody _ IH].
  - constructor.
  - rewrite !delays_of_cons. exact IH.
  - rewrite delays_of_cons, !delays_of_app, (quiet_delays _ Hbody),
      delays_of_pause.
    destruct (i <? total - 1); [by constructor|exact IH].
Qed.

(** A paced loop between the lines [pre] and the closing events: the
    pauses have the one length, a line follows every address that is
    passed over, and from the line of the last address on there is no
    pause, while each address before it was passed over or paused
    for. *)
Lemma paced_whole d skip anns t pre s post :
  is_passed_over (Print skip) = true →
  Forall (λ ann, is_passed_over (Print ann) = false) anns →
  paced d (len anns) skip 0 anns t →
  Forall (λ ann, is_passed_over (Print ann) = false) pre →
  Forall quiet (Print s :: post) →
  let full := (Print <$> pre) ++ t ++ Print s :: post in
  Forall (λ x, x = d) (delays_of full)
  ∧ (∀ k e, full !! k = Some e → is_passed_over e = true →
       ∃ l, full !! S k = Some (Print l))
  ∧ (anns = [] → delays_of full = [])
  ∧ ∀ front ann, anns = front ++ [ann] →
      ∃ before after,
        full = before ++ Print ann :: after
        ∧ delays_of after = []
        ∧ (length (delays_of before) + passed_over before = length front)%nat.
Proof.
  intros Hskip Hanns Hp Hpre Hpost full.
  assert (Forall quiet (Print <$> pre)) as Hpreq.
  { apply Forall_fmap. eapply Forall_impl; [exact Hpre|].
    intros l Hl. by split. }
  assert (delays_of full = delays_of t) as Hdelays.
  { subst full.
    by rewrite !delays_of_app, (quiet_delays _ Hpreq), (quiet_delays _ Hpost),
      app_nil_r. }
  split; [|split; [|split]].
  - rewrite Hdelays. by eapply paced_delays.
  - destruct (paced_lines _ _ _ _ _ _ Hanns Hp) as [Hhead Hfollow].
    apply line_follows_closed; [|exact Hfollow|exact Hhead|].
    + eapply Forall_impl; [exact Hpreq|]. by intros e [He _].
    + eapply Forall_impl; [exact Hpost|]. by intros e [He _].
  - intros ->. rewrite Hdelays. by inversion Hp.
  - intros front ann Hsplit.
    destruct (paced_last _ _ _ _ _ _ front ann Hskip Hanns Hp) as
      (before & after & -> & Hafter & Hcount); [lia|done|].
    exists ((Print <$> pre) ++ before), (after ++ Print s :: post).
    split; [subst full; by rewrite <- !app_assoc|]. split.
    + by rewrite delays_of_app, Hafter, (quiet_delays _ Hpost).
    + by rewrite delays_of_app, passed_over_app, (quiet_delays _ Hpreq),
        (quiet_passed_over _ Hpreq).
Qed.

Lemma consolidating_lines_plain total i registered :
  Forall (λ ann, is_passed_over (Print ann) = false)
    (consolidating_lines total i registered).
Proof.
  revert i. induction registered as [|a rest IH]; intros i; simpl;
    by constructor.
Qed.

Lemma consolidating_lines_last total i front original :
  consolidating_lines total i (front ++ [original])
  = consolidating_lines total i front
    ++ [ConsolidatingOne (i + len (front ++ [original])) total
          (str_take 40 original)].
Proof.
  revert i. induction front as [|f front IH]; intros i.
  - replace (i + len ([] ++ [original])) with (i + 1)
      by (unfold len; simpl; lia).
    reflexivity.
  - cbn [consolidating_lines app]. rewrite IH.
    replace (i + len (f :: front ++ [original]))
      with (i + 1 + len (front ++ [original]))
      by (unfold len; simpl; lia).
    reflexivity.
Qed.

Lemma consolidating_lines_length total i registered :
  length (consolidating_lines total i registered) = length registered.
Proof.
  revert i. induction registered as [|a rest IH]; intros i; simpl; [done|].
  by rewrite IH.
Qed.

Lemma consolidate_attempt_quiet destination message original a st :
  always quiet (consolidate_attempt destination message original a st).
Proof.
  unfold consolidate_attempt.
  repeat first [ (apply always_sign_cip30_message; by intros)
               | (apply always_consolidate_address; by intros)
               | apply always_slice_head
               | step_always | case_match ]; done.
Qed.

(** One iteration of the consolidation loop: the line of the address,
    then the line that it has no derived record, or an attempt and the
    pause of the position. *)
Lemma consolidate_step_paced destination derived total i original st w :
  ∃ st' w' body,
    consolidate_step destination (consolidation_message destination)
      (address_map_of derived) total i original st w
    = (Ret st', w',
       Print (ConsolidatingOne (i + 1) total (str_take 40 original)) :: body)
    ∧ (body = [Print NotInDerived]
       ∨ ∃ tried, body = tried ++ pause 500 i total ∧ Forall quiet tried).
Proof.
  unfold consolidate_step.
  erewrite run_bind_match by reflexivity.
  destruct (address_map_of derived !! original) as [a|].
  2:{ eexists _, _, _. split; [reflexivity|]. by left. }
  pose proof (consolidate_attempt_quiet destination
                (consolidation_message destination) original a st w) as Hquiet.
  destruct (consolidate_attempt_run destination original a st w)
    as (said & Hrun & _).
  rewrite Hrun in Hquiet. erewrite run_bind_match by exact Hrun.
  unfold pause. destruct (i <? total - 1);
    (eexists _, _, _; split; [reflexivity|]; right;
     eexists; split; [reflexivity|exact Hquiet]).
Qed.

Lemma consolidate_loop_paced destination derived total registered i st w :
  ∃ st' w' t,
    consolidate_loop destination (consolidation_message destination)
      (address_map_of derived) total i registered st w = (Ret st', w', t)
    ∧ paced 500 total NotInDerived i
        (consolidating_lines total i registered) t.
Proof.
  revert i st w.
  induction registered as [|original rest IH]; intros i st w.
  { eexists _, _, _. split; [reflexivity|]. constructor. }
  destruct (consolidate_step_paced destination derived total i original st w)
    as (st1 & w1 & body & Hstep & Hbody).
  destruct (IH (i + 1) st1 w1) as (st' & w' & t & Hrest & Hpaced).
  eexists _, _, _. split.
  { cbn [consolidate_loop]. erewrite run_bind_match by exact Hstep.
    rewrite Hrest. reflexivity. }
  cbn [consolidating_lines].
  destruct Hbody as [->|(tried & -> & Htried)].
  - by apply paced_passed.
  - rewrite <- app_comm_cons, <- app_assoc. by apply paced_tried.
Qed.

(** X28. The registration batch sleeps only between addresses. Every
    sleep lasts 2000 milliseconds and there are at most as many as
    addresses but one. The line that an address is already registered
    is followed at once by a line of output: a skipped address costs
    no sleep. A batch that ends in an error slept not at all. A batch
    that returns ran, between its header and its tally, the paced
    loop: per address its line, then either the line that it is
    skipped, or an attempt that neither sleeps nor skips and, unless
    the address is the last, one sleep. So nothing sleeps from the
    line of the last address on, and before that line the sleeps and
    the skipped addresses together count the addresses before the
    last: each earlier address was either skipped or slept for
    once. *)
Theorem registration_pauses_between_addresses (addresses : list addr_info)
    (message : string) (w : world) :
  let run := register_all_addresses addresses message w in
  let t := events_of run in
  let n := len addresses in
  Forall (λ d, d = 2000) (delays_of t)
  ∧ (length (delays_of t) ≤ length addresses - 1)%nat
  ∧ (∀ k, t !! k = Some (Print AlreadyRegistered) →
       ∃ l, t !! S k = Some (Print l))
  ∧ match result_of run with
    | Raise _ => delays_of t = []
    | Ret _ =>
        (∃ before loop after,
           t = before ++ loop ++ after
           ∧ Forall quiet before ∧ Forall quiet after
           ∧ paced 2000 n AlreadyRegistered 0
               (registering_lines n 0 addresses) loop)
        ∧ (addresses = [] → delays_of t = [])
        ∧ ∀ front a, addresses = front ++ [a] →
            ∃ before after,
              t = before
                  ++ Print (RegisteringOne n n (str_take 30 (address a)))
                  :: after
              ∧ delays_of after = []
              ∧ (length (delays_of before) + passed_over before
                 = length front)%nat
    end.
Proof.
  cbv zeta.
  destruct (register_all_addresses_run addresses message w)
    as (st0 & t0 & Hload & ->).
  rewrite load_partial_run in Hload.
  match goal with
  | |- ?G =>
      assert (∀ registered loaded_lines,
                registered_addrs st0 = Some registered →
                t0 = Print <$> loaded_lines →
                Forall (λ l, is_passed_over (Print l) = false) loaded_lines →
                G) as Hbound
  end; [intros registered loaded_lines Hb -> Hlines|].
  { destruct (register_loop_paced message (len addresses) addresses 0 st0 w
                registered Hb) as (st' & w' & t & -> & Hp).
    unfold events_of, result_of. cbn [fst snd].
    assert (len addresses = len (registering_lines (len addresses) 0 addresses))
      as Hlen by (unfold len; by rewrite registering_lines_length).
    pose proof Hp as Hloop. rewrite Hlen in Hp at 1.
    pose proof (registering_lines_plain (len addresses) 0 addresses) as Hanns.
    destruct (paced_whole 2000 AlreadyRegistered _ t
                (RegisteringAll (len addresses) :: loaded_lines)
                (RegisteredSummary (success_count st') (len addresses)) []
                eq_refl Hanns Hp) as (Hd & Hnext & Hnone & Hlast).
    { by constructor. }
    { by repeat constructor. }
    rewrite fmap_cons in Hd, Hnext, Hnone, Hlast.
    rewrite <- app_comm_cons in Hd, Hnext, Hnone, Hlast.
    assert (∀ front a, addresses = front ++ [a] →
              ∃ before after,
                Print (RegisteringAll (len addresses))
                :: (Print <$> loaded_lines) ++ t
                   ++ [Print (RegisteredSummary (success_count st')
                                (len addresses))]
                = before
                  ++ Print (RegisteringOne (len addresses) (len addresses)
                              (str_take 30 (address a)))
                  :: after
                ∧ delays_of after = []
                ∧ (length (delays_of before) + passed_over before
                   = length front)%nat) as Hshape.
    { intros front a Hsplit.
      destruct (Hlast (registering_lines (len addresses) 0 front)
                  (RegisteringOne (len addresses) (len addresses)
                     (str_take 30 (address a))))
        as (before & after & Heq & Hafter & Hcount).
      { rewrite Hsplit at 2. rewrite registering_lines_last, <- Hsplit.
        by rewrite Z.add_0_l. }
      rewrite registering_lines_length in Hcount. eauto. }
    split; [exact Hd|]. split.
    { destruct (decide (addresses = [])) as [Hnil|Hsome].
      - rewrite Hnone; [simpl; lia|by rewrite Hnil].
      - destruct (exists_last Hsome) as (front & a & Hsplit).
        destruct (Hshape front a Hsplit) as (before & after & -> & Ha & Hc).
        rewrite delays_of_app, delays_of_cons, Ha, app_nil_r.
        rewrite Hsplit, length_app. simpl. lia. }
    split; [intros k Hk; by eapply Hnext|].
    split; [|split; [|exact Hshape]].
    - exists (Print (RegisteringAll (len addresses)) :: (Print <$> loaded_lines)),
        t, [Print (RegisteredSummary (success_count st') (len addresses))].
      split; [by rewrite <- app_comm_cons|]. split; [|split; [|exact Hloop]].
      + constructor; [done|]. apply Forall_fmap.
        eapply Forall_impl; [exact Hlines|]. by intros l Hl.
      + by repeat constructor.
    - intros Hnil. apply Hnone. by rewrite Hnil. }
  destruct (snapshots w !! temp_file) as [[|loaded]|];
    injection Hload as <- <-.
  - destruct addresses as [|a rest].
    + cbn [register_loop]. unfold events_of, result_of. simpl.
      split; [constructor|]. split; [lia|].
      split; [by intros [|[|k]]|]. split; [|split; [done|]].
      * exists [Print (RegisteringAll (len (@nil addr_info)))], [],
          [Print (RegisteredSummary 0 (len (@nil addr_info)))].
        split; [done|]. split; [by repeat constructor|].
        split; [by repeat constructor|constructor].
      * intros front a Hsplit. by destruct front.
    + cbn [register_loop].
      pose proof (register_step_run message (len (a :: rest)) 0 a
                    (RegState [] None 0) w) as Hstep.
      cbv zeta in Hstep. cbn [registered_addrs] in Hstep.
      erewrite run_bind_raise by exact Hstep.
      unfold events_of, result_of. simpl.
      split; [constructor|]. split; [lia|].
      split; [by intros [|[|k]]|]. done.
  - eapply (Hbound _ [FoundPrevious (len loaded)]);
      [reflexivity|reflexivity|].
    by repeat constructor.
  - eapply (Hbound _ []); [reflexivity|reflexivity|constructor].
Qed.

(** X29. The consolidation batch sleeps only between addresses. Every
    sleep lasts 500 milliseconds and there are at most as many as
    registered addresses but one. The line that an address has no
    derived record is followed at once by a line of output: such an
    address costs no sleep. Between its two header lines and its
    tally the batch runs the paced loop: per address its line, then
    either the line that it has no derived record, or an attempt that
    neither sleeps nor passes over and, unless the address is the
    last, one sleep. So nothing sleeps from the line of the last
    address on, and before that line the sleeps and the addresses
    without a derived record together count the addresses before the
    last: each earlier address either had no record or was slept for
    once. *)
Theorem consolidation_pauses_between_addresses (destination : string)
    (derived : list addr_info) (registered : list string) (w : world) :
  let t := events_of (consolidate_all destination derived registered w) in
  let n := len registered in
  Forall (λ d, d = 500) (delays_of t)
  ∧ (length (delays_of t) ≤ length registered - 1)%nat
  ∧ (∀ k, t !! k = Some (Print NotInDerived) →
       ∃ l, t !! S k = Some (Print l))
  ∧ (∃ before loop after,
       t = before ++ loop ++ after
       ∧ Forall quiet before ∧ Forall quiet after
       ∧ paced 500 n NotInDerived 0
           (consolidating_lines n 0 registered) loop)
  ∧ (registered = [] → delays_of t = [])
  ∧ ∀ front original, registered = front ++ [original] →
      ∃ before after,
        t = before
            ++ Print (ConsolidatingOne n n (str_take 40 original)) :: after
        ∧ delays_of after = []
        ∧ (length (delays_of before) + passed_over before
           = length front)%nat.
Proof.
  cbv zeta.
  destruct (consolidate_all_run destination derived registered w)
    as (st & w1 & t & Hloop & ->).
  destruct (consolidate_loop_paced destination derived (len registered)
              registered 0 (ConsState 0 []) w) as (st' & w' & t' & Hloop' & Hp).
  rewrite Hloop in Hloop'. injection Hloop' as <- <- <-.
  unfold events_of. cbn [snd].
  assert (len registered
          = len (consolidating_lines (len registered) 0 registered))
    as Hlen by (unfold len; by rewrite consolidating_lines_length).
  pose proof Hp as Hpaced. rewrite Hlen in Hp at 1.
  pose proof (consolidating_lines_plain (len registered) 0 registered)
    as Hanns.
  destruct (paced_whole 500 NotInDerived _ t
              [ConsolidatingAll (len registered) (str_take 50 destination);
               MessageToSign (consolidation_message destination)]
              (ConsolidatedSummary (cons_success_count st) (len registered))
              [WroteResults
                 (Summary destination (len registered) (cons_success_count st)
                    (len registered - cons_success_count st) (cons_results st));
               Print SavedResults]
              eq_refl Hanns Hp) as (Hd & Hnext & Hnone & Hlast).
  { by repeat constructor. }
  { by repeat constructor. }
  cbn [fmap list_fmap] in Hd, Hnext, Hnone, Hlast.
  assert (∀ front original, registered = front ++ [original] →
            ∃ before after,
              [Print (ConsolidatingAll (len registered)
                        (str_take 50 destination));
               Print (MessageToSign (consolidation_message destination))]
              ++ t
              ++ [Print (ConsolidatedSummary (cons_success_count st)
                           (len registered));
                  WroteResults
                    (Summary destination (len registered)
                       (cons_success_count st)
                       (len registered - cons_success_count st)
                       (cons_results st));
                  Print SavedResults]
              = before
                ++ Print (ConsolidatingOne (len registered) (len registered)
                            (str_take 40 original))
                :: after
              ∧ delays_of after = []
              ∧ (length (delays_of before) + passed_over before
                 = length front)%nat) as Hshape.
  { intros front original Hsplit.
    destruct (Hlast (consolidating_lines (len registered) 0 front)
                (ConsolidatingOne (len registered) (len registered)
                   (str_take 40 original)))
      as (before & after & Heq & Hafter & Hcount).
    { rewrite Hsplit at 2. rewrite consolidating_lines_last, <- Hsplit.
      by rewrite Z.add_0_l. }
    rewrite consolidating_lines_length in Hcount. eauto. }
  split; [exact Hd|]. split.
  { destruct (decide (registered = [])) as [Hnil|Hsome].
    - rewrite Hnone; [simpl; lia|by rewrite Hnil].
    - destruct (exists_last Hsome) as (front & original & Hsplit).
      destruct (Hshape front original Hsplit)
        as (before & after & -> & Ha & Hc).
      rewrite delays_of_app, delays_of_cons, Ha, app_nil_r.
      rewrite Hsplit, length_app. simpl. lia. }
  split; [intros k Hk; by eapply Hnext|].
  split; [|split; [|exact Hshape]].
  - eexists _, t, _. split; [reflexivity|].
    split; [by repeat constructor|]. split; [by repeat constructor|].
    exact Hpaced.
  - intros Hnil. apply Hnone. by rewrite Hnil.
Qed.
End Proofs.

(** * The statements at concrete inputs *)

Section Examples.
Import Toy.

(** The mnemonic "abc", two records out of three. *)
Lemma derive_prefix_stable_witness :
  @from_mnemonic toy "abc" = Some "abc"
  ∧ 0 < 2 ∧ 2 ≤ 3
  ∧ ∃ records_n records_m,
      result_of (derive_addresses_from_mnemonic "abc" 3 (world_with [] [] []))
      = Ret records_n
      ∧ result_of (derive_addresses_from_mnemonic "abc" 2 (world_with [] [] []))
        = Ret records_m
      ∧ take (Z.to_nat 2) records_n = records_m
      ∧ length records_n = Z.to_nat 3
      ∧ ∀ i, 0 ≤ i < 3 → records_n !! Z.to_nat i = Some (@seed_record toy "abc" i).
Proof.
  split; [reflexivity|]. split; [lia|]. split; [lia|].
  apply (@derive_prefix_stable toy "abc" "abc" 2 3); [reflexivity|lia|lia].
Defined.

(** Two addresses and a partial snapshot that does not parse. *)
Lemma malformed_ledger_aborts_witness :
  let w := world_with [(temp_file, Malformed)] [] [] in
  snapshots w !! temp_file = Some Malformed
  ∧ register_all_addresses (records 2) "msg" w
    = (Raise unbound_registered_addrs, w,
       [Print (RegisteringAll 2); Print (RegisteringOne 1 2 "addr10a")]).
Proof.
  split; [reflexivity|].
  apply (malformed_ledger_aborts (@seed_record toy "abc" 0) [@seed_record toy "abc" 1]
           "msg" (world_with [(temp_file, Malformed)] [] [])).
  reflexivity.
Defined.

(** The registration file names "addr1zz"; the seed typed derives
    "addr10a". *)
Lemma first_address_mismatch_aborts_witness :
  let w := world_with (registered_file "addr1zz") ["addr1dest"; twelve_words] [] in
  let first_derived := @seed_record toy twelve_words 0 in
  address first_derived = "addr10a"
  ∧ ∃ w' before,
      consolidate_main w
      = (Ret (), w',
         before ++ [Print (FirstAddressMismatch "addr10a" "addr1zz");
                    Print SeedCleared])
      ∧ Forall (λ e, acts e = false) before
      ∧ Forall (λ e, match e with
                     | Print (ConsolidatingAll _ _) => False
                     | _ => True
                     end) before
      ∧ snapshots w' = snapshots w
      ∧ results_file w' = results_file w
      ∧ served w' = served w
      ∧ mnemonic_var w' = None.
Proof.
  split; [reflexivity|].
  apply (first_address_mismatch_aborts
           (world_with (registered_file "addr1zz") ["addr1dest"; twelve_words] [])
           (Registration "addr1zz" "" "") [] "addr1dest" twelve_words []
           (@seed_record toy twelve_words 0)).
  - reflexivity.
  - reflexivity.
  - reflexivity.
  - vm_compute. apply list_elem_of_here.
  - reflexivity.
  - vm_compute. discriminate.
Defined.

(** C8, at a failing input of the consolidation script: the user types
    a mnemonic of three words. [main] returns at the word count check;
    the name [mnemonic] is still bound to the words, and the line that
    announces the clearing is never printed. *)
Lemma seed_survives_word_count_check :
  let run :=
    consolidate_main
      (world_with (registered_file "addr10a") ["addr1dest"; "one two three"] []) in
  result_of run = Ret ()
  ∧ mnemonic_var (world_of run) = Some "one two three"
  ∧ filter (λ e, is_seed_cleared e = true) (events_of run) = []
  ∧ last (events_of run) = Some (Print (InvalidMnemonic 3)).
Proof. cbv zeta. repeat split. Qed.

(** The same in the registration script: a valid mnemonic of twelve
    words, then the count 0. [main] returns at the range check, the
    mnemonic still bound. *)
Lemma seed_survives_count_check :
  let run := register_main (world_with [] ["yes"; twelve_words; "0"] []) in
  result_of run = Ret ()
  ∧ mnemonic_var (world_of run) = Some twelve_words
  ∧ filter (λ e, is_seed_cleared e = true) (events_of run) = []
  ∧ last (events_of run) = Some (Print CountOutOfRange).
Proof. cbv zeta. repeat split. Qed.

(** A count that is not a number ends the registration script in an
    uncaught [ValueError], the mnemonic still bound. *)
Lemma seed_survives_bad_count :
  let run := register_main (world_with [] ["yes"; twelve_words; "ten"] []) in
  result_of run
  = Raise (Exn ValueError "invalid literal for int() with base 10: 'ten'")
  ∧ mnemonic_var (world_of run) = Some twelve_words
  ∧ filter (λ e, is_seed_cleared e = true) (events_of run) = [].
Proof. cbv zeta. repeat split. Qed.

(** Where the run reaches the [try] statement, the [finally] block
    does unbind the name: here the derived address matches and the
    consolidation goes through. *)
Lemma seed_cleared_after_try :
  let run :=
    consolidate_main
      (world_with (registered_file "addr10a") ["addr1dest"; twelve_words] []) in
  result_of run = Ret ()
  ∧ mnemonic_var (world_of run) = None
  ∧ last (events_of run) = Some (Print SeedCleared).
Proof. cbv zeta. repeat split. Qed.

(** C3 as stated fails for the consolidation loop: a second batch over
    the same list sends the request again for an address whose
    consolidation the first batch recorded as a success. *)
Lemma consolidation_repeats_recorded_addresses :
  let first :=
    consolidate_all "addr1dest" (records 1) ["addr10a"] (world_with [] [] []) in
  let second :=
    consolidate_all "addr1dest" (records 1) ["addr10a"] (world_of first) in
  result_of first = Ret 1
  ∧ sum_results <$> results_file (world_of first)
    = Some [success_entry "addr10a" (JObj [("status", JStr "ok")])]
  ∧ outline (events_of second)
    = ["request addr10a"; "write consolidation-results.json"]
  ∧ requests_of (events_of second) = requests_of (events_of first)
  ∧ length (requests_of (events_of second)) = 1%nat.
Proof. cbv zeta. repeat split. Qed.

(** C5 as stated fails for the consolidation loop: with two addresses,
    both accepted, nothing is written between the first success and
    the request for the second address; the only write comes after the
    last address. *)
Lemma consolidation_writes_once_at_the_end :
  let run :=
    consolidate_all "addr1dest" (records 2) two_targets (world_with [] [] []) in
  result_of run = Ret 2
  ∧ outline (events_of run)
    = ["request addr10a"; "sleep 500"; "request addr11a";
       "write consolidation-results.json"]
  ∧ outline (events_of (register_all_addresses (records 2) "msg"
                          (world_with [] [] [])))
    = ["request addr10a"; "write registrations-partial.json"; "sleep 2000";
       "request addr11a"; "write registrations-partial.json"].
Proof. cbv zeta. repeat split. Qed.

(** C4 as stated fails: a 429 is not set apart from a failure of the
    address. A consolidation batch whose first request is answered 429
    with the hint "120" records that address as a failure, with the
    status and no other mark, and runs as a batch whose first request
    is answered 500. A registration batch does the same but for one line
    of output: the address is not tried again and not recorded, and the
    pause that follows is the pause that follows an accepted address
    too; when the 429 comes for the last address no pause is made at
    all. *)
Lemma rate_limit_is_not_told_apart :
  let limited := register_all_addresses (records 2) "msg" limited_world in
  let failed :=
    register_all_addresses (records 2) "msg" (world_with [] [] [server_error]) in
  let all_accepted :=
    register_all_addresses (records 2) "msg" (world_with [] [] []) in
  let limited_last := register_all_addresses (records 1) "msg" limited_world in
  let limited' :=
    consolidate_all "addr1dest" (records 2) two_targets limited_world in
  let failed' :=
    consolidate_all "addr1dest" (records 2) two_targets
      (world_with [] [] [server_error]) in
  sum_results <$> results_file (world_of limited')
  = Some [[("address", JStr "addr10a"); ("success", JBool false);
           ("error", JStr "HTTP 429: Too Many Requests");
           ("status", JInt 429)];
          success_entry "addr11a" (JObj [("status", JStr "ok")])]
  ∧ outline (events_of limited')
    = ["request addr10a"; "sleep 500"; "request addr11a";
       "write consolidation-results.json"]
  ∧ outline (events_of failed') = outline (events_of limited')
  ∧ result_of failed' = result_of limited'
  ∧ outline (events_of limited)
    = ["request addr10a"; "sleep 2000"; "request addr11a";
       "write registrations-partial.json"]
  ∧ outline (events_of failed) = outline (events_of limited)
  ∧ result_of failed = result_of limited
  ∧ reg_address <$> ledger_of (world_of limited) = ["addr11a"]
  ∧ filter (λ e, is_print e = true) (events_of limited)
    = [Print (RegisteringAll 2); Print (RegisteringOne 1 2 "addr10a");
       Print (RegistrationFailed (JStr "Rate limited (retry after: 120)"));
       Print (RegisteringOne 2 2 "addr11a"); Print RegisteredOk;
       Print (RegisteredSummary 1 2)]
  ∧ delays_of (events_of all_accepted) = delays_of (events_of limited)
  ∧ outline (events_of limited_last) = ["request addr10a"]
  ∧ result_of limited_last = Ret [].
Proof. cbv zeta. repeat split. Qed.


(** The first of two addresses is answered 429 with the hint "120". *)
Lemma rate_limited_is_an_ordinary_failure_witness :
  let a := first_record in
  let st := RegState [] (Some ∅) 0 in
  let w := limited_world in
  registered_addrs st = Some ∅
  ∧ service w (served w) (register_request "msg" a) = Answered limited_response
  ∧ status_code limited_response = 429
  ∧ address_map_of (records 2) !! "addr10a" = Some a
  ∧ register_step "msg" 2 0 a st w
    = (Ret st, bump w,
       [Print (RegisteringOne 1 2 "addr10a");
        Signed (payment_skey a) (signed_bytes "msg" (address_obj a));
        Http (register_request "msg" a) (Answered limited_response);
        Print (RegistrationFailed (JStr "Rate limited (retry after: 120)"));
        Sleep 2000])
  ∧ Forall (λ d, d = 2000)
      (delays_of (events_of (register_all_addresses (records 2) "msg" w)))
  ∧ Forall (λ d, d = 500)
      (delays_of (events_of (consolidate_all "addr1dest" (records 2)
                               two_targets w))).
Proof.
  cbv zeta.
  split; [reflexivity|]. split; [reflexivity|]. split; [reflexivity|].
  split; [reflexivity|].
  destruct (rate_limited_is_an_ordinary_failure "msg" 2 0 first_record
              (RegState [] (Some ∅) 0) ∅ limited_world limited_response
              "addr1dest" "addr10a" (address_map_of (records 2)) first_record
              (ConsState 0 []) limited_world limited_response
              (records 2) (records 2) two_targets)
    as ((_ & Hstep) & _ & Hreg & Hcons).
  - reflexivity.
  - apply not_elem_of_empty.
  - reflexivity.
  - reflexivity.
  - reflexivity.
  - reflexivity.
  - reflexivity.
  - split; [exact Hstep|]. split; [exact Hreg|exact Hcons].
Defined.

(** The whole registration script on a partial snapshot that does not
    parse: the message is fetched, then the batch ends in the unbound
    name; [main] reports the error and clears the seed. Nothing is
    signed, no address is sent, nothing is written. *)
Lemma malformed_ledger_in_main :
  let run :=
    register_main
      (world_with [(temp_file, Malformed)] ["yes"; twelve_words; "2"]
         [Answered (Response 200 None
                      (Some (JObj [("message", JStr "terms")])) "")]) in
  result_of run = Ret ()
  ∧ outline (events_of run) = ["request terms"]
  ∧ filter (λ e, is_signing e = true) (events_of run) = []
  ∧ filter (λ e, is_print e = true) (events_of run)
    = [Print Banner; Print AskSeed; Print (GotSeed 12); Print (Deriving 2);
       Print (DerivedAll 2); Print (SampleAddresses "addr10a" (Some "addr11a"));
       Print FetchingMessage; Print (GotMessage "terms");
       Print (RegisteringAll 2); Print (RegisteringOne 1 2 "addr10a");
       Print (FatalError (exn_str unbound_registered_addrs));
       Print SeedCleared]
  ∧ mnemonic_var (world_of run) = None.
Proof. cbv zeta. repeat split. Qed.

(** ** The further properties at concrete inputs *)

(** The terms arrive under the status 500. *)
Lemma get_registration_message_ignores_status_witness :
  let w := world_with [] [] [Answered (terms_response 500)] in
  service w (served w) GetTerms = Answered (terms_response 500)
  ∧ ∃ w',
      get_registration_message w
      = (Ret "terms", w',
         [Print FetchingMessage; Http GetTerms (Answered (terms_response 500));
          Print (GotMessage "terms")])
      ∧ served w' = 1%nat
      ∧ snapshots w' = snapshots w.
Proof.
  cbv zeta. split; [reflexivity|].
  apply (get_registration_message_ignores_status
           (world_with [] [] [Answered (terms_response 500)])
           (terms_response 500) [("message", JStr "terms")] "terms");
    reflexivity.
Defined.

(** One address is registered next to an old [registrations.json]. *)
Lemma register_main_keeps_registrations_witness :
  let old := Entries [Registration "addr1zz" "" ""] in
  let w := world_with [(old_file, old)] ["yes"; twelve_words; "1"] [terms_reply] in
  snapshots w !! old_file = Some old
  ∧ snapshots (world_of (register_main w)) !! old_file = Some old
  ∧ results_file (world_of (register_main w)) = results_file w.
Proof.
  cbv zeta. split; [reflexivity|].
  apply (register_main_keeps_registrations
           (world_with [(old_file, Entries [Registration "addr1zz" "" ""])]
              ["yes"; twelve_words; "1"] [terms_reply])).
  reflexivity.
Defined.

(** The service is out of reach from the first request on. *)
Lemma register_main_clears_seed_after_checks_witness :
  let w := world_with [] ["yes"; twelve_words; ""] [Unreachable "timed out"] in
  chosen_count "" = Some 100
  ∧ result_of (register_main w) = Ret ()
  ∧ mnemonic_var (world_of (register_main w)) = None
  ∧ last (events_of (register_main w)) = Some (Print SeedCleared).
Proof.
  cbv zeta. split; [reflexivity|].
  apply (register_main_clears_seed_after_checks
           (world_with [] ["yes"; twelve_words; ""] [Unreachable "timed out"])
           "yes" twelve_words "" [] 100).
  - reflexivity.
  - reflexivity.
  - vm_compute. apply list_elem_of_here.
  - reflexivity.
  - lia.
Defined.

Lemma consolidate_main_clears_seed_after_checks_witness :
  let w :=
    world_with (registered_file "addr10a") ["addr1dest"; twelve_words]
      [Unreachable "timed out"] in
  result_of (consolidate_main w) = Ret ()
  ∧ mnemonic_var (world_of (consolidate_main w)) = None
  ∧ last (events_of (consolidate_main w)) = Some (Print SeedCleared).
Proof.
  cbv zeta.
  apply (consolidate_main_clears_seed_after_checks
           (world_with (registered_file "addr10a") ["addr1dest"; twelve_words]
              [Unreachable "timed out"])
           (Registration "addr10a" "" "") [] "addr1dest" twelve_words []).
  - reflexivity.
  - reflexivity.
  - reflexivity.
  - vm_compute. apply list_elem_of_here.
Defined.

(** The answer "y" is not "yes". *)
Lemma register_main_needs_yes_witness :
  let w := world_with [] ["y"; twelve_words] [] in
  register_main w
  = (Ret (), world_with [] [twelve_words] [],
     [Print Banner; Asked AskReady "y"; Print Aborted]).
Proof.
  cbv zeta.
  apply (register_main_needs_yes (world_with [] ["y"; twelve_words] [])
           "y" [twelve_words]).
  - reflexivity.
  - vm_compute. discriminate.
Defined.

(** One address is accepted while [registrations.json] does not parse:
    after the run neither the partial snapshot nor any other file
    holds its entry. *)
Lemma register_run_unreadable_registrations_witness :
  let w := world_with [(old_file, Malformed)] [] [terms_reply] in
  let run := register_run "abc" 1 w in
  let ledger := [@entry_of toy "terms" first_record] in
  result_of (register_all_addresses (records 1) "terms" (bump w)) = Ret ledger
  ∧ (∃ e, result_of run = Raise e ∧ exn_kind e = JSONDecodeError)
  ∧ snapshots (world_of run) = delete temp_file (snapshots w)
  ∧ results_file (world_of run) = results_file w
  ∧ Removed temp_file ∈ events_of run.
Proof.
  cbv zeta. split; [reflexivity|].
  apply (@register_run_unreadable_registrations toy "abc" "abc" 1
           (world_with [(old_file, Malformed)] [] [terms_reply])
           (terms_response 200) [("message", JStr "terms")] "terms"
           [@entry_of toy "terms" first_record]).
  - reflexivity.
  - lia.
  - reflexivity.
  - reflexivity.
  - reflexivity.
  - reflexivity.
  - discriminate.
  - reflexivity.
Defined.

(** One address is accepted and there is no [registrations.json]. *)
Lemma register_run_saves_ledger_witness :
  let w := world_with [] [] [terms_reply] in
  let run := register_run "abc" 1 w in
  let ledger := [@entry_of toy "terms" first_record] in
  result_of (register_all_addresses (records 1) "terms" (bump w)) = Ret ledger
  ∧ result_of run = Ret ()
  ∧ snapshots (world_of run)
    = <[old_file := Entries ledger]> (delete temp_file (snapshots w))
  ∧ results_file (world_of run) = results_file w
  ∧ WroteSnapshot old_file ledger ∈ events_of run.
Proof.
  cbv zeta. split; [reflexivity|].
  apply (@register_run_saves_ledger toy "abc" "abc" 1
           (world_with [] [] [terms_reply])
           (terms_response 200) [("message", JStr "terms")] "terms"
           [@entry_of toy "terms" first_record]).
  - reflexivity.
  - lia.
  - reflexivity.
  - reflexivity.
  - reflexivity.
  - reflexivity.
  - discriminate.
  - discriminate.
Defined.

(** Twelve words that the wallet refuses. *)
Lemma register_main_rejected_mnemonic_witness :
  let w := world_with [] ["yes"; refused_words; "5"] [] in
  @from_mnemonic toy refused_words = None
  ∧ ∃ detail,
      register_main w
      = (Ret (), world_with [] [] [],
         register_prelude "yes" refused_words "5"
         ++ [Print (Deriving 5); Print (FatalError detail);
             Print SeedCleared]).
Proof.
  cbv zeta. split; [reflexivity|].
  apply (register_main_rejected_mnemonic
           (world_with [] ["yes"; refused_words; "5"] [])
           "yes" refused_words "5" [] 5).
  - reflexivity.
  - reflexivity.
  - vm_compute. apply list_elem_of_here.
  - reflexivity.
  - lia.
  - reflexivity.
Defined.

Lemma consolidate_main_rejected_mnemonic_witness :
  let w := world_with (registered_file "addr10a") ["addr1dest"; refused_words] [] in
  ∃ detail,
    consolidate_main w
    = (Ret (), world_with (registered_file "addr10a") [] [],
       consolidate_prelude ["addr10a"] "addr1dest" refused_words
       ++ [Print (GotSeed 12); Print (Deriving 1); Print (FatalError detail);
           Print SeedCleared]).
Proof.
  cbv zeta.
  apply (consolidate_main_rejected_mnemonic
           (world_with (registered_file "addr10a") ["addr1dest"; refused_words]
              [])
           (Registration "addr10a" "" "") [] "addr1dest" refused_words []).
  - reflexivity.
  - reflexivity.
  - reflexivity.
  - vm_compute. apply list_elem_of_here.
  - reflexivity.
Defined.

(** The request for the terms times out. *)
Lemma register_main_unreachable_service_witness :
  let w := world_with [] ["yes"; twelve_words; "2"] [Unreachable "timed out"] in
  service w (served w) GetTerms = Unreachable "timed out"
  ∧ ∃ derivation sample,
      register_main w
      = (Ret (),
         World (snapshots w) (results_file w) [] (service w) 1 None,
         register_prelude "yes" twelve_words "2"
         ++ derivation
         ++ [Print sample; Print FetchingMessage;
             Http GetTerms (Unreachable "timed out");
             Print (FatalError "timed out"); Print SeedCleared])
      ∧ Forall (λ e, is_derivation_line e = true) derivation.
Proof.
  cbv zeta. split; [reflexivity|].
  apply (@register_main_unreachable_service toy
           (world_with [] ["yes"; twelve_words; "2"] [Unreachable "timed out"])
           "yes" twelve_words "2" [] 2 twelve_words "timed out").
  - reflexivity.
  - reflexivity.
  - vm_compute. apply list_elem_of_here.
  - reflexivity.
  - lia.
  - reflexivity.
  - reflexivity.
Defined.

(** Two registered addresses, the second from the index 5: one request
    goes out, for the first. *)
Lemma consolidate_main_requests_witness :
  let files :=
    [(old_file, Entries [Registration "addr10a" "" "";
                         Registration "addr15a" "" ""])] in
  let w := world_with files ["addr1dest"; twelve_words] [] in
  address (@seed_record toy twelve_words 0) = "addr10a"
  ∧ requests_of (events_of (consolidate_main w))
    = [@donate_request toy "addr1dest" (@seed_record toy twelve_words 0)].
Proof.
  cbv zeta. split; [reflexivity|].
  rewrite (@consolidate_main_requests toy
             (world_with
                [(old_file, Entries [Registration "addr10a" "" "";
                                     Registration "addr15a" "" ""])]
                ["addr1dest"; twelve_words] [])
             (Registration "addr10a" "" "") [Registration "addr15a" "" ""]
             "addr1dest" twelve_words [] twelve_words).
  - reflexivity.
  - reflexivity.
  - reflexivity.
  - reflexivity.
  - vm_compute. apply list_elem_of_here.
  - reflexivity.
  - reflexivity.
Defined.

(** Two addresses, both accepted. *)
Lemma register_main_requests_witness :
  let w := world_with [] ["yes"; twelve_words; "2"] [terms_reply] in
  ∃ sent,
    requests_of (events_of (register_main w)) = GetTerms :: sent
    ∧ sent `sublist_of`
        (@register_request toy "terms"
           <$> (@seed_record toy twelve_words <$> range 2))
    ∧ (length sent ≤ 1000)%nat.
Proof.
  cbv zeta.
  apply (@register_main_requests toy
           (world_with [] ["yes"; twelve_words; "2"] [terms_reply])
           "yes" twelve_words "2" [] 2 twelve_words (terms_response 200)
           [("message", JStr "terms")] "terms").
  - reflexivity.
  - reflexivity.
  - vm_compute. apply list_elem_of_here.
  - reflexivity.
  - lia.
  - reflexivity.
  - reflexivity.
  - reflexivity.
  - reflexivity.
Defined.

End Examples.
